(** * xlnt: decryption of password-protected OOXML packages

    A shallow embedding of [source/detail/crypto/xlsx_crypto.cpp]: the
    dispatcher [decrypt_xlsx], the standard (binary header, AES-ECB) decoder
    [decrypt_xlsx_standard], the agile (XML header, segmented AES-CBC)
    decoder [decrypt_xlsx_agile] and the entry point
    [xlnt::detail::decrypt_xlsx], followed by the properties of the
    specification that concern them and by further properties of the code.

    Conventions of the embedding.
    - A [std::vector<std::uint8_t>] is a [list byte]; an integer of the code
      ([std::size_t], [std::uint32_t], ...) is a [Z] whose wrap-around is
      written out where the code can reach it.
    - The host is little-endian: the code reads and writes integers by
      casting pointers into byte vectors, so the byte order of [read_int] and
      of the two counters embedded in hash inputs is the host's.
    - A C++ exception is [Throw]; an access outside a vector (undefined
      behaviour in C++) is [OutOfBounds]; a loop that has not finished within
      the fuel it was given is [OutOfFuel]. Memory is not bounded: an
      allocation never fails, whatever the size asked for, so that no
      [resize] throws [std::length_error] or [std::bad_alloc]. A property
      about every exception of a decoder is stated for the exceptions of
      xlnt, and a property about what a decoder returns on every input for
      the runs that return; the others hold of the runs whose allocations
      succeed.
    - The SHA, AES, base64, compound-document and XML collaborators are not
      part of this file of the repository; they are the fields of the class
      [Primitives], and the calls the decoders make to the container reader
      and to AES are recorded in a trace. *)

From Stdlib Require Import ZArith String Ascii Strings.Byte Bool Lia Arith List.
Import ListNotations.

Local Open Scope Z_scope.

(** ** Bytes and integers *)

Definition bytes := list byte.

Definition byte_to_Z (b : byte) : Z := Z.of_N (Byte.to_N b).

Definition byte_of_Z (z : Z) : byte :=
  match Byte.of_N (Z.to_N (z mod 256)) with
  | Some b => b
  | None => x00
  end.

Definition size (l : bytes) : Z := Z.of_nat (length l).

(** [std::size_t] arithmetic is modulo 2^64, [std::uint32_t] modulo 2^32. *)
Definition size_t (z : Z) : Z := z mod 2 ^ 64.
Definition uint32_t (z : Z) : Z := z mod 2 ^ 32.

(** The value of a little-endian byte string. *)
Fixpoint little_endian (l : bytes) : Z :=
  match l with
  | [] => 0
  | b :: l' => byte_to_Z b + 256 * little_endian l'
  end.

(** The [n] low bytes of [z], least significant first. *)
Fixpoint to_little_endian (n : nat) (z : Z) : bytes :=
  match n with
  | O => []
  | S n' => byte_of_Z z :: to_little_endian n' (z / 256)
  end.

Definition little_endian_u32 (z : Z) : bytes := to_little_endian 4 z.

(** [v.resize(n)] with the default fill: the first [n] bytes, zero-filled
    when the vector is shorter. *)
Definition resize (n : nat) (l : bytes) : bytes :=
  firstn n l ++ repeat x00 (n - length l).

(** The bytes at positions [lo, hi) of [l], for [0 <= lo <= hi <= size l]. *)
Definition slice (lo hi : Z) (l : bytes) : bytes :=
  firstn (Z.to_nat (hi - lo)) (skipn (Z.to_nat lo) l).

Definition bytes_eqb (a b : bytes) : bool :=
  if list_eq_dec Byte.byte_eq_dec a b then true else false.

Definition xor_byte (a b : byte) : byte :=
  byte_of_Z (Z.lxor (byte_to_Z a) (byte_to_Z b)).

(** ** Outcomes, traces and the monad of the decoders *)

Inductive exn : Type :=
| xlnt_exception (what : string)   (* throw xlnt::exception(what) *)
| xlnt_unsupported (what : string) (* throw xlnt::unsupported(what) *)
| xml_parsing (what : string)      (* thrown by the XML pull parser *)
| c_string (what : string)         (* throw "..." : a const char * *)
| std_exception (type : string).   (* thrown by the standard library *)

Inductive outcome (A : Type) : Type :=
| Ok (a : A)
| Throw (e : exn)
| OutOfBounds
| OutOfFuel.

Arguments Ok {A} a.
Arguments Throw {A} e.
Arguments OutOfBounds {A}.
Arguments OutOfFuel {A}.

(** The calls to the collaborators that the specification speaks about:
    opening the compound document, reading one of its streams, and the two
    AES decryptions with their ciphertext, key and initialisation vector. *)
Inductive call : Type :=
| storage_open (data : bytes)
| stream_read (name : string)
| aes_ecb (input key : bytes)
| aes_cbc (input key iv : bytes).

Definition trace := list call.

Definition M (A : Type) : Type := (trace * outcome A)%type.

Definition ret {A} (a : A) : M A := ([], Ok a).
Definition throw {A} (e : exn) : M A := ([], Throw e).
Definition out_of_bounds {A} : M A := ([], OutOfBounds).
Definition out_of_fuel {A} : M A := ([], OutOfFuel).
Definition emit (c : call) : M unit := ([c], Ok tt).

Definition bind {A B} (m : M A) (f : A -> M B) : M B :=
  match m with
  | (t, Ok a) => let (t', r) := f a in (t ++ t', r)
  | (t, Throw e) => (t, Throw e)
  | (t, OutOfBounds) => (t, OutOfBounds)
  | (t, OutOfFuel) => (t, OutOfFuel)
  end.

Declare Scope monad_scope.
Delimit Scope monad_scope with monad.
Notation "x <- m ;; k" := (bind m (fun x => k))
  (at level 61, m at next level, right associativity) : monad_scope.
Notation "' p <- m ;; k" := (bind m (fun x => match x with p => k end))
  (at level 61, p pattern, m at next level, right associativity) : monad_scope.
Notation "m ;;; k" := (bind m (fun _ => k))
  (at level 61, right associativity) : monad_scope.
Local Open Scope monad_scope.

Definition outcome_of {A} (m : M A) : outcome A := snd m.
Definition trace_of {A} (m : M A) : trace := fst m.

(** A computation that throws no exception. *)
Definition no_throw {A} (m : M A) : Prop :=
  forall e, outcome_of m <> Throw e.

(** ** Enumerations and records of the source *)

Definition ole_segment_length : Z := 4096.

Inductive hash_algorithm : Type := hash_sha1 | hash_sha512.

Inductive cipher_algorithm : Type :=
| cipher_aes | cipher_rc2 | cipher_rc4 | cipher_des | cipher_desx
| cipher_triple_des | cipher_triple_des_112.

(** [encryption_info::standard_encryption_info]: [spin_count] and [hash] are
    the constants of the struct; the last three fields hold what the decoder
    keeps in its locals [salt], [verifier_hash_input] and
    [verifier_hash_value]. *)
Record standard_encryption_info : Type := {
  std_spin_count : Z;
  std_key_bits : Z;
  std_key_bytes : Z;
  std_cipher : cipher_algorithm;
  std_hash : hash_algorithm;
  std_salt : bytes;
  std_verifier_hash_input : bytes;
  std_verifier_hash_value : bytes
}.

Record key_data_info : Type := {
  kd_salt_size : Z;
  kd_block_size : Z;
  kd_key_bits : Z;
  kd_hash_size : Z;
  kd_cipher_algorithm : string;
  kd_cipher_chaining : string;
  kd_hash_algorithm : string;
  kd_salt_value : bytes
}.

Record data_integrity_info : Type := {
  di_hmac_key : bytes;
  di_hmac_value : bytes
}.

Record key_encryptor_info : Type := {
  ke_spin_count : Z;
  ke_salt_size : Z;
  ke_block_size : Z;
  ke_key_bits : Z;
  ke_hash_size : Z;
  ke_cipher_algorithm : string;
  ke_cipher_chaining : string;
  ke_hash : hash_algorithm;
  ke_salt_value : bytes;
  ke_verifier_hash_input : bytes;
  ke_verifier_hash_value : bytes;
  ke_encrypted_key_value : bytes
}.

Record agile_encryption_info : Type := {
  key_data : key_data_info;
  data_integrity : data_integrity_info;
  key_encryptor : key_encryptor_info
}.

(** ** [read_int]

    [read_int<T>(index, raw_data)] reinterprets the [sizeof(T)] bytes at
    [index] and advances [index]. The code makes no comparison with
    [raw_data.size()]: a read that does not fit is an access outside the
    vector. *)
Definition read_int (width : Z) (index : Z) (raw_data : bytes) : M (Z * Z) :=
  if (0 <=? index) && (index + width <=? size raw_data)
  then ret (little_endian (slice index (index + width) raw_data), index + width)
  else out_of_bounds.

(** A vector built from the iterator range [begin + lo, begin + hi). *)
Definition range (lo hi : Z) (l : bytes) : M bytes :=
  if (0 <=? lo) && (lo <=? hi) && (hi <=? size l)
  then ret (slice lo hi l)
  else out_of_bounds.

(** ** The collaborators

    [sha1], [sha512] ([detail/crypto/sha.hpp]), [aes_ecb_decrypt],
    [aes_cbc_decrypt] ([detail/crypto/aes.hpp]), [decode_base64]
    ([detail/crypto/base64.hpp]), the compound-document reader
    ([detail/pole.hpp]), the tokenizer and the attribute conversion of the
    XML pull parser (libstudxml) and the standard library's UTF-8 to UTF-16
    conversion ([std::wstring_convert::from_bytes], which fails on a string
    that is not UTF-8: [None]) are declared outside this source file. They
    are parameters of the development; the only facts assumed of them are
    the digest lengths of the two hash functions. *)

Inductive xml_event : Type :=
| start_element (ns name : string) (attributes : list (string * string))
| end_element (ns name : string)
| characters (value : string).

Class Primitives : Type := {
  sha1 : bytes -> bytes;
  sha512 : bytes -> bytes;
  aes_ecb_decrypt : bytes -> bytes -> bytes;
  aes_cbc_decrypt : bytes -> bytes -> bytes -> bytes;
  decode_base64 : string -> bytes;
  storage : Type;
  pole_open : bytes -> option storage;
  pole_stream : storage -> string -> option bytes;
  xml_events : bytes -> list xml_event;
  size_t_of_string : string -> option Z;
  xmlns : string;   (* xlnt::constants::ns("encryption") *)
  xmlns_p : string; (* xlnt::constants::ns("encryption-password") *)
  utf8_to_utf16 : string -> option (list Z);
  sha1_length : forall input, length (sha1 input) = 20%nat;
  sha512_length : forall input, length (sha512 input) = 64%nat
}.

Section Decoders.

Context {P : Primitives}.

(** [hash(algorithm, input)]: the enumeration has the two members the
    function tests for, so its final [throw] cannot be reached. *)
Definition hash (algorithm : hash_algorithm) (input : bytes) : bytes :=
  match algorithm with
  | hash_sha512 => sha512 input
  | hash_sha1 => sha1 input
  end.

(** [file(storage, name)]: the bytes of the named stream, the empty vector
    when the stream cannot be opened. *)
Definition file (st : storage) (name : string) : M bytes :=
  emit (stream_read name) ;;;
  match pole_stream st name with
  | None => ret []
  | Some content => ret content
  end.

Definition call_aes_ecb_decrypt (input key : bytes) : M bytes :=
  emit (aes_ecb input key) ;;; ret (aes_ecb_decrypt input key).

Definition call_aes_cbc_decrypt (input key iv : bytes) : M bytes :=
  emit (aes_cbc input key iv) ;;; ret (aes_cbc_decrypt input key iv).

(** ** Key generation (both decoders)

    The two decoders contain the same text (lines 238-256 and 464-484 of
    the source):
<<
    auto salt_plus_password = salt;
    for each code unit c of password: append the two bytes of c;
    h_0 = hash(H, salt_plus_password);
    std::vector<std::uint8_t> iterator_plus_h_n(4, 0);
    iterator_plus_h_n.insert(end, h_0.begin(), h_0.end());
    std::uint32_t &iterator = *reinterpret_cast<std::uint32_t *>(iterator_plus_h_n.data());
    std::vector<std::uint8_t> h_n;
    for (iterator = 0; iterator < spin_count; ++iterator) {
        h_n = hash(H, iterator_plus_h_n);
        std::copy(h_n.begin(), h_n.end(), iterator_plus_h_n.begin() + 4);
    }
>>
    [iterator] is a 32-bit view of the first four bytes of the buffer, so
    the state of the loop is the buffer and [h_n]; [spin_count] is a
    [std::size_t]. *)

(** The two bytes of a UTF-16 code unit as they lie in memory. *)
Definition code_unit_bytes (c : Z) : bytes := to_little_endian 2 c.

Definition password_bytes (password : list Z) : bytes :=
  flat_map code_unit_bytes password.

(** The value of [iterator], read through the reference. *)
Definition get_iterator (buffer : bytes) : Z :=
  little_endian (firstn 4 buffer).

(** An assignment to [iterator]: the first four bytes of the buffer. *)
Definition set_iterator (v : Z) (buffer : bytes) : bytes :=
  little_endian_u32 v ++ skipn 4 buffer.

(** [std::copy(src.begin(), src.end(), dst.begin() + at)]. *)
Definition copy_at (at_ : nat) (src dst : bytes) : M bytes :=
  if (at_ + length src <=? length dst)%nat
  then ret (firstn at_ dst ++ src ++ skipn (at_ + length src) dst)
  else out_of_bounds.

Fixpoint spin_loop (fuel : nat) (algorithm : hash_algorithm) (spin_count : Z)
    (iterator_plus_h_n h_n : bytes) : M bytes :=
  if get_iterator iterator_plus_h_n <? spin_count then
    match fuel with
    | O => out_of_fuel
    | S fuel' =>
        let h_n := hash algorithm iterator_plus_h_n in
        buffer <- copy_at 4 h_n iterator_plus_h_n ;;
        let buffer := set_iterator (uint32_t (get_iterator buffer + 1)) buffer in
        spin_loop fuel' algorithm spin_count buffer h_n
    end
  else ret h_n.

Definition generate_h_n (fuel : nat) (algorithm : hash_algorithm)
    (spin_count : Z) (salt : bytes) (password : list Z) : M bytes :=
  let salt_plus_password := salt ++ password_bytes password in
  let h_0 := hash algorithm salt_plus_password in
  let iterator_plus_h_n := repeat x00 4 ++ h_0 in
  spin_loop fuel algorithm spin_count (set_iterator 0 iterator_plus_h_n) [].

(** ** The standard decoder: [decrypt_xlsx_standard] *)

(** [static_cast<std::ptrdiff_t>] of a [std::size_t]. *)
Definition ptrdiff_t (z : Z) : Z :=
  let w := size_t z in if w <? 2 ^ 63 then w else w - 2 ^ 64.

(** The [std::uint16_t] values laid over a byte range: a whole number of
    code units. A byte left over at the end of a range of odd length is not
    read here; in the source such a range is not a valid range of
    [std::uint16_t], and the properties about bounds leave it out. *)
Fixpoint uint16s (l : bytes) : list Z :=
  match l with
  | lo :: hi :: l' => (byte_to_Z lo + 256 * byte_to_Z hi) :: uint16s l'
  | _ => []
  end.

Definition csp_prototype : string :=
  "Microsoft Enhanced RSA and AES Cryptographic Provider (Prototype)".
Definition csp_enhanced : string :=
  "Microsoft Enhanced RSA and AES Cryptographic Provider".

(** Lines 168-234: the fields of the binary header, in the order the code
    reads them. [offset] is threaded through the reads as the code's
    reference parameter is. *)
Definition read_standard_header (encryption_info : bytes)
    : M standard_encryption_info :=
  let offset := 0 in
  '(header_length, offset) <- read_int 4 offset encryption_info ;;
  let index_at_start := offset in
  '(_, offset) <- read_int 4 offset encryption_info ;; (* skip_flags *)
  '(_, offset) <- read_int 4 offset encryption_info ;; (* size_extra *)
  '(alg_id, offset) <- read_int 4 offset encryption_info ;;
  cipher <-
    (if (alg_id =? 0) || (alg_id =? 0x0000660E) || (alg_id =? 0x0000660F)
        || (alg_id =? 0x00006610)
     then ret cipher_aes
     else throw (xlnt_exception "invalid cipher algorithm")) ;;
  '(alg_id_hash, offset) <- read_int 4 offset encryption_info ;;
  (if negb (alg_id_hash =? 0x00008004) && (alg_id_hash =? 0)
   then throw (xlnt_exception "invalid hash algorithm")
   else ret tt) ;;;
  '(key_bits, offset) <- read_int 4 offset encryption_info ;;
  let key_bytes := key_bits / 8 in
  '(provider_type, offset) <- read_int 4 offset encryption_info ;;
  (if negb (provider_type =? 0) && negb (provider_type =? 0x00000018)
   then throw (xlnt_exception "invalid provider type")
   else ret tt) ;;;
  '(_, offset) <- read_int 4 offset encryption_info ;; (* reserved 1 *)
  '(reserved2, offset) <- read_int 4 offset encryption_info ;;
  (if negb (reserved2 =? 0)
   then throw (xlnt_exception "invalid header")
   else ret tt) ;;;
  let csp_name_length := size_t (header_length - (offset - index_at_start)) in
  csp_name_raw <- range (ptrdiff_t offset) (ptrdiff_t (offset + csp_name_length))
                    encryption_info ;;
  let csp_name_wide := uint16s csp_name_raw in
  csp_name <-
    (match csp_name_wide with
     | [] => out_of_bounds (* csp_name_wide.end() - 1 *)
     | _ => ret (map byte_of_Z (removelast csp_name_wide))
     end) ;;
  (if negb (bytes_eqb csp_name (list_byte_of_string csp_prototype))
      && negb (bytes_eqb csp_name (list_byte_of_string csp_enhanced))
   then throw (xlnt_exception "invalid cryptographic provider")
   else ret tt) ;;;
  let offset := size_t (offset + csp_name_length) in
  '(salt_size, offset) <- read_int 4 offset encryption_info ;;
  salt <- range (ptrdiff_t offset) (ptrdiff_t (offset + salt_size))
            encryption_info ;;
  let offset := size_t (offset + salt_size) in
  let verifier_size := 16 in
  verifier_hash_input <-
    range (ptrdiff_t offset) (ptrdiff_t (offset + verifier_size))
      encryption_info ;;
  let offset := size_t (offset + verifier_size) in
  '(verifier_hash_size, offset) <- read_int 4 offset encryption_info ;;
  verifier_hash_value <-
    range (ptrdiff_t offset) (ptrdiff_t (offset + verifier_hash_size))
      encryption_info ;;
  ret {| std_spin_count := 50000;
         std_key_bits := key_bits;
         std_key_bytes := key_bytes;
         std_cipher := cipher;
         std_hash := hash_sha1;
         std_salt := salt;
         std_verifier_hash_input := verifier_hash_input;
         std_verifier_hash_value := verifier_hash_value |}.

(** [std::vector<std::uint8_t> buffer(64, c)] followed by
    [buffer[i] = c ^ h[i]] for every index of [h]. *)
Definition xor_fill (c : byte) (h : bytes) : M bytes :=
  if (length h <=? 64)%nat
  then ret (map (xor_byte c) h ++ repeat c (64 - length h))
  else out_of_bounds.

(** Lines 236-285: the key of the standard scheme. *)
Definition standard_key (fuel : nat) (info : standard_encryption_info)
    (password : list Z) : M bytes :=
  h_n <- generate_h_n fuel (std_hash info) (std_spin_count info)
           (std_salt info) password ;;
  let block_number := 0 in
  let h_n_plus_block := h_n ++ little_endian_u32 block_number in
  let h_final := hash (std_hash info) h_n_plus_block in
  buffer <- xor_fill x36 h_final ;;
  let X1 := hash (std_hash info) buffer in
  buffer <- xor_fill x5c h_final ;;
  let X2 := hash (std_hash info) buffer in
  let X3 := X1 ++ X2 in
  range 0 (ptrdiff_t (std_key_bytes info)) X3.

(** Lines 289-298: the length prefix, one AES-ECB call over the rest of the
    package, and the resize to the prefix. *)
Definition standard_package (key_derived encrypted_package : bytes) : M bytes :=
  let package_offset := 0 in
  '(decrypted_size, _) <- read_int 8 package_offset encrypted_package ;;
  payload <- range 8 (size encrypted_package) encrypted_package ;;
  decrypted <- call_aes_ecb_decrypt payload key_derived ;;
  ret (resize (Z.to_nat decrypted_size) decrypted).

Definition decrypt_xlsx_standard (fuel : nat) (encryption_info : bytes)
    (password : list Z) (encrypted_package : bytes) : M bytes :=
  info <- read_standard_header encryption_info ;;
  key_derived <- standard_key fuel info password ;;
  standard_package key_derived encrypted_package.

(** ** The XML pull parser, as the agile decoder drives it

    The parser is the sequence of events still to be delivered together
    with the element event delivered last (whose name, namespace and
    attribute map the accessors read). Only the operations the decoder uses
    are modelled. *)

Inductive event_type : Type :=
| ev_start_element | ev_end_element | ev_characters | ev_eof.

Definition event_type_eqb (a b : event_type) : bool :=
  match a, b with
  | ev_start_element, ev_start_element
  | ev_end_element, ev_end_element
  | ev_characters, ev_characters
  | ev_eof, ev_eof => true
  | _, _ => false
  end.

Definition type_of_event (e : xml_event) : event_type :=
  match e with
  | start_element _ _ _ => ev_start_element
  | end_element _ _ => ev_end_element
  | characters _ => ev_characters
  end.

Record parser : Type := {
  pending : list xml_event;
  current : option xml_event
}.

(** A parser that has delivered nothing yet. *)
Definition parser_of (events : list xml_event) : parser :=
  {| pending := events; current := None |}.

Definition make_parser (encryption_info : bytes) : parser :=
  parser_of (xml_events encryption_info).

Definition peek (p : parser) : event_type :=
  match pending p with
  | [] => ev_eof
  | e :: _ => type_of_event e
  end.

Definition next (p : parser) : event_type * parser :=
  match pending p with
  | [] => (ev_eof, {| pending := []; current := None |})
  | e :: rest => (type_of_event e, {| pending := rest; current := Some e |})
  end.

Definition namespace_ (p : parser) : string :=
  match current p with
  | Some (start_element ns _ _) | Some (end_element ns _) => ns
  | _ => EmptyString
  end.

Definition name (p : parser) : string :=
  match current p with
  | Some (start_element _ n _) | Some (end_element _ n) => n
  | _ => EmptyString
  end.

(** [parser.next_expect(type)]. *)
Definition next_expect (ty : event_type) (p : parser) : M parser :=
  let (got, p') := next p in
  if event_type_eqb got ty then ret p'
  else throw (xml_parsing "unexpected event").

(** [parser.next_expect(type, ns, name)]. *)
Definition next_expect_named (ty : event_type) (ns n : string) (p : parser)
    : M parser :=
  let (got, p') := next p in
  if event_type_eqb got ty && String.eqb (namespace_ p') ns
     && String.eqb (name p') n
  then ret p'
  else throw (xml_parsing "unexpected event").

Fixpoint lookup (key : string) (attributes : list (string * string))
    : option string :=
  match attributes with
  | [] => None
  | (k, v) :: rest => if String.eqb k key then Some v else lookup key rest
  end.

Definition attributes_of (p : parser) : list (string * string) :=
  match current p with
  | Some (start_element _ _ attributes) => attributes
  | _ => []
  end.

(** [parser.attribute(name)]: the attribute must be present. *)
Definition attribute (key : string) (p : parser) : M string :=
  match lookup key (attributes_of p) with
  | Some v => ret v
  | None => throw (xml_parsing "attribute expected")
  end.

(** [parser.attribute<std::size_t>(name)]. *)
Definition attribute_size_t (key : string) (p : parser) : M Z :=
  v <- attribute key p ;;
  match size_t_of_string v with
  | Some z => ret z
  | None => throw (xml_parsing "invalid value")
  end.

(** ** The agile decoder: [decrypt_xlsx_agile] *)

(** Lines 411-443: the attributes of a password [encryptedKey] element. *)
Definition read_encrypted_key (p : parser) : M key_encryptor_info :=
  spin_count <- attribute_size_t "spinCount" p ;;
  salt_size <- attribute_size_t "saltSize" p ;;
  block_size <- attribute_size_t "blockSize" p ;;
  key_bits <- attribute_size_t "keyBits" p ;;
  hash_size <- attribute_size_t "hashSize" p ;;
  cipher_algorithm <- attribute "cipherAlgorithm" p ;;
  cipher_chaining <- attribute "cipherChaining" p ;;
  hash_algorithm_string <- attribute "hashAlgorithm" p ;;
  hash_kind <-
    (if String.eqb hash_algorithm_string "SHA512" then ret hash_sha512
     else if String.eqb hash_algorithm_string "SHA1" then ret hash_sha1
     else throw (xlnt_unsupported "hash")) ;;
  salt_value <- attribute "saltValue" p ;;
  verifier_hash_input <- attribute "encryptedVerifierHashInput" p ;;
  verifier_hash_value <- attribute "encryptedVerifierHashValue" p ;;
  encrypted_key_value <- attribute "encryptedKeyValue" p ;;
  ret {| ke_spin_count := spin_count;
         ke_salt_size := salt_size;
         ke_block_size := block_size;
         ke_key_bits := key_bits;
         ke_hash_size := hash_size;
         ke_cipher_algorithm := cipher_algorithm;
         ke_cipher_chaining := cipher_chaining;
         ke_hash := hash_kind;
         ke_salt_value := decode_base64 salt_value;
         ke_verifier_hash_input := decode_base64 verifier_hash_input;
         ke_verifier_hash_value := decode_base64 verifier_hash_value;
         ke_encrypted_key_value := decode_base64 encrypted_key_value |}.

(** Lines 405-450: the loop over the children of [keyEncryptor]. The state
    of the loop is the parser and what has been stored in
    [result.key_encryptor]: [None] while [any_password_key] is false (the
    fields are still unassigned), [Some] of the fields once it is true.
    Every turn that does not throw consumes an event, so one turn more than
    the events still pending is enough. *)
Fixpoint key_encryptor_loop (turns : nat) (p : parser)
    (stored : option key_encryptor_info)
    : M (parser * option key_encryptor_info) :=
  if negb (event_type_eqb (peek p) ev_end_element) then
    match turns with
    | O => out_of_fuel
    | S turns' =>
        p <- next_expect ev_start_element p ;;
        stored <-
          (if String.eqb (namespace_ p) xmlns_p
              && String.eqb (name p) "encryptedKey"
           then ke <- read_encrypted_key p ;; ret (Some ke)
           else throw (xlnt_unsupported
                         "other encryption key types not supported")) ;;
        p <- next_expect ev_end_element p ;;
        key_encryptor_loop turns' p stored
    end
  else ret (p, stored).

(** Lines 386-395: the [keyData] element. *)
Definition read_key_data (p : parser) : M (parser * key_data_info) :=
  p <- next_expect_named ev_start_element xmlns "keyData" p ;;
  salt_size <- attribute_size_t "saltSize" p ;;
  block_size <- attribute_size_t "blockSize" p ;;
  key_bits <- attribute_size_t "keyBits" p ;;
  hash_size <- attribute_size_t "hashSize" p ;;
  cipher_algorithm <- attribute "cipherAlgorithm" p ;;
  cipher_chaining <- attribute "cipherChaining" p ;;
  hash_algorithm_name <- attribute "hashAlgorithm" p ;;
  salt_value <- attribute "saltValue" p ;;
  p <- next_expect_named ev_end_element xmlns "keyData" p ;;
  ret (p, {| kd_salt_size := salt_size;
             kd_block_size := block_size;
             kd_key_bits := key_bits;
             kd_hash_size := hash_size;
             kd_cipher_algorithm := cipher_algorithm;
             kd_cipher_chaining := cipher_chaining;
             kd_hash_algorithm := hash_algorithm_name;
             kd_salt_value := decode_base64 salt_value |}).

(** Lines 397-400: the [dataIntegrity] element. *)
Definition read_data_integrity (p : parser) : M (parser * data_integrity_info) :=
  p <- next_expect_named ev_start_element xmlns "dataIntegrity" p ;;
  hmac_key <- attribute "encryptedHmacKey" p ;;
  hmac_value <- attribute "encryptedHmacValue" p ;;
  p <- next_expect_named ev_end_element xmlns "dataIntegrity" p ;;
  ret (p, {| di_hmac_key := decode_base64 hmac_key;
             di_hmac_value := decode_base64 hmac_value |}).

(** Lines 405-455: the children of [keyEncryptor] and the test of
    [any_password_key]. *)
Definition key_encryptor_children (p : parser)
    : M (parser * key_encryptor_info) :=
  '(p, stored) <- key_encryptor_loop (S (length (pending p))) p None ;;
  match stored with
  | None => throw (c_string "no password key in keyEncryptors")
  | Some ke => ret (p, ke)
  end.

(** Lines 402-458: [keyEncryptors] and its [keyEncryptor]. *)
Definition read_key_encryptor (p : parser) : M (parser * key_encryptor_info) :=
  p <- next_expect_named ev_start_element xmlns "keyEncryptors" p ;;
  p <- next_expect_named ev_start_element xmlns "keyEncryptor" p ;;
  _ <- attribute "uri" p ;;
  '(p, ke) <- key_encryptor_children p ;;
  p <- next_expect_named ev_end_element xmlns "keyEncryptor" p ;;
  p <- next_expect_named ev_end_element xmlns "keyEncryptors" p ;;
  ret (p, ke).

(** Lines 380-460: the XML header. *)
Definition read_agile_header (p : parser) : M agile_encryption_info :=
  p <- next_expect_named ev_start_element xmlns "encryption" p ;;
  '(p, kd) <- read_key_data p ;;
  '(p, di) <- read_data_integrity p ;;
  '(p, ke) <- read_key_encryptor p ;;
  p <- next_expect_named ev_end_element xmlns "encryption" p ;;
  ret {| key_data := kd; data_integrity := di; key_encryptor := ke |}.

(** Lines 486-502: the lambda [calculate_block]. Its [block_size] is the
    length 8 of the block keys. *)
Definition calculate_block (result : agile_encryption_info)
    (raw_key block encrypted : bytes) : M bytes :=
  let combined := raw_key ++ block in
  let key := hash (ke_hash (key_encryptor result)) combined in
  let key := resize (Z.to_nat (ke_key_bits (key_encryptor result) / 8)) key in
  call_aes_cbc_decrypt encrypted key (ke_salt_value (key_encryptor result)).

Definition input_block_key : bytes := [xfe; xa7; xd2; x76; x3b; x4b; x9e; x79].
Definition verifier_block_key : bytes := [xd7; xaa; x0f; x6d; x30; x61; x34; x4e].
Definition key_value_block_key : bytes := [x14; x6e; x0b; xe7; xab; xac; xd0; xd6].

(** [std::mismatch(a.begin(), a.end(), b.begin(), b.end())], as the pair of
    positions it stops at. *)
Fixpoint mismatch (a b : bytes) : nat * nat :=
  match a, b with
  | x :: a', y :: b' =>
      if Byte.eqb x y
      then let (i, j) := mismatch a' b' in (S i, S j)
      else (O, O)
  | _, _ => (O, O)
  end.

Definition position_pair_eqb (p q : nat * nat) : bool :=
  Nat.eqb (fst p) (fst q) && Nat.eqb (snd p) (snd q).

(** Lines 504-511: the two verifiers. *)
Definition agile_verifiers (result : agile_encryption_info) (h_n : bytes)
    : M (bytes * bytes) :=
  hash_input <- calculate_block result h_n input_block_key
                  (ke_verifier_hash_input (key_encryptor result)) ;;
  let calculated_verifier := hash (ke_hash (key_encryptor result)) hash_input in
  expected_verifier <- calculate_block result h_n verifier_block_key
                         (ke_verifier_hash_value (key_encryptor result)) ;;
  let expected_verifier := resize (length calculated_verifier) expected_verifier in
  ret (calculated_verifier, expected_verifier).

(** Lines 513-519: the comparison of the verifiers. *)
Definition check_verifiers (calculated_verifier expected_verifier : bytes)
    : M unit :=
  if negb (Nat.eqb (length calculated_verifier) (length expected_verifier))
     || negb (position_pair_eqb
                (mismatch calculated_verifier expected_verifier)
                (length calculated_verifier, length expected_verifier))
  then throw (xlnt_exception "bad password")
  else ret tt.

(** [++segment], where [segment] is the 32-bit view of the four bytes of
    [salt_with_block_key] at [salt_size]. *)
Definition increment_segment (salt_size : Z) (salt_with_block_key : bytes)
    : M bytes :=
  if (0 <=? salt_size) && (salt_size + 4 <=? size salt_with_block_key) then
    let segment := little_endian (slice salt_size (salt_size + 4) salt_with_block_key) in
    ret (firstn (Z.to_nat salt_size) salt_with_block_key
           ++ little_endian_u32 (uint32_t (segment + 1))
           ++ skipn (Z.to_nat (salt_size + 4)) salt_with_block_key)
  else out_of_bounds.

(** Lines 536-551: the loop over the segments. [i] advances by
    [ole_segment_length] on every turn, so the length of the package bounds
    the number of turns. [i] and [i + current_segment_length] are at most
    the size of the package, which the casts to [std::ptrdiff_t] preserve. *)
Fixpoint segment_loop (turns : nat) (result : agile_encryption_info)
    (key encrypted_package : bytes) (salt_size : Z) (i : Z)
    (salt_with_block_key decrypted_package : bytes) : M bytes :=
  if i <? size encrypted_package then
    match turns with
    | O => out_of_fuel
    | S turns' =>
        let iv := hash (ke_hash (key_encryptor result)) salt_with_block_key in
        let iv := resize 16 iv in
        let current_segment_length :=
          Z.min ole_segment_length (size encrypted_package - i) in
        encrypted_segment <-
          range i (i + current_segment_length) encrypted_package ;;
        decrypted_segment <- call_aes_cbc_decrypt encrypted_segment key iv ;;
        let decrypted_segment :=
          resize (Z.to_nat current_segment_length) decrypted_segment in
        let decrypted_package := decrypted_package ++ decrypted_segment in
        salt_with_block_key <- increment_segment salt_size salt_with_block_key ;;
        segment_loop turns' result key encrypted_package salt_size
          (i + ole_segment_length) salt_with_block_key decrypted_package
    end
  else ret decrypted_package.

(** Lines 525-555: the package. *)
Definition agile_package (result : agile_encryption_info)
    (key encrypted_package : bytes) : M bytes :=
  let salt_size := kd_salt_size (key_data result) in
  let salt_with_block_key := kd_salt_value (key_data result) in
  let salt_with_block_key :=
    resize (Z.to_nat (size_t (salt_size + 4))) salt_with_block_key in
  '(total_size, _) <- read_int 8 0 encrypted_package ;;
  decrypted_package <-
    segment_loop (length encrypted_package) result key encrypted_package
      salt_size 8 salt_with_block_key [] ;;
  ret (resize (Z.to_nat total_size) decrypted_package).

(** Lines 462-555: everything after the header has been read. *)
Definition agile_decrypt (fuel : nat) (result : agile_encryption_info)
    (password : list Z) (encrypted_package : bytes) : M bytes :=
  h_n <- generate_h_n fuel (ke_hash (key_encryptor result))
           (ke_spin_count (key_encryptor result))
           (ke_salt_value (key_encryptor result)) password ;;
  '(calculated_verifier, expected_verifier) <- agile_verifiers result h_n ;;
  check_verifiers calculated_verifier expected_verifier ;;;
  key <- calculate_block result h_n key_value_block_key
           (ke_encrypted_key_value (key_encryptor result)) ;;
  agile_package result key encrypted_package.

Definition decrypt_xlsx_agile_events (fuel : nat) (p : parser)
    (password : list Z) (encrypted_package : bytes) : M bytes :=
  result <- read_agile_header p ;;
  agile_decrypt fuel result password encrypted_package.

Definition decrypt_xlsx_agile (fuel : nat) (encryption_info : bytes)
    (password : list Z) (encrypted_package : bytes) : M bytes :=
  decrypt_xlsx_agile_events fuel (make_parser encryption_info) password
    encrypted_package.

(** ** The dispatcher: [decrypt_xlsx] *)

Definition decrypt_xlsx (fuel : nat) (data : bytes) (password : list Z)
    : M bytes :=
  match data with
  | [] => throw (xlnt_exception "empty file")
  | _ =>
      emit (storage_open data) ;;;
      match pole_open data with
      | None => throw (xlnt_exception "not an ole compound file")
      | Some st =>
          encrypted_package <- file st "EncryptedPackage" ;;
          encryption_info <- file st "EncryptionInfo" ;;
          let index := 0 in
          '(version_major, index) <- read_int 2 index encryption_info ;;
          '(version_minor, index) <- read_int 2 index encryption_info ;;
          '(encryption_flags, index) <- read_int 4 index encryption_info ;;
          (* get rid of header *)
          encryption_info <-
            range index (size encryption_info) encryption_info ;;
          (* version 4.4 is agile *)
          if (version_major =? 4) && (version_minor =? 4) then
            if negb (encryption_flags =? 0x40)
            then throw (xlnt_exception "bad header")
            else decrypt_xlsx_agile fuel encryption_info password
                   encrypted_package
          else
          (* not agile, only try to decrypt versions 3.2 and 4.2 *)
          if negb (version_minor =? 2)
             || (negb (version_major =? 2) && negb (version_major =? 3)
                 && negb (version_major =? 4))
          then throw (xlnt_exception "unsupported encryption version")
          else
          if negb (Z.land encryption_flags 3 =? 0)
          then throw (xlnt_exception "bad header")
          else
          if (Z.land encryption_flags 4 =? 0)
             || negb (Z.land encryption_flags 16 =? 0)
          then throw (xlnt_exception "extensible encryption is not supported")
          else
          if Z.land encryption_flags 32 =? 0
          then throw (xlnt_exception "not an OOXML document")
          else decrypt_xlsx_standard fuel encryption_info password
                 encrypted_package
      end
  end.

(** [utf8_to_utf16(utf8_string)] (lines 637-650): the conversion of the
    standard library throws [std::range_error] on a string that is not
    UTF-8. *)
Definition call_utf8_to_utf16 (utf8_string : string) : M (list Z) :=
  match utf8_to_utf16 utf8_string with
  | Some converted => ret converted
  | None => throw (std_exception "std::range_error")
  end.

(** [xlnt::detail::decrypt_xlsx]: the entry point, with a UTF-8 password.
    The password is converted first, as the argument of the call. *)
Definition detail_decrypt_xlsx (fuel : nat) (data : bytes) (password : string)
    : M bytes :=
  password <- call_utf8_to_utf16 password ;;
  decrypt_xlsx fuel data password.

End Decoders.

(** ** A model of the collaborators, and sample inputs

    The theorems below hold for every instance of [Primitives]. To run the
    decoders on concrete inputs an instance is needed; this one has digests
    of the right length and leaves ciphertexts unchanged. Its compound
    document is a one-byte length followed by the [EncryptionInfo] stream,
    the rest being the [EncryptedPackage] stream. *)

Fixpoint decimal (s : string) (acc : Z) : option Z :=
  match s with
  | EmptyString => Some acc
  | String c s' =>
      let d := Z.of_nat (nat_of_ascii c) - 48 in
      if (0 <=? d) && (d <=? 9) then decimal s' (10 * acc + d) else None
  end.

Definition sample_size_t_of_string (s : string) : option Z :=
  match s with
  | EmptyString => None
  | _ =>
      match decimal s 0 with
      | Some v => if (0 <=? v) && (v <? 2 ^ 64) then Some v else None
      | None => None
      end
  end.

Definition sample_stream (st : bytes) (name : string) : option bytes :=
  match st with
  | [] => None
  | n :: rest =>
      if String.eqb name "EncryptionInfo"
      then Some (firstn (Z.to_nat (byte_to_Z n)) rest)
      else if String.eqb name "EncryptedPackage"
      then Some (skipn (Z.to_nat (byte_to_Z n)) rest)
      else None
  end.

(** A conversion that knows the ASCII part of UTF-8 only. *)
Definition sample_utf8_to_utf16 (s : string) : option (list Z) :=
  let code_units := map byte_to_Z (list_byte_of_string s) in
  if forallb (fun c => c <? 128) code_units then Some code_units else None.

Definition sample_primitives : Primitives.
Proof.
  refine {|
    sha1 := resize 20;
    sha512 := resize 64;
    aes_ecb_decrypt := fun input _ => input;
    aes_cbc_decrypt := fun input _ _ => input;
    decode_base64 := list_byte_of_string;
    storage := bytes;
    pole_open := fun data => Some data;
    pole_stream := sample_stream;
    xml_events := fun _ => [];
    size_t_of_string := sample_size_t_of_string;
    xmlns := "http://schemas.microsoft.com/office/2006/encryption";
    xmlns_p := "http://schemas.microsoft.com/office/2006/keyEncryptor/password";
    utf8_to_utf16 := sample_utf8_to_utf16;
    sha1_length := _;
    sha512_length := _
  |}.
  - intros input. unfold resize.
    rewrite length_app, repeat_length, length_firstn. lia.
  - intros input. unfold resize.
    rewrite length_app, repeat_length, length_firstn. lia.
Defined.

(** The UTF-16 bytes of an ASCII string. *)
Definition utf16le (s : string) : bytes :=
  flat_map (fun b => [b; x00]) (list_byte_of_string s).

(** A standard [EncryptionInfo] stream (after its version and flag words)
    with the given cipher id, hash id and key size, for the provider
    [csp_enhanced]. *)
Definition make_standard_header (alg_id alg_id_hash key_bits : Z)
    (salt verifier_hash_input verifier_hash_value : bytes) : bytes :=
  let csp := utf16le csp_enhanced ++ [x00; x00] in
  little_endian_u32 (32 + size csp)
    ++ little_endian_u32 0x24 ++ little_endian_u32 0
    ++ little_endian_u32 alg_id ++ little_endian_u32 alg_id_hash
    ++ little_endian_u32 key_bits ++ little_endian_u32 0x18
    ++ little_endian_u32 0 ++ little_endian_u32 0
    ++ csp
    ++ little_endian_u32 (size salt) ++ salt
    ++ verifier_hash_input
    ++ little_endian_u32 (size verifier_hash_value) ++ verifier_hash_value.

Definition sample_salt : bytes := repeat x11 16.
Definition sample_verifier : bytes := repeat x22 16.
Definition sample_verifier_hash : bytes := repeat x33 32.

(** AES-128 ([0x660E]) with the hash id of SHA-1 ([0x8004]). *)
Definition sample_standard_header : bytes :=
  make_standard_header 0x660E 0x8004 128 sample_salt sample_verifier
    sample_verifier_hash.

(** AES-128 with the hash id of SHA-256 ([0x800C]), and with the hash id 0. *)
Definition sample_header_sha256 : bytes :=
  make_standard_header 0x660E 0x800C 128 sample_salt sample_verifier
    sample_verifier_hash.

Definition sample_header_hash_zero : bytes :=
  make_standard_header 0x660E 0 128 sample_salt sample_verifier
    sample_verifier_hash.

(** A package whose prefix announces 17 bytes and whose ciphertext is one
    AES block of 16 bytes. *)
Definition one_block_package : bytes :=
  to_little_endian 8 17 ++ repeat x41 16.

(** A package of two segments: 4097 bytes of ciphertext, all announced. *)
Definition two_segment_package : bytes :=
  to_little_endian 8 4097 ++ repeat x41 4097.

(** An agile header as the events of its XML document. *)
Definition sample_key_data_attributes : list (string * string) :=
  [("saltSize", "2"); ("blockSize", "16"); ("keyBits", "128");
   ("hashSize", "64"); ("cipherAlgorithm", "AES");
   ("cipherChaining", "ChainingModeCBC"); ("hashAlgorithm", "SHA512");
   ("saltValue", "ab")]%string.

Definition sample_encrypted_key_attributes (verifier_hash_value : string)
    : list (string * string) :=
  [("spinCount", "3"); ("saltSize", "2"); ("blockSize", "16");
   ("keyBits", "128"); ("hashSize", "64"); ("cipherAlgorithm", "AES");
   ("cipherChaining", "ChainingModeCBC"); ("hashAlgorithm", "SHA512");
   ("saltValue", "cd"); ("encryptedVerifierHashInput", "in");
   ("encryptedVerifierHashValue", verifier_hash_value);
   ("encryptedKeyValue", "key")]%string.

Definition sample_password_child (verifier_hash_value : string)
    : list xml_event :=
  [start_element (@xmlns_p sample_primitives) "encryptedKey"
     (sample_encrypted_key_attributes verifier_hash_value);
   end_element (@xmlns_p sample_primitives) "encryptedKey"].

Definition sample_certificate_child : list xml_event :=
  [start_element
     "http://schemas.microsoft.com/office/2006/keyEncryptor/certificate"
     "encryptedKey" [];
   end_element
     "http://schemas.microsoft.com/office/2006/keyEncryptor/certificate"
     "encryptedKey"].

Definition sample_agile_events (children : list xml_event) : list xml_event :=
  let ns := @xmlns sample_primitives in
  [start_element ns "encryption" [];
   start_element ns "keyData" sample_key_data_attributes;
   end_element ns "keyData";
   start_element ns "dataIntegrity"
     [("encryptedHmacKey", "k"); ("encryptedHmacValue", "v")]%string;
   end_element ns "dataIntegrity";
   start_element ns "keyEncryptors" [];
   start_element ns "keyEncryptor" [("uri", "password")]%string]
  ++ children
  ++ [end_element ns "keyEncryptor"; end_element ns "keyEncryptors";
      end_element ns "encryption"].

(** The record the sample header decodes to, with the given encrypted
    verifier hash value. *)
Definition sample_agile_info (verifier_hash_value : string)
    : agile_encryption_info :=
  {| key_data :=
       {| kd_salt_size := 2; kd_block_size := 16; kd_key_bits := 128;
          kd_hash_size := 64; kd_cipher_algorithm := "AES";
          kd_cipher_chaining := "ChainingModeCBC";
          kd_hash_algorithm := "SHA512";
          kd_salt_value := list_byte_of_string "ab" |};
     data_integrity :=
       {| di_hmac_key := list_byte_of_string "k";
          di_hmac_value := list_byte_of_string "v" |};
     key_encryptor :=
       {| ke_spin_count := 3; ke_salt_size := 2; ke_block_size := 16;
          ke_key_bits := 128; ke_hash_size := 64;
          ke_cipher_algorithm := "AES";
          ke_cipher_chaining := "ChainingModeCBC";
          ke_hash := hash_sha512;
          ke_salt_value := list_byte_of_string "cd";
          ke_verifier_hash_input := list_byte_of_string "in";
          ke_verifier_hash_value := list_byte_of_string verifier_hash_value;
          ke_encrypted_key_value := list_byte_of_string "key" |} |}.

(** The record [sample_standard_header] decodes to. *)
Definition sample_standard_info : standard_encryption_info :=
  {| std_spin_count := 50000;
     std_key_bits := 128;
     std_key_bytes := 16;
     std_cipher := cipher_aes;
     std_hash := hash_sha1;
     std_salt := sample_salt;
     std_verifier_hash_input := sample_verifier;
     std_verifier_hash_value := sample_verifier_hash |}.

(** A compound document of the sample instance: version 4.2 with the flags
    [fCryptoAPI] and [fAES], the sample standard header, and the one-block
    package. *)
Definition sample_info_stream : bytes :=
  [x04; x00; x02; x00; x24; x00; x00; x00] ++ sample_standard_header.

Definition sample_container : bytes :=
  byte_of_Z (size sample_info_stream) :: sample_info_stream ++ one_block_package.

(** A package whose prefix announces the 16 bytes of its ciphertext. *)
Definition exact_block_package : bytes :=
  to_little_endian 8 16 ++ repeat x41 16.

(** Two info streams that the dispatcher rejects: version 4.2 with the
    reserved flag bit 0 set (flag word [0x25]), and version 4.4 with a flag
    word other than [0x40]. The package streams are empty. *)
Definition reserved_bit_container : bytes :=
  [x08; x04; x00; x02; x00; x25; x00; x00; x00].

Definition agile_flags_container : bytes :=
  [x08; x04; x00; x04; x00; x41; x00; x00; x00].

(** ** The statements of the specification

    Definitions that follow the words of the specification, to be compared
    with the decoders above. *)

Section Specification.

Context {P : Primitives}.

Definition digest_length (algorithm : hash_algorithm) : nat :=
  match algorithm with
  | hash_sha1 => 20
  | hash_sha512 => 64
  end.

(** 4.1: [H0 = Hash(salt ++ password_utf16le_bytes)]. *)
Definition H_0 (algorithm : hash_algorithm) (salt : bytes) (password : list Z)
    : bytes :=
  hash algorithm (salt ++ password_bytes password).

(** 4.1: [Hn = Hash(little_endian_u32(iterator) ++ Hn_minus_1)] for
    [iterator] from [0] to [n - 1], seeded with [H0]. *)
Fixpoint H_n (algorithm : hash_algorithm) (h0 : bytes) (n : nat) : bytes :=
  match n with
  | O => h0
  | S k => hash algorithm (little_endian_u32 (Z.of_nat k) ++ H_n algorithm h0 k)
  end.

(** 3 and 4.5: the first 8 bytes of the package are the little-endian
    decrypted length; the ciphertext is what follows. *)
Definition length_prefix (encrypted_package : bytes) : Z :=
  little_endian (firstn 8 encrypted_package).

Definition payload (encrypted_package : bytes) : bytes :=
  skipn 8 encrypted_package.

(** 4.1, step 3, for the standard scheme: [H_final], the two expansion
    blocks [X1] and [X2], and the first [key_bits/8] bytes of [X1 ++ X2]. *)
Definition xor_padded (c : byte) (h : bytes) : bytes :=
  map (xor_byte c) h ++ repeat c (64 - length h).

Definition standard_derived_key (info : standard_encryption_info)
    (password : list Z) : bytes :=
  let H := hash (std_hash info) in
  let h_n := H_n (std_hash info) (H_0 (std_hash info) (std_salt info) password)
               (Z.to_nat (std_spin_count info)) in
  let h_final := H (h_n ++ little_endian_u32 0) in
  let X1 := H (xor_padded x36 h_final) in
  let X2 := H (xor_padded x5c h_final) in
  firstn (Z.to_nat (std_key_bytes info)) (X1 ++ X2).

(** 4.1, step 3, for the agile scheme: [Hash(Hn ++ block_key)] resized to
    [key_bits/8] bytes. *)
Definition block_key_for (result : agile_encryption_info)
    (h_n block_key : bytes) : bytes :=
  resize (Z.to_nat (ke_key_bits (key_encryptor result) / 8))
    (hash (ke_hash (key_encryptor result)) (h_n ++ block_key)).

(** 4.4, steps 2 and 3: the two verifiers. *)
Definition calculated_verifier (result : agile_encryption_info) (h_n : bytes)
    : bytes :=
  hash (ke_hash (key_encryptor result))
    (aes_cbc_decrypt (ke_verifier_hash_input (key_encryptor result))
       (block_key_for result h_n input_block_key)
       (ke_salt_value (key_encryptor result))).

Definition expected_verifier (result : agile_encryption_info) (h_n : bytes)
    : bytes :=
  resize (length (calculated_verifier result h_n))
    (aes_cbc_decrypt (ke_verifier_hash_value (key_encryptor result))
       (block_key_for result h_n verifier_block_key)
       (ke_salt_value (key_encryptor result))).

(** The two AES calls of the verification. *)
Definition verifier_calls (result : agile_encryption_info) (h_n : bytes)
    : trace :=
  [ aes_cbc (ke_verifier_hash_input (key_encryptor result))
      (block_key_for result h_n input_block_key)
      (ke_salt_value (key_encryptor result));
    aes_cbc (ke_verifier_hash_value (key_encryptor result))
      (block_key_for result h_n verifier_block_key)
      (ke_salt_value (key_encryptor result)) ].

(** 4.4: the package key, from the third block key. *)
Definition package_key (result : agile_encryption_info) (h_n : bytes) : bytes :=
  aes_cbc_decrypt (ke_encrypted_key_value (key_encryptor result))
    (block_key_for result h_n key_value_block_key)
    (ke_salt_value (key_encryptor result)).

Definition package_key_call (result : agile_encryption_info) (h_n : bytes)
    : call :=
  aes_cbc (ke_encrypted_key_value (key_encryptor result))
    (block_key_for result h_n key_value_block_key)
    (ke_salt_value (key_encryptor result)).

(** 4.5 and 8: a ciphertext of [n] bytes is cut into [ceil(n / 4096)]
    segments of 4096 bytes, the last of which may be shorter. *)
Definition segment_count (n : nat) : nat := (n + 4095) / 4096.

Definition segment_ciphertext (encrypted_package : bytes) (i : nat) : bytes :=
  firstn 4096 (skipn (4096 * i) (payload encrypted_package)).

(** 4.5: the IV of segment [i] is
    [Hash(key-data-salt ++ little_endian_u32(i))[:16]]. *)
Definition segment_iv (result : agile_encryption_info) (i : nat) : bytes :=
  firstn 16
    (hash (ke_hash (key_encryptor result))
       (kd_salt_value (key_data result) ++ little_endian_u32 (Z.of_nat i))).

(** 4.5: the segment is AES-CBC-decrypted with the package key and this IV
    and truncated to the segment's length. *)
Definition segment_plaintext (result : agile_encryption_info) (key : bytes)
    (encrypted_package : bytes) (i : nat) : bytes :=
  let c := segment_ciphertext encrypted_package i in
  firstn (length c) (aes_cbc_decrypt c key (segment_iv result i)).

Definition segment_call (result : agile_encryption_info) (key : bytes)
    (encrypted_package : bytes) (i : nat) : call :=
  aes_cbc (segment_ciphertext encrypted_package i) key (segment_iv result i).

(** 4.5: the segments in order, truncated to the length prefix. *)
Definition agile_plaintext (result : agile_encryption_info) (key : bytes)
    (encrypted_package : bytes) : bytes :=
  firstn (Z.to_nat (length_prefix encrypted_package))
    (concat (map (segment_plaintext result key encrypted_package)
               (seq 0 (segment_count (length (payload encrypted_package)))))).

(** The segments as the loop computes them from its buffer, which is
    [salt'] (the first [salt_size] bytes) followed by a 32-bit counter that
    starts at [c0] and is incremented after every segment. *)
Definition loop_iv (algorithm : hash_algorithm) (salt' : bytes) (c0 : Z)
    (i : nat) : bytes :=
  resize 16 (hash algorithm (salt' ++ little_endian_u32 (c0 + Z.of_nat i))).

Definition loop_segment (algorithm : hash_algorithm)
    (key encrypted_package salt' : bytes) (c0 : Z) (i : nat) : bytes :=
  let c := segment_ciphertext encrypted_package i in
  resize (length c) (aes_cbc_decrypt c key (loop_iv algorithm salt' c0 i)).

Definition loop_call (algorithm : hash_algorithm)
    (key encrypted_package salt' : bytes) (c0 : Z) (i : nat) : call :=
  aes_cbc (segment_ciphertext encrypted_package i) key
    (loop_iv algorithm salt' c0 i).

(** 4.3: the events of the children of [keyEncryptor] when all of them are
    password encryptors, each given by its attributes and the name of the
    event that ends it. *)
Definition child_events (children : list (list (string * string) * (string * string)))
    : list xml_event :=
  flat_map
    (fun child =>
       [start_element xmlns_p "encryptedKey" (fst child);
        end_element (fst (snd child)) (snd (snd child))])
    children.

(** The key encryptor a password child describes. *)
Definition encrypted_key_of (attributes : list (string * string))
    : M key_encryptor_info :=
  read_encrypted_key
    {| pending := [];
       current := Some (start_element xmlns_p "encryptedKey" attributes) |}.

Definition readable_child (child : list (string * string) * (string * string))
    : Prop :=
  exists ke, outcome_of (encrypted_key_of (fst child)) = Ok ke.

(** A header that differs in the [hashAlgorithm] of [keyData] only: as a
    decoded record, and as the attributes of the [keyData] element. *)
Definition key_data_with_hash (hash_algorithm_name : string)
    (kd : key_data_info) : key_data_info :=
  {| kd_salt_size := kd_salt_size kd;
     kd_block_size := kd_block_size kd;
     kd_key_bits := kd_key_bits kd;
     kd_hash_size := kd_hash_size kd;
     kd_cipher_algorithm := kd_cipher_algorithm kd;
     kd_cipher_chaining := kd_cipher_chaining kd;
     kd_hash_algorithm := hash_algorithm_name;
     kd_salt_value := kd_salt_value kd |}.

Definition with_key_data_hash (hash_algorithm_name : string)
    (result : agile_encryption_info) : agile_encryption_info :=
  {| key_data := key_data_with_hash hash_algorithm_name (key_data result);
     data_integrity := data_integrity result;
     key_encryptor := key_encryptor result |}.

Definition set_attribute (key value : string)
    (attributes : list (string * string)) : list (string * string) :=
  map (fun kv => if String.eqb (fst kv) key then (fst kv, value) else kv)
    attributes.

(** 4.2: the layout of the standard header. The buffer holds the nine
    fixed fields (36 bytes), a provider name of at least one UTF-16 code
    unit that ends where the header length says, the salt length and the
    salt, the 16-byte verifier, the verifier hash length and the verifier
    hash. *)
Definition standard_header_fits (encryption_info : bytes) : Prop :=
  let header_length := little_endian (slice 0 4 encryption_info) in
  let salt_at := header_length + 8 in
  let salt_size :=
    little_endian (slice (header_length + 4) salt_at encryption_info) in
  let hash_at := salt_at + salt_size + 20 in
  let verifier_hash_size :=
    little_endian (slice (salt_at + salt_size + 16) hash_at encryption_info) in
  36 <= size encryption_info
  /\ 34 <= header_length
  /\ salt_at <= size encryption_info
  /\ hash_at <= size encryption_info
  /\ hash_at + verifier_hash_size <= size encryption_info.

(** 4.2: a standard header that holds what its fields announce, with a
    provider name of a whole number of UTF-16 code units (the header length
    counts the 32 bytes of eight fixed fields and the name). *)
Definition standard_header_well_formed (encryption_info : bytes) : Prop :=
  standard_header_fits encryption_info
  /\ Z.even (little_endian (slice 0 4 encryption_info)) = true.

(** 4.6: an absent stream is treated as empty; the info stream starts with
    a 2-byte major version, a 2-byte minor version and a 4-byte flag word. *)
Definition stream_or_empty (st : storage) (name : string) : bytes :=
  match pole_stream st name with
  | Some content => content
  | None => []
  end.

Definition version_major (encryption_info : bytes) : Z :=
  little_endian (firstn 2 encryption_info).

Definition version_minor (encryption_info : bytes) : Z :=
  little_endian (firstn 2 (skipn 2 encryption_info)).

Definition encryption_flags (encryption_info : bytes) : Z :=
  little_endian (firstn 4 (skipn 4 encryption_info)).

(** The calls to the container reader that precede the routing. *)
Definition container_calls (data : bytes) : trace :=
  [storage_open data; stream_read "EncryptedPackage";
   stream_read "EncryptionInfo"].

(** 4.6: the routing rule on the version and flag words. *)
Inductive route : Type :=
| route_agile
| route_standard
| route_reject (what : string).

Definition routing (version_major version_minor encryption_flags : Z) : route :=
  if (version_major =? 4) && (version_minor =? 4) then
    if encryption_flags =? 0x40 then route_agile
    else route_reject "bad header"
  else if negb ((version_minor =? 2)
                && ((version_major =? 2) || (version_major =? 3)
                    || (version_major =? 4)))
  then route_reject "unsupported encryption version"
  else if Z.testbit encryption_flags 0 || Z.testbit encryption_flags 1
  then route_reject "bad header"
  else if negb (Z.testbit encryption_flags 2) || Z.testbit encryption_flags 4
  then route_reject "extensible encryption is not supported"
  else if negb (Z.testbit encryption_flags 5)
  then route_reject "not an OOXML document"
  else route_standard.

(** 7: the kinds of error that the dispatcher raises, and the kind that each
    of its messages stands for: "bad header" is the error of a flag word
    other than [0x40] on the agile path, the corrupt-header error. *)
Inductive error_kind : Type :=
| empty_input
| malformed_container
| corrupt_header
| unsupported_configuration
| not_this_format
| other_error.

Definition error_kind_of (e : exn) : error_kind :=
  match e with
  | xlnt_exception what =>
      if String.eqb what "empty file" then empty_input
      else if String.eqb what "not an ole compound file"
      then malformed_container
      else if String.eqb what "bad header" then corrupt_header
      else if String.eqb what "unsupported encryption version"
              || String.eqb what "extensible encryption is not supported"
      then unsupported_configuration
      else if String.eqb what "not an OOXML document" then not_this_format
      else other_error
  | _ => other_error
  end.

End Specification.

(** ** Statements about the code beyond the specification *)

(** A computation whose exceptions, if any, are among [allowed]. *)
Definition throws_only {A} (allowed : exn -> Prop) (m : M A) : Prop :=
  forall e, outcome_of m = Throw e -> allowed e.

(** The messages of the exceptions of [decrypt_xlsx_standard]. *)
Definition standard_header_messages : list string :=
  ["invalid cipher algorithm"; "invalid hash algorithm";
   "invalid provider type"; "invalid header";
   "invalid cryptographic provider"]%string.

Definition standard_exception (e : exn) : Prop :=
  exists what, e = xlnt_exception what /\ In what standard_header_messages.

(** The exceptions of the XML header reader of [decrypt_xlsx_agile]: those
    of the pull parser, the two [xlnt::unsupported] and the C string. *)
Definition agile_header_exception (e : exn) : Prop :=
  (exists what, e = xml_parsing what)
  \/ e = xlnt_unsupported "hash"
  \/ e = xlnt_unsupported "other encryption key types not supported"
  \/ e = c_string "no password key in keyEncryptors".

(** A computation of the header reader: it calls no collaborator, reads
    nothing out of bounds and throws only the exceptions above. *)
Definition header_outcome {A} (m : M A) : Prop :=
  trace_of m = [] /\ outcome_of m <> OutOfBounds
  /\ throws_only agile_header_exception m.

Definition agile_exception (e : exn) : Prop :=
  agile_header_exception e \/ e = xlnt_exception "bad password".

(** The messages of the exceptions the dispatcher throws itself. *)
Definition dispatcher_messages : list string :=
  ["empty file"; "not an ole compound file"; "bad header";
   "unsupported encryption version";
   "extensible encryption is not supported"; "not an OOXML document"]%string.

Definition decrypt_exception (e : exn) : Prop :=
  (exists what, e = xlnt_exception what /\ In what dispatcher_messages)
  \/ standard_exception e \/ agile_exception e.

(** The key encryptor that the loop over the children of [keyEncryptor] has
    stored after the given password children: that of the last child. *)
Definition stored_after {P : Primitives}
    (children : list (list (string * string) * (string * string)))
    (stored : option key_encryptor_info) : option key_encryptor_info :=
  fold_left
    (fun stored child =>
       match outcome_of (encrypted_key_of (fst child)) with
       | Ok ke => Some ke
       | _ => stored
       end)
    children stored.

(** A standard header that announces a key of 512 bits. *)
Definition sample_header_512 : bytes :=
  make_standard_header 0x660E 0x8004 512 sample_salt sample_verifier
    sample_verifier_hash.

Definition sample_info_512 : standard_encryption_info :=
  {| std_spin_count := 50000;
     std_key_bits := 512;
     std_key_bytes := 64;
     std_cipher := cipher_aes;
     std_hash := hash_sha1;
     std_salt := sample_salt;
     std_verifier_hash_input := sample_verifier;
     std_verifier_hash_value := sample_verifier_hash |}.

(** An agile header whose [keyData] announces a salt of 2 bytes and holds
    one of 8. *)
Definition sample_long_salt_info : agile_encryption_info :=
  {| key_data :=
       {| kd_salt_size := 2; kd_block_size := 16; kd_key_bits := 128;
          kd_hash_size := 64; kd_cipher_algorithm := "AES";
          kd_cipher_chaining := "ChainingModeCBC";
          kd_hash_algorithm := "SHA512";
          kd_salt_value := list_byte_of_string "abcdefgh" |};
     data_integrity := data_integrity (sample_agile_info "in");
     key_encryptor := key_encryptor (sample_agile_info "in") |}.

(** The sample agile header with other values in the fields the decryption
    does not read: the cipher, chaining and hash names, the block and hash
    sizes, the key size of [keyData], the salt size of the key encryptor,
    and the HMAC key and value of [dataIntegrity]. *)
Definition sample_unread_info : agile_encryption_info :=
  {| key_data :=
       {| kd_salt_size := 2; kd_block_size := 8; kd_key_bits := 56;
          kd_hash_size := 16; kd_cipher_algorithm := "DES";
          kd_cipher_chaining := "ChainingModeCFB";
          kd_hash_algorithm := "MD5";
          kd_salt_value := list_byte_of_string "ab" |};
     data_integrity := {| di_hmac_key := []; di_hmac_value := [] |};
     key_encryptor :=
       {| ke_spin_count := 3; ke_salt_size := 99; ke_block_size := 8;
          ke_key_bits := 128; ke_hash_size := 16;
          ke_cipher_algorithm := "RC4";
          ke_cipher_chaining := "ChainingModeCFB";
          ke_hash := hash_sha512;
          ke_salt_value := list_byte_of_string "cd";
          ke_verifier_hash_input := list_byte_of_string "in";
          ke_verifier_hash_value := list_byte_of_string "in";
          ke_encrypted_key_value := list_byte_of_string "key" |} |}.

(** The sample agile header with another spin count. *)
Definition sample_spin_info (spin_count : Z) : agile_encryption_info :=
  {| key_data := key_data (sample_agile_info "in");
     data_integrity := data_integrity (sample_agile_info "in");
     key_encryptor :=
       {| ke_spin_count := spin_count; ke_salt_size := 2; ke_block_size := 16;
          ke_key_bits := 128; ke_hash_size := 64;
          ke_cipher_algorithm := "AES";
          ke_cipher_chaining := "ChainingModeCBC";
          ke_hash := hash_sha512;
          ke_salt_value := list_byte_of_string "cd";
          ke_verifier_hash_input := list_byte_of_string "in";
          ke_verifier_hash_value := list_byte_of_string "in";
          ke_encrypted_key_value := list_byte_of_string "key" |} |}.

(** * Properties *)

(** ** Bytes, integers and the monad *)

Lemma byte_to_Z_range (b : byte) : 0 <= byte_to_Z b < 256.
Proof.
  unfold byte_to_Z. pose proof (Byte.to_N_bounded b). lia.
Qed.

Lemma byte_to_of_Z (z : Z) : byte_to_Z (byte_of_Z z) = z mod 256.
Proof.
  unfold byte_of_Z, byte_to_Z.
  pose proof (Z.mod_pos_bound z 256 ltac:(lia)) as Hr.
  destruct (Byte.of_N (Z.to_N (z mod 256))) as [b|] eqn:E.
  - apply Byte.to_of_N in E. rewrite E. lia.
  - apply Byte.of_N_None_iff in E. lia.
Qed.

Lemma byte_of_to_Z (b : byte) : byte_of_Z (byte_to_Z b) = b.
Proof.
  unfold byte_of_Z, byte_to_Z.
  pose proof (Byte.to_N_bounded b).
  rewrite Z.mod_small by lia. rewrite N2Z.id, Byte.of_to_N. reflexivity.
Qed.

Lemma to_little_endian_length (n : nat) (z : Z) :
  length (to_little_endian n z) = n.
Proof.
  revert z. induction n as [|n IH]; intros z; simpl; [reflexivity|].
  now rewrite IH.
Qed.

Lemma little_endian_range (l : bytes) :
  0 <= little_endian l < 256 ^ Z.of_nat (length l).
Proof.
  induction l as [|b l IH]; simpl length; [simpl; lia|].
  rewrite Nat2Z.inj_succ, Z.pow_succ_r by lia.
  cbn [little_endian]. pose proof (byte_to_Z_range b).
  set (X := 256 ^ Z.of_nat (length l)) in *. lia.
Qed.

Lemma little_endian_to (n : nat) (z : Z) :
  little_endian (to_little_endian n z) = z mod 256 ^ Z.of_nat n.
Proof.
  revert z. induction n as [|n IH]; intros z.
  - simpl. now rewrite Z.mod_1_r.
  - cbn [to_little_endian little_endian].
    rewrite IH, byte_to_of_Z, Nat2Z.inj_succ, Z.pow_succ_r by lia.
    rewrite Z.rem_mul_r by lia. reflexivity.
Qed.

Lemma to_little_endian_mod (n : nat) (z : Z) :
  to_little_endian n (z mod 256 ^ Z.of_nat n) = to_little_endian n z.
Proof.
  revert z. induction n as [|n IH]; intros z; [reflexivity|].
  cbn [to_little_endian].
  rewrite Nat2Z.inj_succ, Z.pow_succ_r by lia.
  f_equal.
  - unfold byte_of_Z. rewrite Z.rem_mul_r by lia.
    replace (z mod 256 + 256 * ((z / 256) mod 256 ^ Z.of_nat n))
      with (z mod 256 + ((z / 256) mod 256 ^ Z.of_nat n) * 256) by lia.
    rewrite Z.mod_add by lia. now rewrite Z.mod_mod by lia.
  - rewrite Z.rem_mul_r by lia.
    replace (z mod 256 + 256 * ((z / 256) mod 256 ^ Z.of_nat n))
      with (z mod 256 + ((z / 256) mod 256 ^ Z.of_nat n) * 256) by lia.
    rewrite Z.div_add by lia.
    rewrite (Z.div_small (z mod 256)) by (apply Z.mod_pos_bound; lia).
    rewrite Z.add_0_l. apply IH.
Qed.

Lemma little_endian_u32_mod (z : Z) :
  little_endian_u32 (uint32_t z) = little_endian_u32 z.
Proof.
  unfold little_endian_u32, uint32_t.
  change (2 ^ 32) with (256 ^ Z.of_nat 4). apply to_little_endian_mod.
Qed.

Lemma little_endian_u32_value (z : Z) :
  little_endian (little_endian_u32 z) = uint32_t z.
Proof.
  unfold little_endian_u32, uint32_t. now rewrite little_endian_to.
Qed.

Lemma resize_length (n : nat) (l : bytes) : length (resize n l) = n.
Proof.
  unfold resize. rewrite length_app, repeat_length, length_firstn. lia.
Qed.

Lemma resize_firstn (n : nat) (l : bytes) :
  (n <= length l)%nat -> resize n l = firstn n l.
Proof.
  intros H. unfold resize.
  replace (n - length l)%nat with O by lia. apply app_nil_r.
Qed.

Lemma resize_pad (n : nat) (l : bytes) :
  (length l <= n)%nat -> resize n l = l ++ repeat x00 (n - length l).
Proof.
  intros H. unfold resize. now rewrite firstn_all2 by lia.
Qed.

Lemma bind_ret {A B} (a : A) (f : A -> M B) : bind (ret a) f = f a.
Proof.
  unfold bind, ret. destruct (f a) as [t r]. reflexivity.
Qed.

Lemma bind_nil_ok {A B} (a : A) (f : A -> M B) : bind ([], Ok a) f = f a.
Proof. apply bind_ret. Qed.

(** ** Key generation *)

Section KeyGeneration.

Context {P : Primitives}.

Lemma hash_length (algorithm : hash_algorithm) (input : bytes) :
  length (hash algorithm input) = digest_length algorithm.
Proof.
  destruct algorithm; simpl; [apply sha1_length | apply sha512_length].
Qed.

Lemma H_n_length (algorithm : hash_algorithm) (h0 : bytes) (n : nat) :
  length h0 = digest_length algorithm ->
  length (H_n algorithm h0 n) = digest_length algorithm.
Proof.
  intros H. destruct n; simpl; [exact H | apply hash_length].
Qed.

Lemma spin_loop_eq (fuel : nat) (algorithm : hash_algorithm) (spin_count : Z)
    (buffer h_n : bytes) :
  spin_loop fuel algorithm spin_count buffer h_n =
  if get_iterator buffer <? spin_count then
    match fuel with
    | O => out_of_fuel
    | S fuel' =>
        let h := hash algorithm buffer in
        bind (copy_at 4 h buffer) (fun b =>
          spin_loop fuel' algorithm spin_count
            (set_iterator (uint32_t (get_iterator b + 1)) b) h)
    end
  else ret h_n.
Proof. destruct fuel; reflexivity. Qed.

(** The buffer of the loop is always the counter followed by a digest. *)
Lemma get_iterator_counter (k : Z) (h : bytes) :
  get_iterator (little_endian_u32 k ++ h) = uint32_t k.
Proof.
  unfold get_iterator.
  change (firstn 4 (little_endian_u32 k ++ h)) with (little_endian_u32 k).
  apply little_endian_u32_value.
Qed.

Lemma set_iterator_counter (v k : Z) (h : bytes) :
  set_iterator v (little_endian_u32 k ++ h) = little_endian_u32 v ++ h.
Proof.
  reflexivity.
Qed.

Lemma copy_at_digest (k : Z) (h h' : bytes) :
  length h' = length h ->
  copy_at 4 h' (little_endian_u32 k ++ h) = ret (little_endian_u32 k ++ h').
Proof.
  intros Hlen. unfold copy_at.
  assert (Hk : length (little_endian_u32 k) = 4%nat)
    by (unfold little_endian_u32; apply to_little_endian_length).
  rewrite length_app, Hk, Hlen, Nat.leb_refl.
  change (firstn 4 (little_endian_u32 k ++ h)) with (little_endian_u32 k).
  rewrite skipn_all2 by (rewrite length_app; lia).
  now rewrite app_nil_r.
Qed.

(** One turn of the loop. *)
Lemma spin_loop_step (fuel : nat) (algorithm : hash_algorithm)
    (spin_count k : Z) (h h_n : bytes) :
  0 <= k < spin_count -> k < 2 ^ 32 ->
  length h = digest_length algorithm ->
  spin_loop (S fuel) algorithm spin_count (little_endian_u32 k ++ h) h_n =
  spin_loop fuel algorithm spin_count
    (little_endian_u32 (k + 1)
       ++ hash algorithm (little_endian_u32 k ++ h))
    (hash algorithm (little_endian_u32 k ++ h)).
Proof.
  intros Hk Hk32 Hlen. rewrite spin_loop_eq.
  rewrite get_iterator_counter. unfold uint32_t at 1.
  rewrite Z.mod_small by lia.
  destruct (Z.ltb_spec k spin_count) as [_|]; [|lia].
  cbv zeta. rewrite copy_at_digest by (now rewrite hash_length).
  rewrite bind_ret, get_iterator_counter, set_iterator_counter.
  rewrite little_endian_u32_mod.
  unfold uint32_t. now rewrite Z.mod_small by lia.
Qed.

(** From turn [k] on, [m] turns remain. *)
Lemma spin_loop_chain (algorithm : hash_algorithm) (h0 : bytes) (spin_count : Z)
    (m : nat) :
  forall (fuel k : nat) (h_n : bytes),
    spin_count < 2 ^ 32 ->
    Z.of_nat k + Z.of_nat m = spin_count ->
    (m <= fuel)%nat ->
    length h0 = digest_length algorithm ->
    spin_loop fuel algorithm spin_count
      (little_endian_u32 (Z.of_nat k) ++ H_n algorithm h0 k) h_n =
    ret (match m with
         | O => h_n
         | S _ => H_n algorithm h0 (k + m)
         end).
Proof.
  induction m as [|m IH]; intros fuel k h_n H32 Hsum Hfuel Hlen.
  - rewrite spin_loop_eq, get_iterator_counter. unfold uint32_t.
    rewrite Z.mod_small by lia.
    destruct (Z.ltb_spec (Z.of_nat k) spin_count); [lia | reflexivity].
  - destruct fuel as [|fuel]; [lia|].
    rewrite spin_loop_step by (try apply H_n_length; auto; lia).
    replace (Z.of_nat k + 1) with (Z.of_nat (S k)) by lia.
    change (hash algorithm (little_endian_u32 (Z.of_nat k) ++ H_n algorithm h0 k))
      with (H_n algorithm h0 (S k)).
    rewrite IH by (auto; lia).
    destruct m; f_equal; [f_equal; lia|].
    f_equal. lia.
Qed.

Lemma generate_h_n_chain (fuel : nat) (algorithm : hash_algorithm)
    (salt : bytes) (password : list Z) (spin_count : Z) :
  1 <= spin_count < 2 ^ 32 ->
  (Z.to_nat spin_count <= fuel)%nat ->
  generate_h_n fuel algorithm spin_count salt password =
  ret (H_n algorithm (H_0 algorithm salt password) (Z.to_nat spin_count)).
Proof.
  intros Hsc Hfuel. unfold generate_h_n.
  change (repeat x00 4) with (little_endian_u32 0).
  rewrite set_iterator_counter.
  pose proof (spin_loop_chain algorithm (H_0 algorithm salt password)
                spin_count (Z.to_nat spin_count) fuel 0 []) as Hc.
  simpl H_n in Hc. simpl Z.of_nat in Hc. unfold H_0 in *.
  rewrite Hc; try lia; [|apply hash_length].
  destruct (Z.to_nat spin_count) eqn:E; [lia | reflexivity].
Qed.

(** With a spin count of zero the loop is not entered and [h_n] keeps its
    initial value, the empty vector. *)
Lemma generate_h_n_zero (fuel : nat) (algorithm : hash_algorithm)
    (salt : bytes) (password : list Z) :
  generate_h_n fuel algorithm 0 salt password = ret [].
Proof.
  unfold generate_h_n. change (repeat x00 4) with (little_endian_u32 0).
  rewrite set_iterator_counter, spin_loop_eq, get_iterator_counter.
  reflexivity.
Qed.

(** [iterator] is a 32-bit integer: it stays below a spin count of 2^32 or
    more, and the loop does not end. *)
Lemma spin_loop_no_exit (algorithm : hash_algorithm) (spin_count : Z)
    (fuel : nat) :
  2 ^ 32 <= spin_count ->
  forall (k : Z) (h h_n : bytes),
    length h = digest_length algorithm ->
    spin_loop fuel algorithm spin_count (little_endian_u32 k ++ h) h_n =
    out_of_fuel.
Proof.
  intros Hsc. induction fuel as [|fuel IH]; intros k h h_n Hlen;
    rewrite spin_loop_eq, get_iterator_counter;
    (assert (Hlt : uint32_t k < spin_count)
       by (unfold uint32_t;
           pose proof (Z.mod_pos_bound k (2 ^ 32) ltac:(lia)); lia));
    destruct (Z.ltb_spec (uint32_t k) spin_count) as [_|]; try lia.
  - reflexivity.
  - cbv zeta. rewrite copy_at_digest by (now rewrite hash_length).
    rewrite bind_ret, get_iterator_counter, set_iterator_counter.
    apply IH, hash_length.
Qed.

Lemma generate_h_n_no_exit (fuel : nat) (algorithm : hash_algorithm)
    (salt : bytes) (password : list Z) (spin_count : Z) :
  2 ^ 32 <= spin_count ->
  generate_h_n fuel algorithm spin_count salt password = out_of_fuel.
Proof.
  intros Hsc. unfold generate_h_n.
  change (repeat x00 4) with (little_endian_u32 0).
  rewrite set_iterator_counter.
  apply spin_loop_no_exit; [exact Hsc | apply hash_length].
Qed.

End KeyGeneration.

(** C5, as amended. For every password, salt, hash kind and spin count from
    1 to 2^32 - 1, the key generation of both decoders (given at least
    [spin_count] turns of fuel) returns the digest [H_n] of the chain
    [H0 = Hash(salt ++ UTF-16LE password bytes)],
    [Hn = Hash(little_endian_u32(iterator) ++ previous digest)] for
    [iterator] from [0] to [spin_count - 1]. The standard decoder calls it
    with SHA-1 and 50000, the agile decoder with the hash kind and spin count
    of its key encryptor. *)
Theorem key_derivation_chain (P : Primitives) (fuel : nat)
    (algorithm : hash_algorithm) (salt : bytes) (password : list Z)
    (spin_count : Z) :
  1 <= spin_count < 2 ^ 32 ->
  (Z.to_nat spin_count <= fuel)%nat ->
  generate_h_n fuel algorithm spin_count salt password =
  ([], Ok (H_n algorithm (H_0 algorithm salt password) (Z.to_nat spin_count))).
Proof.
  intros Hsc Hfuel. now apply generate_h_n_chain.
Qed.

Lemma key_derivation_chain_witness :
  1 <= 3 < 2 ^ 32 /\ (Z.to_nat 3 <= 5)%nat /\
  @generate_h_n sample_primitives 5 hash_sha512 3 [x01; x02] [112; 119] =
  ([], Ok (@H_n sample_primitives hash_sha512
             (@H_0 sample_primitives hash_sha512 [x01; x02] [112; 119])
             (Z.to_nat 3))).
Proof.
  assert (H1 : 1 <= 3 < 2 ^ 32) by lia.
  assert (H2 : (Z.to_nat 3 <= 5)%nat) by (simpl; lia).
  exact (conj H1 (conj H2
    (key_derivation_chain sample_primitives 5 hash_sha512 [x01; x02]
       [112; 119] 3 H1 H2))).
Defined.

(** C5 as stated fails at both ends of "every spin count". With the spin
    count 0 the digest handed on is the empty vector, not [H0]; with the
    spin count 2^32 the 32-bit [iterator] never reaches it, and no amount of
    fuel lets the loop return. *)
Lemma key_derivation_counterexample :
  ~ (exists (P : Primitives) (fuel : nat),
       @generate_h_n P fuel hash_sha1 0 [] [] =
       ([], Ok (@H_n P hash_sha1 (@H_0 P hash_sha1 [] []) 0)))
  /\
  ~ (exists (P : Primitives) (fuel : nat) (h : bytes),
       outcome_of (@generate_h_n P fuel hash_sha1 (2 ^ 32) [] []) = Ok h).
Proof.
  split.
  - intros (P & fuel & H). rewrite generate_h_n_zero in H.
    injection H as H.
    apply (f_equal (@length byte)) in H.
    rewrite sha1_length in H. discriminate H.
  - intros (P & fuel & h & H).
    rewrite generate_h_n_no_exit in H by lia. discriminate H.
Qed.

(** ** The standard header *)

Lemma read_int_cases (width index : Z) (raw_data : bytes) :
  (~ (0 <= index /\ index + width <= size raw_data)
   /\ read_int width index raw_data = out_of_bounds)
  \/
  (0 <= index /\ index + width <= size raw_data
   /\ read_int width index raw_data =
      ret (little_endian (slice index (index + width) raw_data), index + width)).
Proof.
  unfold read_int.
  destruct (Z.leb_spec 0 index); destruct (Z.leb_spec (index + width) (size raw_data));
    simpl; [right | left | left | left]; repeat split; auto; lia.
Qed.

Lemma range_cases (lo hi : Z) (l : bytes) :
  range lo hi l = out_of_bounds \/ range lo hi l = ret (slice lo hi l).
Proof.
  unfold range. destruct ((0 <=? lo) && (lo <=? hi) && (hi <=? size l)); auto.
Qed.

Lemma bind_out_of_bounds {A B} (f : A -> M B) :
  bind out_of_bounds f = out_of_bounds.
Proof. reflexivity. Qed.

Lemma bind_throw {A B} (e : exn) (f : A -> M B) : bind (throw e) f = throw e.
Proof. reflexivity. Qed.

(** One step through the straight-line code of a decoder: the next read,
    range or guard either stops the decoder or hands on its value. *)
Ltac walk_step :=
  lazymatch goal with
  | |- context [bind ?m _] =>
      lazymatch m with
      | read_int ?w ?i ?d =>
          let E := fresh "E" in
          destruct (read_int_cases w i d) as [[? E] | (? & ? & E)];
          rewrite E;
          [rewrite bind_out_of_bounds | rewrite bind_ret; cbv beta iota]
      | range ?lo ?hi ?l =>
          let E := fresh "E" in
          destruct (range_cases lo hi l) as [E | E];
          rewrite E;
          [rewrite bind_out_of_bounds | rewrite bind_ret; cbv beta iota]
      | (if ?c then throw _ else ret _) =>
          let E := fresh "E" in
          destruct c eqn:E;
          [rewrite bind_throw | rewrite bind_ret; cbv beta iota]
      | (if ?c then ret _ else throw _) =>
          let E := fresh "E" in
          destruct c eqn:E;
          [rewrite bind_ret; cbv beta iota | rewrite bind_throw]
      | match ?l with [] => out_of_bounds | _ :: _ => _ end =>
          destruct l;
          [rewrite bind_out_of_bounds | rewrite bind_ret; cbv beta iota]
      end
  end.

(** The hash id is the fifth 32-bit field. The decoder raises its
    unsupported-hash error for the id 0 and for no other id. *)
Lemma invalid_hash_only_for_zero (encryption_info : bytes) :
  outcome_of (read_standard_header encryption_info) =
    Throw (xlnt_exception "invalid hash algorithm") ->
  little_endian (slice 16 20 encryption_info) = 0.
Proof.
  unfold read_standard_header.
  do 4 (walk_step; [discriminate|]).
  walk_step; [|discriminate].
  walk_step; [discriminate|].
  walk_step.
  - intros _.
    match goal with
    | H : _ && _ = true |- _ => apply andb_true_iff in H; destruct H as [_ H];
                                apply Z.eqb_eq in H; exact H
    end.
  - repeat (walk_step; try discriminate).
Qed.

Lemma field_range (index width : Z) (raw_data : bytes) :
  0 <= width ->
  0 <= little_endian (slice index (index + width) raw_data) < 256 ^ width.
Proof.
  intros Hw.
  pose proof (little_endian_range (slice index (index + width) raw_data)) as Hr.
  assert (Hl : Z.of_nat (length (slice index (index + width) raw_data)) <= width).
  { unfold slice. rewrite length_firstn. lia. }
  assert (256 ^ Z.of_nat (length (slice index (index + width) raw_data))
          <= 256 ^ width) by (apply Z.pow_le_mono_r; lia).
  lia.
Qed.

(** The constants of a decoded standard header. *)
Lemma read_standard_header_constants (encryption_info : bytes) (t : trace)
    (info : standard_encryption_info) :
  read_standard_header encryption_info = (t, Ok info) ->
  std_spin_count info = 50000 /\ std_hash info = hash_sha1
  /\ 0 <= std_key_bytes info < 2 ^ 32.
Proof.
  unfold read_standard_header.
  repeat (walk_step; try discriminate).
  intros [= _ <-]. cbn [std_spin_count std_hash std_key_bytes].
  pose proof (field_range 20 4 encryption_info ltac:(lia)) as Hr.
  change (20 + 4) with 24 in Hr.
  repeat split.
  - apply Z.div_pos; lia.
  - apply Z.div_lt_upper_bound; lia.
Qed.

Section StandardDecoder.

Context {P : Primitives}.

Lemma bind_ok {A B} (t : trace) (a : A) (f : A -> M B) :
  bind (t, Ok a) f = (t ++ trace_of (f a), outcome_of (f a)).
Proof.
  unfold bind, trace_of, outcome_of. destruct (f a). reflexivity.
Qed.

Lemma ptrdiff_t_small (z : Z) : 0 <= z < 2 ^ 63 -> ptrdiff_t z = z.
Proof.
  intros H. unfold ptrdiff_t, size_t. rewrite Z.mod_small by lia.
  destruct (Z.ltb_spec z (2 ^ 63)); lia.
Qed.

Lemma read_prefix (encrypted_package : bytes) :
  8 <= size encrypted_package ->
  read_int 8 0 encrypted_package = ret (length_prefix encrypted_package, 8).
Proof.
  intros H. unfold read_int.
  destruct (Z.leb_spec (0 + 8) (size encrypted_package)); [|lia].
  reflexivity.
Qed.

Lemma range_payload (encrypted_package : bytes) :
  8 <= size encrypted_package ->
  range 8 (size encrypted_package) encrypted_package =
  ret (payload encrypted_package).
Proof.
  intros H. unfold range.
  destruct (Z.leb_spec 8 (size encrypted_package)); [|lia].
  rewrite Z.leb_refl. cbn [andb Z.leb Z.compare]. unfold slice, payload.
  rewrite firstn_all2; [reflexivity|].
  rewrite length_skipn. unfold size. lia.
Qed.

Lemma standard_package_closed (key encrypted_package : bytes) :
  8 <= size encrypted_package ->
  standard_package key encrypted_package =
  ([aes_ecb (payload encrypted_package) key],
   Ok (resize (Z.to_nat (length_prefix encrypted_package))
         (aes_ecb_decrypt (payload encrypted_package) key))).
Proof.
  intros H. unfold standard_package.
  rewrite read_prefix, bind_ret by exact H.
  rewrite range_payload, bind_ret by exact H.
  reflexivity.
Qed.

Lemma xor_fill_padded (c : byte) (h : bytes) :
  (length h <= 64)%nat -> xor_fill c h = ret (xor_padded c h).
Proof.
  intros H. unfold xor_fill.
  destruct (Nat.leb_spec (length h) 64); [reflexivity | lia].
Qed.

Lemma digest_length_bound (algorithm : hash_algorithm) :
  (16 <= digest_length algorithm <= 64)%nat.
Proof. destruct algorithm; simpl; lia. Qed.

Lemma standard_key_closed (fuel : nat) (info : standard_encryption_info)
    (password : list Z) :
  1 <= std_spin_count info < 2 ^ 32 ->
  (Z.to_nat (std_spin_count info) <= fuel)%nat ->
  0 <= std_key_bytes info <= 2 * Z.of_nat (digest_length (std_hash info)) ->
  standard_key fuel info password = ret (standard_derived_key info password).
Proof.
  intros Hspin Hfuel Hkey. unfold standard_key.
  rewrite generate_h_n_chain, bind_ret by assumption.
  pose proof (digest_length_bound (std_hash info)) as Hd.
  rewrite xor_fill_padded, bind_ret by (rewrite hash_length; lia).
  rewrite xor_fill_padded, bind_ret by (rewrite hash_length; lia).
  unfold range. rewrite ptrdiff_t_small by lia.
  unfold size. rewrite length_app, !hash_length.
  destruct (Z.leb_spec 0 (std_key_bytes info)); [|lia].
  destruct (Z.leb_spec (std_key_bytes info)
              (Z.of_nat (digest_length (std_hash info) + digest_length (std_hash info))));
    [|lia].
  cbn [andb Z.leb Z.compare]. unfold slice, standard_derived_key.
  now rewrite Z.sub_0_r.
Qed.

(** The standard decoder on a header it accepts, with a key size of at most
    320 bits, enough fuel for the 50000 rounds and a package that has its
    length prefix. *)
Lemma decrypt_xlsx_standard_closed (fuel : nat) (encryption_info : bytes)
    (info : standard_encryption_info) (password : list Z)
    (encrypted_package : bytes) :
  read_standard_header encryption_info = ([], Ok info) ->
  std_key_bytes info <= 40 ->
  (Z.to_nat 50000 <= fuel)%nat ->
  8 <= size encrypted_package ->
  decrypt_xlsx_standard fuel encryption_info password encrypted_package =
  ([aes_ecb (payload encrypted_package) (standard_derived_key info password)],
   Ok (resize (Z.to_nat (length_prefix encrypted_package))
         (aes_ecb_decrypt (payload encrypted_package)
            (standard_derived_key info password)))).
Proof.
  intros Hh Hkey Hfuel Hpkg. unfold decrypt_xlsx_standard.
  destruct (read_standard_header_constants _ _ _ Hh) as (Hs & Hhash & Hk).
  rewrite Hh, bind_nil_ok.
  rewrite standard_key_closed, bind_ret.
  - now apply standard_package_closed.
  - rewrite Hs. lia.
  - rewrite Hs. exact Hfuel.
  - rewrite Hhash. simpl. lia.
Qed.

End StandardDecoder.

(** ** The agile decoder *)

Lemma segment_count_lt (n j : nat) :
  (j < segment_count n <-> 4096 * j < n)%nat.
Proof.
  unfold segment_count.
  pose proof (Nat.div_mod_eq (n + 4095) 4096).
  pose proof (Nat.mod_upper_bound (n + 4095) 4096 ltac:(lia)).
  set (q := ((n + 4095) / 4096)%nat) in *.
  set (r := ((n + 4095) mod 4096)%nat) in *.
  lia.
Qed.

Lemma firstn_min_length {A} (a : nat) (l : list A) :
  firstn (Nat.min a (length l)) l = firstn a l.
Proof.
  destruct (Nat.le_ge_cases a (length l)).
  - now rewrite Nat.min_l.
  - rewrite Nat.min_r by assumption. now rewrite firstn_all, firstn_all2.
Qed.

Lemma payload_length (encrypted_package : bytes) :
  8 <= size encrypted_package ->
  Z.of_nat (length (payload encrypted_package)) = size encrypted_package - 8.
Proof.
  intros H. unfold payload, size in *. rewrite length_skipn. lia.
Qed.

(** The range the loop takes on turn [j] is segment [j] of the payload. *)
Lemma segment_slice (encrypted_package : bytes) (j : nat) :
  8 <= size encrypted_package ->
  let i := 8 + 4096 * Z.of_nat j in
  let current := Z.min ole_segment_length (size encrypted_package - i) in
  i < size encrypted_package ->
  slice i (i + current) encrypted_package = segment_ciphertext encrypted_package j
  /\ Z.to_nat current = length (segment_ciphertext encrypted_package j).
Proof.
  intros Hp i current Hi. pose proof (payload_length _ Hp) as Hl.
  assert (Hs : slice i (i + current) encrypted_package =
               segment_ciphertext encrypted_package j).
  { unfold slice, segment_ciphertext, payload.
    rewrite skipn_skipn.
    replace (Z.to_nat i) with (4096 * j + 8)%nat by (unfold i; lia).
    replace (Z.to_nat (i + current - i))
      with (Nat.min 4096 (length (skipn (4096 * j + 8) encrypted_package))).
    - apply firstn_min_length.
    - rewrite length_skipn. unfold current, ole_segment_length, i, size. lia. }
  split; [exact Hs|].
  rewrite <- Hs. unfold slice. rewrite length_firstn, length_skipn.
  unfold current, ole_segment_length, i, size in *. lia.
Qed.

Lemma little_endian_u32_succ (k : Z) :
  little_endian_u32 (uint32_t (little_endian (little_endian_u32 k) + 1)) =
  little_endian_u32 (k + 1).
Proof.
  rewrite little_endian_u32_mod, little_endian_u32_value.
  rewrite <- (little_endian_u32_mod (uint32_t k + 1)).
  rewrite <- (little_endian_u32_mod (k + 1)).
  unfold uint32_t. now rewrite Zplus_mod_idemp_l.
Qed.

Lemma increment_segment_closed (salt_size : Z) (salt' : bytes) (k : Z) :
  size salt' = salt_size ->
  increment_segment salt_size (salt' ++ little_endian_u32 k) =
  ret (salt' ++ little_endian_u32 (k + 1)).
Proof.
  intros Hs. unfold increment_segment.
  assert (Hk : length (little_endian_u32 k) = 4%nat)
    by apply to_little_endian_length.
  assert (H0 : 0 <= salt_size) by (unfold size in Hs; lia).
  destruct (Z.leb_spec 0 salt_size); [|lia].
  unfold size in *. rewrite length_app, Hk.
  destruct (Z.leb_spec (salt_size + 4) (Z.of_nat (length salt' + 4))); [|lia].
  cbn [andb]. unfold slice.
  replace (Z.to_nat salt_size) with (length salt') by lia.
  replace (Z.to_nat (salt_size + 4)) with (length salt' + 4)%nat by lia.
  replace (Z.to_nat (salt_size + 4 - salt_size)) with 4%nat by lia.
  rewrite skipn_app, skipn_all, Nat.sub_diag, skipn_0, app_nil_l.
  rewrite <- Hk at 1. rewrite firstn_all.
  rewrite firstn_app, firstn_all, Nat.sub_diag, firstn_0, app_nil_r.
  rewrite skipn_all2 by (rewrite length_app; lia).
  rewrite app_nil_r, little_endian_u32_succ. reflexivity.
Qed.

Section AgileDecoder.

Context {P : Primitives}.

Lemma call_aes_cbc_decrypt_closed (input key iv : bytes) :
  call_aes_cbc_decrypt input key iv =
  ([aes_cbc input key iv], Ok (aes_cbc_decrypt input key iv)).
Proof. reflexivity. Qed.

Lemma segment_loop_eq (turns : nat) (result : agile_encryption_info)
    (key encrypted_package : bytes) (salt_size i : Z)
    (salt_with_block_key decrypted_package : bytes) :
  segment_loop turns result key encrypted_package salt_size i
    salt_with_block_key decrypted_package =
  if i <? size encrypted_package then
    match turns with
    | O => out_of_fuel
    | S turns' =>
        let iv := resize 16 (hash (ke_hash (key_encryptor result))
                               salt_with_block_key) in
        let current := Z.min ole_segment_length (size encrypted_package - i) in
        bind (range i (i + current) encrypted_package) (fun encrypted_segment =>
        bind (call_aes_cbc_decrypt encrypted_segment key iv) (fun decrypted_segment =>
        bind (increment_segment salt_size salt_with_block_key) (fun buffer =>
          segment_loop turns' result key encrypted_package salt_size
            (i + ole_segment_length) buffer
            (decrypted_package
               ++ resize (Z.to_nat current) decrypted_segment))))
    end
  else ret decrypted_package.
Proof. destruct turns; reflexivity. Qed.

(** From segment [j] on, [m] segments remain. *)
Lemma segment_loop_closed (result : agile_encryption_info)
    (key encrypted_package : bytes) (salt_size : Z) (salt' : bytes) (c0 : Z) :
  8 <= size encrypted_package ->
  size salt' = salt_size ->
  forall (m j turns : nat) (decrypted_package : bytes),
    (j + m = segment_count (length (payload encrypted_package)))%nat ->
    (m <= turns)%nat ->
    segment_loop turns result key encrypted_package salt_size
      (8 + 4096 * Z.of_nat j)
      (salt' ++ little_endian_u32 (c0 + Z.of_nat j)) decrypted_package =
    (map (loop_call (ke_hash (key_encryptor result)) key encrypted_package
            salt' c0) (seq j m),
     Ok (decrypted_package
           ++ concat (map (loop_segment (ke_hash (key_encryptor result)) key
                             encrypted_package salt' c0) (seq j m)))).
Proof.
  intros Hp Hs. pose proof (payload_length _ Hp) as Hl.
  induction m as [|m IH]; intros j turns acc Hj Hturns;
    rewrite segment_loop_eq.
  - assert (~ (j < segment_count (length (payload encrypted_package)))%nat)
      as Hn by lia.
    rewrite segment_count_lt in Hn.
    destruct (Z.ltb_spec (8 + 4096 * Z.of_nat j) (size encrypted_package));
      [lia|].
    simpl. now rewrite app_nil_r.
  - assert (j < segment_count (length (payload encrypted_package)))%nat
      as Hlt by lia.
    rewrite segment_count_lt in Hlt.
    destruct (Z.ltb_spec (8 + 4096 * Z.of_nat j) (size encrypted_package))
      as [Hi|]; [|lia].
    destruct turns as [|turns]; [lia|].
    destruct (segment_slice encrypted_package j Hp Hi) as [Hslice Hcur].
    cbv zeta. unfold range.
    destruct (Z.leb_spec 0 (8 + 4096 * Z.of_nat j)); [|lia].
    destruct (Z.leb_spec (8 + 4096 * Z.of_nat j)
                (8 + 4096 * Z.of_nat j
                 + Z.min ole_segment_length
                     (size encrypted_package - (8 + 4096 * Z.of_nat j))));
      [|unfold ole_segment_length in *; lia].
    destruct (Z.leb_spec
                (8 + 4096 * Z.of_nat j
                 + Z.min ole_segment_length
                     (size encrypted_package - (8 + 4096 * Z.of_nat j)))
                (size encrypted_package)); [|lia].
    cbn [andb]. rewrite bind_ret, Hslice, Hcur.
    rewrite call_aes_cbc_decrypt_closed, bind_ok.
    rewrite increment_segment_closed, bind_ret by exact Hs.
    replace (8 + 4096 * Z.of_nat j + ole_segment_length)
      with (8 + 4096 * Z.of_nat (S j)) by (unfold ole_segment_length; lia).
    replace (c0 + Z.of_nat j + 1) with (c0 + Z.of_nat (S j)) by lia.
    rewrite IH by lia.
    unfold trace_of, outcome_of. cbn [fst snd app map seq concat].
    rewrite <- app_assoc. reflexivity.
Qed.

Lemma to_of_little_endian (l : bytes) :
  to_little_endian (length l) (little_endian l) = l.
Proof.
  induction l as [|b l IH]; [reflexivity|].
  cbn [length to_little_endian little_endian].
  pose proof (byte_to_Z_range b) as Hb. f_equal.
  - unfold byte_of_Z.
    replace ((byte_to_Z b + 256 * little_endian l) mod 256) with (byte_to_Z b)
      by (rewrite Z.mul_comm, Z_mod_plus_full;
          now rewrite Z.mod_small by lia).
    unfold byte_to_Z. now rewrite N2Z.id, Byte.of_to_N.
  - rewrite Z.add_comm, Z.mul_comm, Z.div_add_l by lia.
    rewrite (Z.div_small (byte_to_Z b)) by lia. now rewrite Z.add_0_r.
Qed.


Lemma initial_buffer_exact (salt : bytes) :
  resize (length salt + 4) salt = salt ++ little_endian_u32 0.
Proof.
  rewrite resize_pad by lia.
  replace (length salt + 4 - length salt)%nat with 4%nat by lia.
  reflexivity.
Qed.

Lemma segment_count_le (n : nat) : (segment_count n <= n)%nat.
Proof.
  unfold segment_count.
  pose proof (Nat.div_mod_eq (n + 4095) 4096).
  pose proof (Nat.mod_upper_bound (n + 4095) 4096 ltac:(lia)).
  set (q := ((n + 4095) / 4096)%nat) in *.
  set (r := ((n + 4095) mod 4096)%nat) in *.
  lia.
Qed.

(** The package phase, once the buffer is known to be [salt'] followed by
    the counter [c0]. *)
Lemma agile_package_from (result : agile_encryption_info)
    (key encrypted_package salt' : bytes) (c0 : Z) :
  8 <= size encrypted_package ->
  0 <= kd_salt_size (key_data result) ->
  kd_salt_size (key_data result) + 4 < 2 ^ 64 ->
  size salt' = kd_salt_size (key_data result) ->
  resize (Z.to_nat (kd_salt_size (key_data result) + 4))
    (kd_salt_value (key_data result)) = salt' ++ little_endian_u32 c0 ->
  agile_package result key encrypted_package =
  (map (loop_call (ke_hash (key_encryptor result)) key encrypted_package
          salt' c0)
     (seq 0 (segment_count (length (payload encrypted_package)))),
   Ok (resize (Z.to_nat (length_prefix encrypted_package))
         (concat (map (loop_segment (ke_hash (key_encryptor result)) key
                         encrypted_package salt' c0)
                    (seq 0 (segment_count
                              (length (payload encrypted_package)))))))).
Proof.
  intros Hp Hs0 Hs64 Hs' Hbuf. unfold agile_package.
  unfold size_t. rewrite Z.mod_small by lia. rewrite Hbuf.
  rewrite read_prefix, bind_ret by exact Hp.
  pose proof (payload_length _ Hp) as Hl.
  pose proof (segment_count_le (length (payload encrypted_package))) as Hc.
  pose proof (segment_loop_closed result key encrypted_package
                (kd_salt_size (key_data result)) salt' c0 Hp Hs'
                (segment_count (length (payload encrypted_package))) 0
                (length encrypted_package) []) as Hloop.
  change (Z.of_nat 0) with 0 in Hloop.
  rewrite Z.mul_0_r, !Z.add_0_r in Hloop.
  rewrite Hloop by (unfold size in *; lia).
  rewrite bind_ok. unfold trace_of, outcome_of, ret.
  cbn [fst snd app]. now rewrite app_nil_r.
Qed.

(** The segments of a payload are consecutive and cover it. *)
Lemma chunks_cover (m : nat) :
  forall l : bytes,
    (length l <= 4096 * m)%nat ->
    concat (map (fun i => firstn 4096 (skipn (4096 * i) l)) (seq 0 m)) = l.
Proof.
  induction m as [|m IH]; intros l Hl.
  - destruct l; [reflexivity | simpl in Hl; lia].
  - rewrite <- cons_seq, <- seq_shift, map_cons, map_map, concat_cons.
    rewrite Nat.mul_0_r, skipn_0.
    transitivity (firstn 4096 l ++ skipn 4096 l); [|apply firstn_skipn].
    f_equal.
    etransitivity; [|apply (IH (skipn 4096 l)); rewrite length_skipn; lia].
    f_equal. apply map_ext. intros i.
    rewrite skipn_skipn. do 2 f_equal. lia.
Qed.

Lemma segments_cover (encrypted_package : bytes) :
  concat (map (segment_ciphertext encrypted_package)
            (seq 0 (segment_count (length (payload encrypted_package))))) =
  payload encrypted_package.
Proof.
  unfold segment_ciphertext. apply chunks_cover.
  pose proof (segment_count_lt (length (payload encrypted_package))
                (segment_count (length (payload encrypted_package)))).
  lia.
Qed.

Lemma concat_lengths {A} (f g : nat -> list A) (l : list nat) :
  (forall i, length (f i) = length (g i)) ->
  length (concat (map f l)) = length (concat (map g l)).
Proof.
  intros H. induction l as [|i l IH]; [reflexivity|].
  cbn [map concat]. rewrite !length_app, IH, H. reflexivity.
Qed.

(** Whatever AES returns, the concatenation of the resized segments is as
    long as the payload. *)
Lemma loop_segments_length (algorithm : hash_algorithm)
    (key encrypted_package salt' : bytes) (c0 : Z) :
  length (concat (map (loop_segment algorithm key encrypted_package salt' c0)
                    (seq 0 (segment_count
                              (length (payload encrypted_package)))))) =
  length (payload encrypted_package).
Proof.
  rewrite <- (segments_cover encrypted_package) at 2.
  apply concat_lengths. intros i. unfold loop_segment.
  apply resize_length.
Qed.

(** [std::mismatch] stops at the two ends exactly on equal sequences. *)
Lemma mismatch_ends (a : bytes) :
  forall b : bytes, mismatch a b = (length a, length b) <-> a = b.
Proof.
  induction a as [|x a IH]; intros [|y b]; cbn [mismatch length];
    try (split; [discriminate | discriminate]).
  - split; reflexivity.
  - destruct (Byte.eqb x y) eqn:E.
    + apply Byte.byte_dec_bl in E. subst y.
      specialize (IH b). destruct (mismatch a b) as [i j]. split.
      * intros [= -> ->]. f_equal. now apply IH.
      * intros [= <-]. assert (Heq : (i, j) = (length a, length a))
          by now apply IH.
        injection Heq as -> ->. reflexivity.
    + apply Byte.eqb_false in E. split; [discriminate | congruence].
Qed.

Lemma position_pair_eqb_eq (p q : nat * nat) :
  position_pair_eqb p q = true <-> p = q.
Proof.
  destruct p as [a b], q as [c d]. unfold position_pair_eqb. cbn [fst snd].
  rewrite andb_true_iff, !Nat.eqb_eq. split.
  - intros [-> ->]. reflexivity.
  - intros [= -> ->]. auto.
Qed.

Lemma check_verifiers_equal (verifier : bytes) :
  check_verifiers verifier verifier = ret tt.
Proof.
  unfold check_verifiers. rewrite Nat.eqb_refl.
  assert (H : position_pair_eqb (mismatch verifier verifier)
                (length verifier, length verifier) = true)
    by (apply position_pair_eqb_eq; now apply mismatch_ends).
  rewrite H. reflexivity.
Qed.

Lemma check_verifiers_differ (calculated expected : bytes) :
  calculated <> expected ->
  check_verifiers calculated expected = throw (xlnt_exception "bad password").
Proof.
  intros Hne. unfold check_verifiers.
  destruct (position_pair_eqb (mismatch calculated expected)
              (length calculated, length expected)) eqn:E.
  - apply position_pair_eqb_eq, mismatch_ends in E. contradiction.
  - now rewrite orb_true_r.
Qed.

Lemma agile_verifiers_closed (result : agile_encryption_info) (h_n : bytes) :
  agile_verifiers result h_n =
  (verifier_calls result h_n,
   Ok (calculated_verifier result h_n, expected_verifier result h_n)).
Proof. reflexivity. Qed.

Lemma calculate_block_closed (result : agile_encryption_info)
    (raw_key block encrypted : bytes) :
  calculate_block result raw_key block encrypted =
  ([aes_cbc encrypted (block_key_for result raw_key block)
      (ke_salt_value (key_encryptor result))],
   Ok (aes_cbc_decrypt encrypted (block_key_for result raw_key block)
         (ke_salt_value (key_encryptor result)))).
Proof. reflexivity. Qed.

(** The agile decoder after the key generation, when the verifiers differ
    and when they agree. *)
Lemma agile_decrypt_differ (fuel : nat) (result : agile_encryption_info)
    (password : list Z) (encrypted_package h_n : bytes) :
  generate_h_n fuel (ke_hash (key_encryptor result))
    (ke_spin_count (key_encryptor result))
    (ke_salt_value (key_encryptor result)) password = ([], Ok h_n) ->
  calculated_verifier result h_n <> expected_verifier result h_n ->
  agile_decrypt fuel result password encrypted_package =
  (verifier_calls result h_n, Throw (xlnt_exception "bad password")).
Proof.
  intros Hg Hne. unfold agile_decrypt.
  rewrite Hg, bind_nil_ok, agile_verifiers_closed, bind_ok.
  rewrite check_verifiers_differ by exact Hne.
  reflexivity.
Qed.

Lemma agile_decrypt_agree (fuel : nat) (result : agile_encryption_info)
    (password : list Z) (encrypted_package h_n : bytes) :
  generate_h_n fuel (ke_hash (key_encryptor result))
    (ke_spin_count (key_encryptor result))
    (ke_salt_value (key_encryptor result)) password = ([], Ok h_n) ->
  calculated_verifier result h_n = expected_verifier result h_n ->
  agile_decrypt fuel result password encrypted_package =
  (verifier_calls result h_n ++ package_key_call result h_n
     :: trace_of (agile_package result (package_key result h_n)
                    encrypted_package),
   outcome_of (agile_package result (package_key result h_n)
                 encrypted_package)).
Proof.
  intros Hg Heq. unfold agile_decrypt.
  rewrite Hg, bind_nil_ok, agile_verifiers_closed, bind_ok.
  rewrite Heq, check_verifiers_equal, bind_ret.
  rewrite calculate_block_closed, bind_ok.
  unfold trace_of, outcome_of. cbn [fst snd app]. reflexivity.
Qed.

End AgileDecoder.

(** C4. On the agile path, once the key generation has returned [h_n]:
    whenever the calculated verifier (the hash of the decrypted
    verifier-hash-input) differs from the expected verifier (the decrypted
    verifier-hash-value resized to the length of the calculated one, which
    cuts it whenever it is at least that long), the decoder throws the
    exception "bad password", and the AES calls it has made are the two of
    the verification, on the verifier fields of the header: no call has been
    made on the package, whatever the package is. *)
Theorem agile_bad_password (P : Primitives) (fuel : nat)
    (result : agile_encryption_info) (password : list Z)
    (encrypted_package h_n : bytes) :
  generate_h_n fuel (ke_hash (key_encryptor result))
    (ke_spin_count (key_encryptor result))
    (ke_salt_value (key_encryptor result)) password = ([], Ok h_n) ->
  calculated_verifier result h_n <> expected_verifier result h_n ->
  agile_decrypt fuel result password encrypted_package =
    (verifier_calls result h_n, Throw (xlnt_exception "bad password"))
  /\ (forall p : parser,
        read_agile_header p = ([], Ok result) ->
        decrypt_xlsx_agile_events fuel p password encrypted_package =
        (verifier_calls result h_n, Throw (xlnt_exception "bad password")))
  /\ (let decrypted_value :=
        aes_cbc_decrypt (ke_verifier_hash_value (key_encryptor result))
          (block_key_for result h_n verifier_block_key)
          (ke_salt_value (key_encryptor result)) in
      (length (calculated_verifier result h_n) <= length decrypted_value)%nat ->
      expected_verifier result h_n =
      firstn (length (calculated_verifier result h_n)) decrypted_value).
Proof.
  intros Hg Hne.
  pose proof (agile_decrypt_differ fuel result password encrypted_package
                h_n Hg Hne) as Hd.
  split; [exact Hd|]. split.
  - intros p Hp. unfold decrypt_xlsx_agile_events.
    rewrite Hp, bind_nil_ok. exact Hd.
  - intros decrypted_value Hlen. unfold expected_verifier.
    now apply resize_firstn.
Qed.

Lemma agile_bad_password_witness :
  @agile_decrypt sample_primitives 3 (sample_agile_info "no") [112; 119]
    two_segment_package =
  (@verifier_calls sample_primitives (sample_agile_info "no")
     (@H_n sample_primitives hash_sha512
        (@H_0 sample_primitives hash_sha512 (list_byte_of_string "cd")
           [112; 119]) 3),
   Throw (xlnt_exception "bad password")).
Proof.
  refine (proj1 (agile_bad_password sample_primitives 3
                   (sample_agile_info "no") [112; 119] two_segment_package
                   _ _ _)).
  - vm_compute. reflexivity.
  - vm_compute. intros H. discriminate H.
Defined.

(** Once the header is accepted the standard decoder has no [throw] left:
    it returns, runs out of fuel, or reads outside a vector. *)
Lemma no_throw_bind {A B} (m : M A) (f : A -> M B) :
  no_throw m -> (forall a, no_throw (f a)) -> no_throw (bind m f).
Proof.
  intros Hm Hf e. destruct m as [t [a| | |]]; cbn [bind outcome_of snd].
  - specialize (Hf a e). destruct (f a). exact Hf.
  - exfalso. now apply (Hm e0).
  - discriminate.
  - discriminate.
Qed.

Lemma no_throw_read_int (width index : Z) (raw_data : bytes) :
  no_throw (read_int width index raw_data).
Proof.
  intros e. destruct (read_int_cases width index raw_data)
    as [[_ ->] | (_ & _ & ->)]; discriminate.
Qed.

Lemma no_throw_range (lo hi : Z) (l : bytes) : no_throw (range lo hi l).
Proof.
  intros e. destruct (range_cases lo hi l) as [-> | ->]; discriminate.
Qed.

Lemma no_throw_spin_loop (P : Primitives) (fuel : nat)
    (algorithm : hash_algorithm) (spin_count : Z) :
  forall buffer h_n : bytes,
    no_throw (spin_loop fuel algorithm spin_count buffer h_n).
Proof.
  induction fuel as [|fuel IH]; intros buffer h_n; rewrite spin_loop_eq;
    destruct (get_iterator buffer <? spin_count); try (intros e; discriminate).
  cbv zeta. apply no_throw_bind; [|intros b; apply IH].
  unfold copy_at. destruct (_ <=? _)%nat; intros e; discriminate.
Qed.

Lemma no_throw_standard (P : Primitives) (fuel : nat)
    (encryption_info : bytes) (info : standard_encryption_info)
    (password : list Z) (encrypted_package : bytes) :
  read_standard_header encryption_info = ([], Ok info) ->
  no_throw (decrypt_xlsx_standard fuel encryption_info password
              encrypted_package).
Proof.
  intros Hh. unfold decrypt_xlsx_standard. rewrite Hh, bind_nil_ok.
  apply no_throw_bind.
  - unfold standard_key. apply no_throw_bind.
    + apply no_throw_spin_loop.
    + intros h_n. apply no_throw_bind;
        [unfold xor_fill; destruct (_ <=? _)%nat; intros e; discriminate|].
      intros b1. apply no_throw_bind;
        [unfold xor_fill; destruct (_ <=? _)%nat; intros e; discriminate|].
      intros b2. apply no_throw_range.
  - intros key. unfold standard_package.
    apply no_throw_bind; [apply no_throw_read_int|]. intros [n i].
    apply no_throw_bind; [apply no_throw_range|]. intros payload.
    apply no_throw_bind; intros; intros e; discriminate.
Qed.


(** ** The [hashAlgorithm] of [keyData] *)

Lemma bind_ext {A B} (m : M A) (f g : A -> M B) :
  (forall a, f a = g a) -> bind m f = bind m g.
Proof.
  intros H. destruct m as [t [a| | |]]; cbn [bind]; [|reflexivity..].
  now rewrite H.
Qed.

Lemma bind_assoc {A B C} (m : M A) (f : A -> M B) (g : B -> M C) :
  bind (bind m f) g = bind m (fun a => bind (f a) g).
Proof.
  destruct m as [t [a| | |]]; cbn [bind]; [|reflexivity..].
  destruct (f a) as [t' [b| | |]]; cbn [bind]; [|reflexivity..].
  destruct (g b) as [t'' r]. now rewrite app_assoc.
Qed.

Section KeyDataHash.

Context {P : Primitives}.

(** The segment loop reads its [result] argument through [key_encryptor]
    only. *)
Lemma segment_loop_key_encryptor (r1 r2 : agile_encryption_info)
    (key encrypted_package : bytes) (salt_size : Z) (turns : nat) :
  key_encryptor r1 = key_encryptor r2 ->
  forall (i : Z) (buffer decrypted_package : bytes),
    segment_loop turns r1 key encrypted_package salt_size i buffer
      decrypted_package =
    segment_loop turns r2 key encrypted_package salt_size i buffer
      decrypted_package.
Proof.
  intros He. induction turns as [|turns IH]; intros i buffer acc;
    rewrite !segment_loop_eq; [reflexivity|]. rewrite He.
  destruct (i <? size encrypted_package); [|reflexivity].
  cbv zeta. apply bind_ext. intros segment.
  apply bind_ext. intros decrypted. apply bind_ext. intros buffer'.
  apply IH.
Qed.

Lemma agile_decrypt_key_data_hash (fuel : nat) (hash_algorithm_name : string)
    (result : agile_encryption_info) (password : list Z)
    (encrypted_package : bytes) :
  agile_decrypt fuel (with_key_data_hash hash_algorithm_name result) password
    encrypted_package =
  agile_decrypt fuel result password encrypted_package.
Proof.
  unfold agile_decrypt. apply bind_ext. intros h_n.
  apply bind_ext. intros [calculated expected].
  apply bind_ext. intros _. apply bind_ext. intros key.
  unfold agile_package.
  cbn [with_key_data_hash key_data_with_hash key_data kd_salt_size kd_salt_value].
  apply bind_ext. intros [total_size index].
  f_equal. apply segment_loop_key_encryptor. reflexivity.
Qed.

Lemma lookup_set_other (key key' value : string)
    (attributes : list (string * string)) :
  String.eqb key' key = false ->
  lookup key' (set_attribute key value attributes) = lookup key' attributes.
Proof.
  intros Hne. induction attributes as [|[k v] rest IH]; [reflexivity|].
  cbn [set_attribute map lookup fst snd] in *.
  destruct (String.eqb k key) eqn:Ek; cbn [lookup].
  - apply String.eqb_eq in Ek. subst k.
    rewrite String.eqb_sym, Hne. exact IH.
  - destruct (String.eqb k key'); [reflexivity | exact IH].
Qed.

Lemma lookup_set_same (key value : string)
    (attributes : list (string * string)) :
  lookup key (set_attribute key value attributes) =
  match lookup key attributes with
  | Some _ => Some value
  | None => None
  end.
Proof.
  induction attributes as [|[k v] rest IH]; [reflexivity|].
  cbn [set_attribute map lookup fst snd] in *.
  destruct (String.eqb k key) eqn:Ek; cbn [lookup]; rewrite Ek;
    [reflexivity | exact IH].
Qed.

Lemma attribute_set_other (key key' value ns n : string)
    (attributes : list (string * string)) (rest : list xml_event) :
  String.eqb key' key = false ->
  attribute key'
    {| pending := rest;
       current := Some (start_element ns n (set_attribute key value attributes)) |} =
  attribute key'
    {| pending := rest; current := Some (start_element ns n attributes) |}.
Proof.
  intros H. unfold attribute. cbn [attributes_of current].
  now rewrite lookup_set_other.
Qed.

Lemma attribute_size_t_set_other (key key' value ns n : string)
    (attributes : list (string * string)) (rest : list xml_event) :
  String.eqb key' key = false ->
  attribute_size_t key'
    {| pending := rest;
       current := Some (start_element ns n (set_attribute key value attributes)) |} =
  attribute_size_t key'
    {| pending := rest; current := Some (start_element ns n attributes) |}.
Proof.
  intros H. unfold attribute_size_t. now rewrite attribute_set_other.
Qed.

(** Reading [keyData] from the changed element gives the same parser and
    the same record, but for the stored name. *)
Lemma read_key_data_set (ns n value : string)
    (attributes : list (string * string)) (rest : list xml_event)
    (c : option xml_event) :
  read_key_data
    {| pending := start_element ns n
                    (set_attribute "hashAlgorithm" value attributes) :: rest;
       current := c |} =
  bind (read_key_data
          {| pending := start_element ns n attributes :: rest; current := c |})
    (fun pk => ret (fst pk, key_data_with_hash value (snd pk))).
Proof.
  unfold read_key_data, next_expect_named, next.
  cbn [pending type_of_event namespace_ name current event_type_eqb andb].
  destruct (String.eqb ns xmlns && String.eqb n "keyData"); [|reflexivity].
  rewrite !bind_ret.
  do 4 (rewrite bind_assoc, attribute_size_t_set_other by reflexivity;
        apply bind_ext; intros ?).
  do 2 (rewrite bind_assoc, attribute_set_other by reflexivity;
        apply bind_ext; intros ?).
  rewrite bind_assoc. unfold attribute at 1 3.
  cbn [attributes_of current]. rewrite lookup_set_same.
  destruct (lookup "hashAlgorithm" attributes) as [v|]; [|reflexivity].
  rewrite !bind_ret.
  rewrite bind_assoc, attribute_set_other by reflexivity.
  apply bind_ext; intros ?.
  cbn [pending]. rewrite bind_assoc. apply bind_ext. intros p'.
  rewrite bind_ret. reflexivity.
Qed.

Lemma decrypt_xlsx_agile_events_set (fuel : nat) (first : xml_event)
    (ns n value : string) (attributes : list (string * string))
    (rest : list xml_event) (password : list Z) (encrypted_package : bytes) :
  decrypt_xlsx_agile_events fuel
    (parser_of (first :: start_element ns n
                  (set_attribute "hashAlgorithm" value attributes) :: rest))
    password encrypted_package =
  decrypt_xlsx_agile_events fuel
    (parser_of (first :: start_element ns n attributes :: rest))
    password encrypted_package.
Proof.
  unfold decrypt_xlsx_agile_events, read_agile_header, parser_of.
  unfold next_expect_named at 1 3. unfold next.
  cbn [pending namespace_ name current].
  match goal with
  | |- context [if ?c then _ else _] => destruct c
  end; [|reflexivity].
  rewrite !bind_ret.
  rewrite read_key_data_set, !bind_assoc.
  apply bind_ext. intros [p kd]. rewrite bind_ret. cbn [fst snd].
  rewrite !bind_assoc. apply bind_ext. intros [p1 di].
  rewrite !bind_assoc. apply bind_ext. intros [p2 ke].
  rewrite !bind_assoc. apply bind_ext. intros p3.
  rewrite !bind_ret.
  apply (agile_decrypt_key_data_hash fuel value
           {| key_data := kd; data_integrity := di; key_encryptor := ke |}).
Qed.

End KeyDataHash.

(** C10. On the agile path the block keys and the per-segment IVs are
    computed with the hash kind of the key encryptor, and the
    [hashAlgorithm] of [keyData] is stored and not used: a decoded header in
    which only that name is changed, and an XML header in which only the
    value of that attribute is changed, decrypt to the same result with the
    same AES calls. *)
Theorem key_data_hash_unused (P : Primitives) (fuel : nat) :
  (forall (result : agile_encryption_info) (raw_key block encrypted : bytes),
     calculate_block result raw_key block encrypted =
     ([aes_cbc encrypted
         (resize (Z.to_nat (ke_key_bits (key_encryptor result) / 8))
            (hash (ke_hash (key_encryptor result)) (raw_key ++ block)))
         (ke_salt_value (key_encryptor result))],
      Ok (aes_cbc_decrypt encrypted
            (resize (Z.to_nat (ke_key_bits (key_encryptor result) / 8))
               (hash (ke_hash (key_encryptor result)) (raw_key ++ block)))
            (ke_salt_value (key_encryptor result)))))
  /\
  (forall (result : agile_encryption_info)
      (key encrypted_package salt' : bytes) (c0 : Z),
     8 <= size encrypted_package ->
     0 <= kd_salt_size (key_data result) ->
     kd_salt_size (key_data result) + 4 < 2 ^ 64 ->
     size salt' = kd_salt_size (key_data result) ->
     resize (Z.to_nat (kd_salt_size (key_data result) + 4))
       (kd_salt_value (key_data result)) = salt' ++ little_endian_u32 c0 ->
     trace_of (agile_package result key encrypted_package) =
     map (fun i =>
            aes_cbc (segment_ciphertext encrypted_package i) key
              (resize 16
                 (hash (ke_hash (key_encryptor result))
                    (salt' ++ little_endian_u32 (c0 + Z.of_nat i)))))
       (seq 0 (segment_count (length (payload encrypted_package)))))
  /\
  (forall (ns n value : string) (attributes : list (string * string))
      (rest : list xml_event) (c : option xml_event),
     read_key_data
       {| pending := start_element ns n
                       (set_attribute "hashAlgorithm" value attributes) :: rest;
          current := c |} =
     bind (read_key_data
             {| pending := start_element ns n attributes :: rest;
                current := c |})
       (fun pk => ret (fst pk, key_data_with_hash value (snd pk))))
  /\
  (forall (hash_algorithm_name : string) (result : agile_encryption_info)
      (password : list Z) (encrypted_package : bytes),
     agile_decrypt fuel (with_key_data_hash hash_algorithm_name result)
       password encrypted_package =
     agile_decrypt fuel result password encrypted_package)
  /\
  (forall (first : xml_event) (ns n value : string)
      (attributes : list (string * string)) (rest : list xml_event)
      (password : list Z) (encrypted_package : bytes),
     decrypt_xlsx_agile_events fuel
       (parser_of (first :: start_element ns n
                     (set_attribute "hashAlgorithm" value attributes) :: rest))
       password encrypted_package =
     decrypt_xlsx_agile_events fuel
       (parser_of (first :: start_element ns n attributes :: rest))
       password encrypted_package).
Proof.
  repeat split.
  - intros result key encrypted_package salt' c0 Hp H0 H64 Hs Hb.
    rewrite (agile_package_from result key encrypted_package salt' c0)
      by assumption.
    reflexivity.
  - intros. apply read_key_data_set.
  - intros. apply agile_decrypt_key_data_hash.
  - intros. apply decrypt_xlsx_agile_events_set.
Qed.

(** Two headers that differ in the [hashAlgorithm] of [keyData] only. *)
Lemma key_data_hash_unused_witness :
  @decrypt_xlsx_agile_events sample_primitives 3
    (parser_of
       (start_element (@xmlns sample_primitives) "encryption" []
        :: start_element (@xmlns sample_primitives) "keyData"
             (set_attribute "hashAlgorithm" "SHA1" sample_key_data_attributes)
        :: skipn 2 (sample_agile_events (sample_password_child "in"))))
    [112; 119] two_segment_package =
  @decrypt_xlsx_agile_events sample_primitives 3
    (parser_of
       (start_element (@xmlns sample_primitives) "encryption" []
        :: start_element (@xmlns sample_primitives) "keyData"
             sample_key_data_attributes
        :: skipn 2 (sample_agile_events (sample_password_child "in"))))
    [112; 119] two_segment_package.
Proof.
  exact (proj2 (proj2 (proj2 (proj2
           (key_data_hash_unused sample_primitives 3))))
           (start_element (@xmlns sample_primitives) "encryption" [])
           (@xmlns sample_primitives) "keyData"%string "SHA1"%string
           sample_key_data_attributes
           (skipn 2 (sample_agile_events (sample_password_child "in")))
           [112; 119] two_segment_package).
Defined.

(** ** The children of [keyEncryptor] *)

Lemma outcome_bind_ok {A B} (m : M A) (f : A -> M B) (a : A) :
  outcome_of m = Ok a -> outcome_of (bind m f) = outcome_of (f a).
Proof.
  destruct m as [t r]. cbn [outcome_of snd]. intros ->.
  cbn [bind]. destruct (f a). reflexivity.
Qed.

Lemma outcome_bind_inv {A B} (m : M A) (f : A -> M B) (b : B) :
  outcome_of (bind m f) = Ok b ->
  exists a, outcome_of m = Ok a /\ outcome_of (f a) = Ok b.
Proof.
  destruct m as [t [a| | |]]; cbn [bind outcome_of snd]; try discriminate.
  intros H. exists a. split; [reflexivity|].
  destruct (f a). exact H.
Qed.

Section KeyEncryptors.

Context {P : Primitives}.

Lemma key_encryptor_loop_eq (turns : nat) (p : parser)
    (stored : option key_encryptor_info) :
  key_encryptor_loop turns p stored =
  if negb (event_type_eqb (peek p) ev_end_element) then
    match turns with
    | O => out_of_fuel
    | S turns' =>
        bind (next_expect ev_start_element p) (fun p1 =>
        bind (if String.eqb (namespace_ p1) xmlns_p
                 && String.eqb (name p1) "encryptedKey"
              then bind (read_encrypted_key p1) (fun ke => ret (Some ke))
              else throw (xlnt_unsupported
                            "other encryption key types not supported"))
          (fun stored' =>
        bind (next_expect ev_end_element p1) (fun p2 =>
          key_encryptor_loop turns' p2 stored')))
    end
  else ret (p, stored).
Proof. destruct turns; reflexivity. Qed.

(** A child that is not the password [encryptedKey], after children that
    are: the loop throws [xlnt::unsupported]. *)
Lemma key_encryptor_loop_unsupported
    (good : list (list (string * string) * (string * string))) :
  forall (turns : nat) (p : parser) (stored : option key_encryptor_info)
         (ns n : string) (attributes : list (string * string))
         (rest : list xml_event),
    pending p = child_events good ++ start_element ns n attributes :: rest ->
    Forall readable_child good ->
    String.eqb ns xmlns_p && String.eqb n "encryptedKey" = false ->
    (length (pending p) <= turns)%nat ->
    outcome_of (key_encryptor_loop turns p stored) =
    Throw (xlnt_unsupported "other encryption key types not supported").
Proof.
  induction good as [|[a [ens en]] good IH];
    intros turns [pend cur] stored ns n attributes rest Hp Hgood Hne Hturns;
    cbn [pending] in Hp, Hturns; subst pend;
    rewrite key_encryptor_loop_eq; unfold peek; cbn [pending child_events
      flat_map app type_of_event event_type_eqb negb fst snd];
    (destruct turns as [|turns]; [cbn [length app child_events flat_map] in Hturns; lia|]);
    unfold next_expect, next;
    cbn [pending type_of_event event_type_eqb]; rewrite bind_ret;
    cbn [namespace_ name current].
  - rewrite Hne. reflexivity.
  - rewrite !String.eqb_refl. cbn [andb].
    inversion Hgood as [|? ? [ke Hke] Hgood']; subst.
    cbn [fst] in Hke. unfold encrypted_key_of in Hke.
    rewrite (outcome_bind_ok _ _ (Some ke)).
    2: { rewrite (outcome_bind_ok _ _ ke); [reflexivity | exact Hke]. }
    cbn [pending type_of_event event_type_eqb]. rewrite bind_ret.
    apply (IH turns _ (Some ke) ns n attributes rest); auto.
    cbn [pending length app child_events flat_map] in *. lia.
Qed.

(** When the loop returns, the events it has consumed are password
    children, and something has been stored as soon as there was one. *)
Lemma key_encryptor_loop_ok (turns : nat) :
  forall (p p' : parser) (stored stored' : option key_encryptor_info),
    outcome_of (key_encryptor_loop turns p stored) = Ok (p', stored') ->
    exists children,
      pending p = child_events children ++ pending p'
      /\ Forall readable_child children
      /\ peek p' = ev_end_element
      /\ (children = [] -> stored' = stored)
      /\ (children <> [] -> exists ke, stored' = Some ke).
Proof.
  induction turns as [|turns IH]; intros [pend cur] p' stored stored';
    rewrite key_encryptor_loop_eq; unfold peek; cbn [pending].
  - destruct pend as [|[ns n a|ns n|v] rest];
      cbn [type_of_event event_type_eqb negb]; try discriminate.
    intros [= <- <-]. exists []. repeat split; auto. congruence.
  - destruct pend as [|[ns n a|ns n|v] rest];
      cbn [type_of_event event_type_eqb negb];
      unfold next_expect, next; cbn [pending type_of_event event_type_eqb];
      try discriminate.
    + rewrite bind_ret. cbn [namespace_ name current].
      destruct (String.eqb ns xmlns_p && String.eqb n "encryptedKey") eqn:E;
        [|discriminate].
      apply andb_true_iff in E. destruct E as [E1 E2].
      apply String.eqb_eq in E1, E2. subst ns n.
      intros H. apply outcome_bind_inv in H. destruct H as (st & Hst & H).
      apply outcome_bind_inv in Hst. destruct Hst as (ke & Hke & Hst).
      injection Hst as <-.
      destruct rest as [|[ns n a'|ns n|v] rest];
        cbn [pending type_of_event event_type_eqb] in H; try discriminate H.
      rewrite bind_ret in H. apply IH in H.
      destruct H as (children & Hp & Hr & Hpeek & Hnil & Hcons).
      cbn [pending] in Hp.
      exists ((a, (ns, n)) :: children). repeat split.
      * cbn [child_events flat_map fst snd app]. now rewrite Hp.
      * constructor; [|exact Hr]. exists ke. exact Hke.
      * exact Hpeek.
      * discriminate.
      * intros _. destruct children as [|child children].
        -- exists ke. now apply Hnil.
        -- apply Hcons. discriminate.
    + intros [= <- <-]. exists []. repeat split; auto. congruence.
Qed.

End KeyEncryptors.

Lemma outcome_bind_throw {A B} (m : M A) (f : A -> M B) (e : exn) :
  outcome_of m = Throw e -> outcome_of (bind m f) = Throw e.
Proof.
  destruct m as [t r]. cbn [outcome_of snd]. intros ->. reflexivity.
Qed.

(** C8. In the agile header decoder, with the parser inside [keyEncryptor]:
    a child that is not the password [encryptedKey] element, reached after
    any number of password children, makes the decoder throw
    [xlnt::unsupported]; no child at all makes it throw
    "no password key in keyEncryptors"; so when the children are read
    without an exception, they are password [encryptedKey] elements, at
    least one of them. The key encryptor of a decoded header comes from
    such a reading. *)
Theorem key_encryptor_children_checked (P : Primitives) :
  (forall (p : parser)
      (good : list (list (string * string) * (string * string)))
      (ns n : string) (attributes : list (string * string))
      (rest : list xml_event),
     pending p = child_events good ++ start_element ns n attributes :: rest ->
     Forall readable_child good ->
     String.eqb ns xmlns_p && String.eqb n "encryptedKey" = false ->
     outcome_of (key_encryptor_children p) =
     Throw (xlnt_unsupported "other encryption key types not supported"))
  /\
  (forall (p : parser) (ns n : string) (rest : list xml_event),
     pending p = end_element ns n :: rest ->
     outcome_of (key_encryptor_children p) =
     Throw (c_string "no password key in keyEncryptors"))
  /\
  (forall (p p' : parser) (ke : key_encryptor_info),
     outcome_of (key_encryptor_children p) = Ok (p', ke) ->
     exists children,
       children <> []
       /\ pending p = child_events children ++ pending p'
       /\ Forall readable_child children
       /\ peek p' = ev_end_element)
  /\
  (forall (p : parser) (result : agile_encryption_info),
     outcome_of (read_agile_header p) = Ok result ->
     exists p1 p2 : parser,
       outcome_of (key_encryptor_children p1) = Ok (p2, key_encryptor result)).
Proof.
  split; [|split; [|split]].
  - intros p good ns n attributes rest Hp Hgood Hne.
    unfold key_encryptor_children. apply outcome_bind_throw.
    apply (key_encryptor_loop_unsupported good _ p None ns n attributes rest);
      auto.
  - intros [pend cur] ns n rest Hp. cbn [pending] in Hp. subst pend.
    unfold key_encryptor_children. rewrite key_encryptor_loop_eq.
    reflexivity.
  - intros p p' ke H. unfold key_encryptor_children in H.
    apply outcome_bind_inv in H. destruct H as ([p'' stored] & Hloop & H).
    destruct stored as [ke'|]; [|discriminate H].
    injection H as <- <-.
    apply key_encryptor_loop_ok in Hloop.
    destruct Hloop as (children & Hp & Hr & Hpeek & Hnil & _).
    exists children. repeat split; auto.
    intros ->. specialize (Hnil eq_refl). discriminate Hnil.
  - intros p result H. unfold read_agile_header in H.
    apply outcome_bind_inv in H. destruct H as (p0 & _ & H).
    apply outcome_bind_inv in H. destruct H as ([p1 kd] & _ & H).
    apply outcome_bind_inv in H. destruct H as ([p2 di] & _ & H).
    apply outcome_bind_inv in H. destruct H as ([p3 ke] & Hke & H).
    apply outcome_bind_inv in H. destruct H as (p4 & _ & H).
    injection H as <-. cbn [key_encryptor].
    unfold read_key_encryptor in Hke.
    apply outcome_bind_inv in Hke. destruct Hke as (q1 & _ & Hke).
    apply outcome_bind_inv in Hke. destruct Hke as (q2 & _ & Hke).
    apply outcome_bind_inv in Hke. destruct Hke as (uri & _ & Hke).
    apply outcome_bind_inv in Hke. destruct Hke as ([q3 ke'] & Hch & Hke).
    apply outcome_bind_inv in Hke. destruct Hke as (q4 & _ & Hke).
    apply outcome_bind_inv in Hke. destruct Hke as (q5 & _ & Hke).
    injection Hke as _ <-. exists q2, q3. exact Hch.
Qed.

(** A certificate child after a password child, in the sample header. *)
Lemma key_encryptor_children_checked_witness :
  outcome_of
    (@key_encryptor_children sample_primitives
       {| pending :=
            @child_events sample_primitives
              [(sample_encrypted_key_attributes "in",
                (EmptyString, "encryptedKey"%string))]
            ++ start_element
                 "http://schemas.microsoft.com/office/2006/keyEncryptor/certificate"
                 "encryptedKey" []
            :: [];
          current := None |}) =
  Throw (xlnt_unsupported "other encryption key types not supported").
Proof.
  refine (proj1 (key_encryptor_children_checked sample_primitives) _
            [(sample_encrypted_key_attributes "in",
              (EmptyString, "encryptedKey"%string))]
            _ _ [] [] _ _ _).
  - reflexivity.
  - constructor; [|constructor].
    eexists. vm_compute. reflexivity.
  - vm_compute. reflexivity.
Defined.

(** The sample headers, decoded. *)
Example sample_header_decodes :
  @read_agile_header sample_primitives
    (parser_of (sample_agile_events (sample_password_child "in"))) =
  ([], Ok (sample_agile_info "in")).
Proof. vm_compute. reflexivity. Qed.

Example sample_header_with_certificate :
  @read_agile_header sample_primitives
    (parser_of (sample_agile_events
                  (sample_password_child "in" ++ sample_certificate_child))) =
  ([], Throw (xlnt_unsupported "other encryption key types not supported")).
Proof. vm_compute. reflexivity. Qed.

Example sample_header_without_children :
  @read_agile_header sample_primitives (parser_of (sample_agile_events [])) =
  ([], Throw (c_string "no password key in keyEncryptors")).
Proof. vm_compute. reflexivity. Qed.

(** ** The dispatcher *)

Lemma land_bit (f k : Z) :
  0 <= k -> (Z.land f (2 ^ k) =? 0) = negb (Z.testbit f k).
Proof.
  intros Hk. destruct (Z.testbit f k) eqn:E; cbn [negb].
  - apply Z.eqb_neq. intros H.
    assert (Hb : Z.testbit (Z.land f (2 ^ k)) k = true)
      by (rewrite Z.land_spec, E, Z.pow2_bits_true by lia; reflexivity).
    rewrite H, Z.bits_0 in Hb. discriminate Hb.
  - apply Z.eqb_eq. apply Z.bits_inj'. intros n Hn.
    rewrite Z.land_spec, Z.bits_0.
    destruct (Z.eq_dec n k) as [->|Hne].
    + now rewrite E.
    + rewrite Z.pow2_bits_false by lia. apply andb_false_r.
Qed.

Lemma land_reserved_bits (f : Z) :
  (Z.land f 3 =? 0) = negb (Z.testbit f 0 || Z.testbit f 1).
Proof.
  destruct (Z.testbit f 0 || Z.testbit f 1) eqn:E; cbn [negb].
  - apply Z.eqb_neq. intros H. apply orb_true_iff in E.
    assert (H0 : Z.testbit (Z.land f 3) 0 = Z.testbit f 0)
      by (rewrite Z.land_spec; apply andb_true_r).
    assert (H1 : Z.testbit (Z.land f 3) 1 = Z.testbit f 1)
      by (rewrite Z.land_spec; apply andb_true_r).
    rewrite H, Z.bits_0 in H0, H1. destruct E; congruence.
  - apply Z.eqb_eq. apply orb_false_iff in E. destruct E as [E0 E1].
    apply Z.bits_inj'. intros n Hn. rewrite Z.land_spec, Z.bits_0.
    destruct (Z.eq_dec n 0) as [->|]; [now rewrite E0|].
    destruct (Z.eq_dec n 1) as [->|]; [now rewrite E1|].
    rewrite (Z.bits_above_log2 3 n) by (simpl; lia). apply andb_false_r.
Qed.

Section Dispatcher.

Context {P : Primitives}.

Lemma file_closed (st : storage) (name : string) :
  file st name = ([stream_read name], Ok (stream_or_empty st name)).
Proof.
  unfold file, stream_or_empty. destruct (pole_stream st name); reflexivity.
Qed.

Lemma read_version (encryption_info : bytes) :
  8 <= size encryption_info ->
  read_int 2 0 encryption_info = ret (version_major encryption_info, 2)
  /\ read_int 2 2 encryption_info = ret (version_minor encryption_info, 4)
  /\ read_int 4 4 encryption_info = ret (encryption_flags encryption_info, 8).
Proof.
  intros H. unfold read_int.
  destruct (Z.leb_spec (0 + 2) (size encryption_info)); [|lia].
  destruct (Z.leb_spec (2 + 2) (size encryption_info)); [|lia].
  destruct (Z.leb_spec (4 + 4) (size encryption_info)); [|lia].
  repeat split; reflexivity.
Qed.

(** The tests of the code on the version and flag words are the routing
    rule. *)
Lemma routing_tests (major minor flags : Z) {A} (agile standard : M A) :
  (if (major =? 4) && (minor =? 4) then
     if negb (flags =? 0x40)
     then throw (xlnt_exception "bad header")
     else agile
   else
   if negb (minor =? 2)
      || (negb (major =? 2) && negb (major =? 3) && negb (major =? 4))
   then throw (xlnt_exception "unsupported encryption version")
   else
   if negb (Z.land flags 3 =? 0)
   then throw (xlnt_exception "bad header")
   else
   if (Z.land flags 4 =? 0) || negb (Z.land flags 16 =? 0)
   then throw (xlnt_exception "extensible encryption is not supported")
   else
   if Z.land flags 32 =? 0
   then throw (xlnt_exception "not an OOXML document")
   else standard) =
  match routing major minor flags with
  | route_agile => agile
  | route_standard => standard
  | route_reject what => throw (xlnt_exception what)
  end.
Proof.
  unfold routing. rewrite land_reserved_bits.
  change (Z.land flags 4) with (Z.land flags (2 ^ 2)).
  change (Z.land flags 16) with (Z.land flags (2 ^ 4)).
  change (Z.land flags 32) with (Z.land flags (2 ^ 5)).
  rewrite !land_bit by lia.
  destruct (major =? 4), (minor =? 4), (flags =? 64), (minor =? 2),
    (major =? 2), (major =? 3), (Z.testbit flags 0), (Z.testbit flags 1),
    (Z.testbit flags 2), (Z.testbit flags 4), (Z.testbit flags 5);
    reflexivity.
Qed.

End Dispatcher.

(** The kind of each rejection of the routing rule: a reserved flag bit
    that is set is the corrupt-header error of the agile path, not an
    unsupported-configuration or not-this-format error. *)
Lemma routing_error_kinds (major minor flags : Z) (what : string) :
  routing major minor flags = route_reject what ->
  error_kind_of (xlnt_exception what) =
  if (major =? 4) && (minor =? 4) then corrupt_header
  else if negb ((minor =? 2)
                && ((major =? 2) || (major =? 3) || (major =? 4)))
  then unsupported_configuration
  else if Z.testbit flags 0 || Z.testbit flags 1 then corrupt_header
  else if negb (Z.testbit flags 2) || Z.testbit flags 4
  then unsupported_configuration
  else not_this_format.
Proof.
  unfold routing.
  destruct ((major =? 4) && (minor =? 4)).
  - destruct (flags =? 64); [discriminate | intros [= <-]; reflexivity].
  - destruct (negb ((minor =? 2)
                    && ((major =? 2) || (major =? 3) || (major =? 4))));
      [intros [= <-]; reflexivity|].
    destruct (Z.testbit flags 0 || Z.testbit flags 1);
      [intros [= <-]; reflexivity|].
    destruct (negb (Z.testbit flags 2) || Z.testbit flags 4);
      [intros [= <-]; reflexivity|].
    destruct (negb (Z.testbit flags 5));
      [intros [= <-]; reflexivity | discriminate].
Qed.

(** C7, amended. For a container that is not empty, opens as a compound
    document and has an [EncryptionInfo] stream of at least 8 bytes, the
    dispatcher reads the two streams and routes on the first 8 bytes of
    [EncryptionInfo] by the rule [routing]: version 4.4 is the agile path,
    and needs the flag word [0x40] (else "bad header", the corrupt-header
    error); any other version needs minor 2 and major 2, 3 or 4 (else
    "unsupported encryption version"), flag bits 0 and 1 clear (else the
    same "bad header" error), bit 2 set and bit 4 clear (else "extensible
    encryption is not supported") and bit 5 set (else "not an OOXML
    document"), and is then the standard path. The chosen decoder gets the
    stream without its first 8 bytes; every rejection is an
    [xlnt::exception]. *)
Theorem dispatcher_routing (P : Primitives) (fuel : nat) (data : bytes)
    (password : list Z) (st : storage) :
  data <> [] ->
  pole_open data = Some st ->
  8 <= size (stream_or_empty st "EncryptionInfo") ->
  let encrypted_package := stream_or_empty st "EncryptedPackage" in
  let encryption_info := stream_or_empty st "EncryptionInfo" in
  decrypt_xlsx fuel data password =
  bind (container_calls data, Ok tt) (fun _ =>
    match routing (version_major encryption_info)
            (version_minor encryption_info)
            (encryption_flags encryption_info) with
    | route_agile =>
        decrypt_xlsx_agile fuel (skipn 8 encryption_info) password
          encrypted_package
    | route_standard =>
        decrypt_xlsx_standard fuel (skipn 8 encryption_info) password
          encrypted_package
    | route_reject what => throw (xlnt_exception what)
    end).
Proof.
  intros Hdata Hopen Hsize encrypted_package encryption_info.
  destruct data as [|b data]; [contradiction|].
  unfold decrypt_xlsx. rewrite Hopen. unfold emit.
  rewrite !bind_ok. cbv beta.
  rewrite file_closed, bind_ok. cbv beta.
  rewrite file_closed, bind_ok. cbv beta.
  fold encrypted_package encryption_info.
  destruct (read_version encryption_info Hsize) as (H1 & H2 & H3).
  rewrite H1, bind_ret, H2, bind_ret, H3, bind_ret.
  rewrite (range_payload encryption_info Hsize), bind_ret.
  rewrite routing_tests. unfold payload, container_calls.
  unfold trace_of, outcome_of. cbn [fst snd app]. reflexivity.
Qed.

Lemma dispatcher_routing_witness :
  @decrypt_xlsx sample_primitives (Z.to_nat 50000) sample_container [] =
  bind (container_calls sample_container, Ok tt) (fun _ =>
    match routing
            (@version_major
               (@stream_or_empty sample_primitives sample_container
                  "EncryptionInfo"))
            (@version_minor
               (@stream_or_empty sample_primitives sample_container
                  "EncryptionInfo"))
            (@encryption_flags
               (@stream_or_empty sample_primitives sample_container
                  "EncryptionInfo")) with
    | route_agile =>
        @decrypt_xlsx_agile sample_primitives (Z.to_nat 50000)
          (skipn 8 (@stream_or_empty sample_primitives sample_container
                      "EncryptionInfo"))
          []
          (@stream_or_empty sample_primitives sample_container
             "EncryptedPackage")
    | route_standard =>
        @decrypt_xlsx_standard sample_primitives (Z.to_nat 50000)
          (skipn 8 (@stream_or_empty sample_primitives sample_container
                      "EncryptionInfo"))
          []
          (@stream_or_empty sample_primitives sample_container
             "EncryptedPackage")
    | route_reject what => throw (xlnt_exception what)
    end).
Proof.
  refine (dispatcher_routing sample_primitives (Z.to_nat 50000)
            sample_container [] sample_container _ _ _).
  - discriminate.
  - reflexivity.
  - apply Z.leb_le. vm_compute. reflexivity.
Defined.

(** C7, as stated, fails at version 4.2 with the flag word [0x25]: the
    version is accepted, the reserved bit 0 is set, and the dispatcher
    throws the exception "bad header", the one it throws on the agile path
    for a flag word other than [0x40]: a corrupt-header error, neither an
    unsupported-configuration nor a not-this-format error. *)
Lemma dispatcher_counterexample :
  @decrypt_xlsx sample_primitives 0 reserved_bit_container [] =
    (container_calls reserved_bit_container,
     Throw (xlnt_exception "bad header"))
  /\ @decrypt_xlsx sample_primitives 0 agile_flags_container [] =
       (container_calls agile_flags_container,
        Throw (xlnt_exception "bad header"))
  /\ error_kind_of (xlnt_exception "bad header") = corrupt_header
  /\ error_kind_of (xlnt_exception "bad header") <> unsupported_configuration
  /\ error_kind_of (xlnt_exception "bad header") <> not_this_format.
Proof.
  split; [vm_compute; reflexivity|]. split; [vm_compute; reflexivity|].
  split; [reflexivity|]. split; discriminate.
Qed.

(** The sample container takes the standard path and is decrypted. *)
Example sample_container_route :
  routing
    (@version_major
       (@stream_or_empty sample_primitives sample_container "EncryptionInfo"))
    (@version_minor
       (@stream_or_empty sample_primitives sample_container "EncryptionInfo"))
    (@encryption_flags
       (@stream_or_empty sample_primitives sample_container "EncryptionInfo")) =
  route_standard
  /\ skipn 8 (@stream_or_empty sample_primitives sample_container
                "EncryptionInfo") = sample_standard_header
  /\ @stream_or_empty sample_primitives sample_container "EncryptedPackage" =
     one_block_package.
Proof. vm_compute. repeat split; reflexivity. Qed.

(** C9. For every password, decrypt applied to the empty byte sequence
    throws the exception "empty file", and no call has been made to the
    compound-document reader (nor to any other collaborator) by then:
    [decrypt_xlsx] for every UTF-16 password, and the entry point
    [xlnt::detail::decrypt_xlsx], which converts its password first, for
    every password that is UTF-8. On any other byte sequence the first call
    is the one that opens the compound document. *)
Theorem empty_input_rejected (P : Primitives) (fuel : nat) :
  (forall password : list Z,
     decrypt_xlsx fuel [] password =
     ([], Throw (xlnt_exception "empty file")))
  /\
  (forall (password : string) (converted : list Z),
     utf8_to_utf16 password = Some converted ->
     detail_decrypt_xlsx fuel [] password =
     ([], Throw (xlnt_exception "empty file")))
  /\
  (forall (b : byte) (data : bytes) (password : list Z),
     exists (t : trace) (r : outcome bytes),
       decrypt_xlsx fuel (b :: data) password =
       (storage_open (b :: data) :: t, r)).
Proof.
  split; [|split].
  - intros password. reflexivity.
  - intros password converted H.
    unfold detail_decrypt_xlsx, call_utf8_to_utf16. rewrite H. reflexivity.
  - intros b data password. unfold decrypt_xlsx, emit.
    rewrite bind_ok. cbv beta. eexists. eexists. reflexivity.
Qed.

(** ** Headers the standard decoder should reject *)

(** C2: the code at a hash id that is neither 0 nor [0x8004]. The test of
    the hash id is [alg_id_hash != 0x8004 && alg_id_hash == 0]. The header
    [sample_header_sha256], whose hash id is [0x800C], is decoded as if its
    hash were SHA-1 and the package is decrypted; the header with the hash
    id 0 is the one that is rejected; and the exception
    "invalid hash algorithm" is thrown for no header whose hash id is not
    0. *)
Theorem hash_id_check :
  read_standard_header sample_header_sha256 = ([], Ok sample_standard_info)
  /\ read_standard_header sample_header_hash_zero =
     ([], Throw (xlnt_exception "invalid hash algorithm"))
  /\ (forall encryption_info : bytes,
        outcome_of (read_standard_header encryption_info) =
          Throw (xlnt_exception "invalid hash algorithm") ->
        little_endian (slice 16 20 encryption_info) = 0)
  /\ (forall (P : Primitives) (password : list Z),
        exists (t : trace) (decrypted : bytes),
          decrypt_xlsx_standard (Z.to_nat 50000) sample_header_sha256
            password one_block_package = (t, Ok decrypted)).
Proof.
  assert (Hh : read_standard_header sample_header_sha256 =
               ([], Ok sample_standard_info)) by (vm_compute; reflexivity).
  split; [exact Hh|]. split; [vm_compute; reflexivity|].
  split; [exact invalid_hash_only_for_zero|].
  intros P password. eexists. eexists.
  apply (decrypt_xlsx_standard_closed (Z.to_nat 50000) sample_header_sha256
           sample_standard_info password one_block_package Hh).
  - apply Z.leb_le. vm_compute. reflexivity.
  - apply Nat.le_refl.
  - apply Z.leb_le. vm_compute. reflexivity.
Qed.

Lemma short_header_out_of_bounds (encryption_info : bytes) :
  size encryption_info < 16 ->
  read_standard_header encryption_info = ([], OutOfBounds).
Proof.
  intros Hs. unfold read_standard_header.
  do 4 (walk_step; [reflexivity|]). lia.
Qed.

Lemma truncated_header_outcomes (encryption_info : bytes) :
  size encryption_info < 36 ->
  forall r, outcome_of (read_standard_header encryption_info) = r ->
  r = OutOfBounds
  \/ exists what,
       r = Throw (xlnt_exception what)
       /\ In what ["invalid cipher algorithm"; "invalid hash algorithm";
                   "invalid provider type"]%string.
Proof.
  intros Hs r. unfold read_standard_header.
  do 4 (walk_step; [intros <-; left; reflexivity|]).
  walk_step;
    [|intros <-; right; eexists; split; [reflexivity | simpl; auto]].
  walk_step; [intros <-; left; reflexivity|].
  walk_step;
    [intros <-; right; eexists; split; [reflexivity | simpl; auto]|].
  do 2 (walk_step; [intros <-; left; reflexivity|]).
  walk_step;
    [intros <-; right; eexists; split; [reflexivity | simpl; auto]|].
  do 2 (walk_step; [intros <-; left; reflexivity|]). lia.
Qed.

Section ShortInfoStream.

Context {P : Primitives}.

(** An [EncryptionInfo] stream of fewer than 8 bytes (an absent stream
    included): the dispatcher reads outside it right after it has read the
    two streams. *)
Lemma short_info_stream_out_of_bounds (fuel : nat) (data : bytes)
    (password : list Z) (st : storage) :
  data <> [] ->
  pole_open data = Some st ->
  size (stream_or_empty st "EncryptionInfo") < 8 ->
  decrypt_xlsx fuel data password = (container_calls data, OutOfBounds).
Proof.
  intros Hdata Hopen Hs.
  destruct data as [|b data]; [contradiction|].
  unfold decrypt_xlsx. rewrite Hopen. unfold emit.
  rewrite !bind_ok. cbv beta.
  rewrite file_closed, bind_ok. cbv beta.
  rewrite file_closed, bind_ok. cbv beta.
  unfold container_calls, trace_of, outcome_of.
  repeat walk_step; try reflexivity. lia.
Qed.

End ShortInfoStream.

Lemma read_int_in_bounds (width index : Z) (raw_data : bytes) :
  0 <= index -> index + width <= size raw_data ->
  read_int width index raw_data =
  ret (little_endian (slice index (index + width) raw_data), index + width).
Proof.
  intros H0 H1. unfold read_int.
  destruct (Z.leb_spec 0 index); [|lia].
  destruct (Z.leb_spec (index + width) (size raw_data)); [|lia].
  reflexivity.
Qed.

Lemma range_in_bounds (lo hi : Z) (l : bytes) :
  0 <= lo -> lo <= hi -> hi <= size l -> range lo hi l = ret (slice lo hi l).
Proof.
  intros H0 H1 H2. unfold range.
  destruct (Z.leb_spec 0 lo); [|lia].
  destruct (Z.leb_spec lo hi); [|lia].
  destruct (Z.leb_spec hi (size l)); [|lia].
  reflexivity.
Qed.

Lemma size_t_small (z : Z) : 0 <= z < 2 ^ 64 -> size_t z = z.
Proof. intros H. unfold size_t. now rewrite Z.mod_small. Qed.

Lemma uint16s_nonempty (l : bytes) : (2 <= length l)%nat -> uint16s l <> [].
Proof.
  destruct l as [|a [|b l]]; cbn [length uint16s]; try lia. discriminate.
Qed.

Ltac read_in_bounds :=
  rewrite read_int_in_bounds by lia; rewrite bind_ret; cbv beta iota.

Ltac pass_guard :=
  walk_step; [try (intros H; discriminate H) | try (intros H; discriminate H)].

Lemma slice_length (lo hi : Z) (l : bytes) :
  0 <= lo -> lo <= hi -> hi <= size l ->
  length (slice lo hi l) = Z.to_nat (hi - lo).
Proof.
  intros H0 H1 H2. unfold slice, size in *.
  rewrite length_firstn, length_skipn. lia.
Qed.

Lemma standard_header_in_bounds (encryption_info : bytes) :
  standard_header_fits encryption_info ->
  outcome_of (read_standard_header encryption_info) <> OutOfBounds.
Proof.
  unfold standard_header_fits. cbv zeta.
  set (hl := little_endian (slice 0 4 encryption_info)).
  set (ss := little_endian (slice (hl + 4) (hl + 8) encryption_info)).
  set (vhs := little_endian
                (slice (hl + 8 + ss + 16) (hl + 8 + ss + 20) encryption_info)).
  intros (H36 & Hhl & Hsalt & Hhash & Hend).
  pose proof (field_range 0 4 encryption_info ltac:(lia)) as Rhl.
  pose proof (field_range (hl + 4) 4 encryption_info ltac:(lia)) as Rss.
  pose proof (field_range (hl + 8 + ss + 16) 4 encryption_info ltac:(lia))
    as Rvhs.
  change (0 + 4) with 4 in Rhl. fold hl in Rhl.
  replace (hl + 4 + 4) with (hl + 8) in Rss by lia. fold ss in Rss.
  replace (hl + 8 + ss + 16 + 4) with (hl + 8 + ss + 20) in Rvhs by lia.
  fold vhs in Rvhs.
  unfold read_standard_header.
  do 4 read_in_bounds. pass_guard.
  read_in_bounds. pass_guard.
  do 2 read_in_bounds. pass_guard.
  do 2 read_in_bounds. pass_guard.
  change (0 + 4 + 4 + 4 + 4 + 4 + 4 + 4 + 4 + 4) with 36.
  change (0 + 4) with 4. change (36 - 4) with 32. fold hl.
  rewrite (size_t_small (hl - 32)) by lia.
  replace (36 + (hl - 32)) with (hl + 4) by lia.
  rewrite (size_t_small (hl + 4)) by lia.
  rewrite (ptrdiff_t_small 36), (ptrdiff_t_small (hl + 4)) by lia.
  rewrite range_in_bounds, bind_ret by lia.
  destruct (uint16s (slice 36 (hl + 4) encryption_info)) eqn:Ew.
  { exfalso. apply (uint16s_nonempty (slice 36 (hl + 4) encryption_info));
      [rewrite slice_length by lia; lia | exact Ew]. }
  rewrite bind_ret. pass_guard.
  read_in_bounds.
  replace (hl + 4 + 4) with (hl + 8) by lia. fold ss.
  rewrite (size_t_small (hl + 8 + ss)) by lia.
  rewrite (size_t_small (hl + 8 + ss + 16)) by lia.
  rewrite (ptrdiff_t_small (hl + 8)), (ptrdiff_t_small (hl + 8 + ss)),
    (ptrdiff_t_small (hl + 8 + ss + 16)) by lia.
  rewrite range_in_bounds, bind_ret by lia.
  rewrite range_in_bounds, bind_ret by lia.
  read_in_bounds.
  replace (hl + 8 + ss + 16 + 4) with (hl + 8 + ss + 20) by lia. fold vhs.
  rewrite (ptrdiff_t_small (hl + 8 + ss + 20)),
    (ptrdiff_t_small (hl + 8 + ss + 20 + vhs)) by lia.
  rewrite range_in_bounds, bind_ret by lia.
  intros H; discriminate H.
Qed.

(** The header reader calls no collaborator and has no loop. *)
Lemma read_standard_header_outcomes (encryption_info : bytes) :
  exists r : outcome standard_encryption_info,
    read_standard_header encryption_info = ([], r) /\ r <> OutOfFuel.
Proof.
  unfold read_standard_header.
  repeat (walk_step;
          try (eexists; split; [reflexivity | discriminate])).
Qed.

Lemma read_standard_header_key_bytes (encryption_info : bytes) (t : trace)
    (info : standard_encryption_info) :
  read_standard_header encryption_info = (t, Ok info) ->
  std_key_bytes info = little_endian (slice 20 24 encryption_info) / 8.
Proof.
  unfold read_standard_header.
  repeat (walk_step; try discriminate).
  intros [= _ <-]. reflexivity.
Qed.

Section FittingHeader.

Context {P : Primitives}.

(** The standard decoder on a header that fits: every read of the header,
    of the derived key and of the package is within its buffer. *)
Lemma decrypt_xlsx_standard_in_bounds (fuel : nat) (encryption_info : bytes)
    (password : list Z) (encrypted_package : bytes) :
  standard_header_fits encryption_info ->
  little_endian (slice 20 24 encryption_info) <= 320 ->
  (Z.to_nat 50000 <= fuel)%nat ->
  8 <= size encrypted_package ->
  outcome_of (decrypt_xlsx_standard fuel encryption_info password
                encrypted_package) <> OutOfBounds.
Proof.
  intros Hfits Hbits Hfuel Hpkg.
  pose proof (standard_header_in_bounds encryption_info Hfits) as Hin.
  destruct (read_standard_header_outcomes encryption_info) as (r & Hr & Hnf).
  rewrite Hr in Hin. cbn [outcome_of snd] in Hin.
  destruct r as [info | e | | ].
  - rewrite (decrypt_xlsx_standard_closed fuel encryption_info info password
               encrypted_package Hr); [discriminate | | exact Hfuel | exact Hpkg].
    rewrite (read_standard_header_key_bytes _ _ _ Hr).
    apply Z.div_le_upper_bound; lia.
  - unfold decrypt_xlsx_standard. rewrite Hr. discriminate.
  - contradiction.
  - contradiction.
Qed.

End FittingHeader.

Example sample_standard_header_fits :
  standard_header_fits sample_standard_header.
Proof.
  unfold standard_header_fits. cbv zeta.
  repeat split; apply Z.leb_le; vm_compute; reflexivity.
Qed.

(** * Further properties of the code *)

(** ** Exceptions *)

Lemma throws_only_bind {A B} (allowed : exn -> Prop) (m : M A)
    (f : A -> M B) :
  throws_only allowed m -> (forall a, throws_only allowed (f a)) ->
  throws_only allowed (bind m f).
Proof.
  intros Hm Hf e. destruct m as [t [a | e' | | ]]; cbn [bind].
  - specialize (Hf a e). destruct (f a) as [t' r]. exact Hf.
  - intros [= <-]. apply (Hm e'). reflexivity.
  - discriminate.
  - discriminate.
Qed.

Lemma throws_only_no_throw {A} (allowed : exn -> Prop) (m : M A) :
  no_throw m -> throws_only allowed m.
Proof. intros H e He. destruct (H e He). Qed.

Lemma throws_only_weaken {A} (allowed allowed' : exn -> Prop) (m : M A) :
  (forall e, allowed e -> allowed' e) ->
  throws_only allowed m -> throws_only allowed' m.
Proof. intros H Hm e He. apply H, Hm, He. Qed.

Lemma throws_only_ret {A} (allowed : exn -> Prop) (a : A) :
  throws_only allowed (ret a).
Proof. intros e H. discriminate H. Qed.

Lemma throws_only_throw {A} (allowed : exn -> Prop) (e : exn) :
  allowed e -> throws_only allowed (@throw A e).
Proof. intros H e' [= <-]. exact H. Qed.

Lemma throws_only_out_of_bounds {A} (allowed : exn -> Prop) :
  throws_only allowed (@out_of_bounds A).
Proof. intros e H. discriminate H. Qed.

Lemma throws_only_out_of_fuel {A} (allowed : exn -> Prop) :
  throws_only allowed (@out_of_fuel A).
Proof. intros e H. discriminate H. Qed.

Lemma throws_only_read_int (allowed : exn -> Prop) (width index : Z)
    (raw_data : bytes) :
  throws_only allowed (read_int width index raw_data).
Proof. apply throws_only_no_throw, no_throw_read_int. Qed.

Lemma throws_only_range (allowed : exn -> Prop) (lo hi : Z) (l : bytes) :
  throws_only allowed (range lo hi l).
Proof. apply throws_only_no_throw, no_throw_range. Qed.

(** One step of a proof that a straight-line computation throws only
    allowed exceptions. *)
Ltac throws_step :=
  lazymatch goal with
  | |- throws_only _ (bind _ _) => apply throws_only_bind; [|intros ?]
  | |- throws_only _ (match ?x with (_, _) => _ end) => destruct x
  | |- throws_only _ (if ?c then _ else _) => destruct c
  | |- throws_only _ (ret _) => apply throws_only_ret
  | |- throws_only _ out_of_bounds => apply throws_only_out_of_bounds
  | |- throws_only _ out_of_fuel => apply throws_only_out_of_fuel
  | |- throws_only _ (read_int _ _ _) => apply throws_only_read_int
  | |- throws_only _ (range _ _ _) => apply throws_only_range
  | |- throws_only _ (throw _) => apply throws_only_throw
  end.

(** ** The standard header, decoded *)

Lemma range_cases_bounds (lo hi : Z) (l : bytes) :
  range lo hi l = out_of_bounds
  \/ (0 <= lo /\ lo <= hi /\ hi <= size l /\ range lo hi l = ret (slice lo hi l)).
Proof.
  unfold range.
  destruct (Z.leb_spec 0 lo); [|left; reflexivity].
  destruct (Z.leb_spec lo hi); [|left; reflexivity].
  destruct (Z.leb_spec hi (size l)); [|left; reflexivity].
  right. repeat split; assumption.
Qed.

Lemma uint16s_cons (l : bytes) (z : Z) (zs : list Z) :
  uint16s l = z :: zs -> (2 <= length l)%nat.
Proof.
  destruct l as [|a [|b l]]; cbn [uint16s length]; try discriminate. lia.
Qed.

Lemma bytes_eqb_eq (a b : bytes) : bytes_eqb a b = true <-> a = b.
Proof.
  unfold bytes_eqb. destruct (list_eq_dec Byte.byte_eq_dec a b); split;
    try discriminate; auto.
Qed.

(** The end of the provider name, for every value of the header length:
    the subtraction and the addition are those of [std::size_t]. *)
Lemma provider_name_end (hl : Z) :
  0 <= hl < 2 ^ 32 ->
  size_t (36 + size_t (hl - 32)) = hl + 4
  /\ ptrdiff_t (36 + size_t (hl - 32)) = hl + 4.
Proof.
  intros H.
  assert (E : size_t (36 + size_t (hl - 32)) = hl + 4).
  { unfold size_t. rewrite Zplus_mod_idemp_r.
    replace (36 + (hl - 32)) with (hl + 4) by lia.
    apply Z.mod_small. lia. }
  split; [exact E|]. unfold ptrdiff_t. rewrite E.
  destruct (Z.ltb_spec (hl + 4) (2 ^ 63)); lia.
Qed.

(** Sums and differences of literals, as the threading of [offset] through
    the reads leaves them. *)
Ltac closed_sums :=
  repeat match goal with
         | |- context [Z.pos ?a + Z.pos ?b] =>
             let v := eval compute in (Z.pos a + Z.pos b) in
             change (Z.pos a + Z.pos b) with v
         | |- context [Z.pos ?a - Z.pos ?b] =>
             let v := eval compute in (Z.pos a - Z.pos b) in
             change (Z.pos a - Z.pos b) with v
         | |- context [0 + Z.pos ?b] => change (0 + Z.pos b) with (Z.pos b)
         end.

Ltac fixed_read :=
  closed_sums;
  lazymatch goal with
  | |- context [bind (read_int ?w ?i ?d) _] =>
      let E := fresh "E" in
      let B := fresh "B" in
      destruct (read_int_cases w i d) as [[_ E] | (_ & B & E)];
      rewrite E;
      [rewrite bind_out_of_bounds; clear E; intros E; discriminate E
      | rewrite bind_ret; cbv beta iota; clear E]
  end; closed_sums.

Ltac passed_guard :=
  lazymatch goal with
  | |- context [bind (if ?c then throw _ else ret _) _] =>
      let G := fresh "G" in
      destruct c eqn:G;
      [rewrite bind_throw; clear G; intros G; discriminate G
      | rewrite bind_ret; cbv beta iota]
  | |- context [bind (if ?c then ret _ else throw _) _] =>
      let G := fresh "G" in
      destruct c eqn:G;
      [rewrite bind_ret; cbv beta iota
      | rewrite bind_throw; clear G; intros G; discriminate G]
  end.

Ltac bounded_range :=
  lazymatch goal with
  | |- context [bind (range ?lo ?hi ?l) _] =>
      let E := fresh "E" in
      let B := fresh "B" in
      destruct (range_cases_bounds lo hi l) as [E | B];
      [rewrite E, bind_out_of_bounds; clear E; intros E; discriminate E
      | destruct B as (_ & ? & ? & E); rewrite E, bind_ret; cbv beta iota;
        clear E]
  end.

Lemma read_standard_header_decoded (encryption_info : bytes) (t : trace)
    (info : standard_encryption_info) :
  read_standard_header encryption_info = (t, Ok info) ->
  let field := fun i => little_endian (slice i (i + 4) encryption_info) in
  let header_length := field 0 in
  let salt_size := field (header_length + 4) in
  let verifier_hash_size := field (header_length + 8 + salt_size + 16) in
  let provider :=
    map byte_of_Z
      (removelast (uint16s (slice 36 (header_length + 4) encryption_info))) in
  standard_header_fits encryption_info
  /\ ((field 12 =? 0) || (field 12 =? 0x660E) || (field 12 =? 0x660F)
      || (field 12 =? 0x6610) = true)
  /\ (negb (field 16 =? 0x8004) && (field 16 =? 0) = false)
  /\ (negb (field 24 =? 0) && negb (field 24 =? 0x18) = false)
  /\ (negb (field 32 =? 0) = false)
  /\ (negb (bytes_eqb provider (list_byte_of_string csp_prototype))
      && negb (bytes_eqb provider (list_byte_of_string csp_enhanced)) = false)
  /\ info =
     {| std_spin_count := 50000;
        std_key_bits := field 20;
        std_key_bytes := field 20 / 8;
        std_cipher := cipher_aes;
        std_hash := hash_sha1;
        std_salt :=
          slice (header_length + 8) (header_length + 8 + salt_size)
            encryption_info;
        std_verifier_hash_input :=
          slice (header_length + 8 + salt_size)
            (header_length + 8 + salt_size + 16) encryption_info;
        std_verifier_hash_value :=
          slice (header_length + 8 + salt_size + 20)
            (header_length + 8 + salt_size + 20 + verifier_hash_size)
            encryption_info |}.
Proof.
  cbv zeta. closed_sums.
  set (hl := little_endian (slice 0 4 encryption_info)).
  replace (hl + 4 + 4) with (hl + 8) by lia.
  set (ss := little_endian (slice (hl + 4) (hl + 8) encryption_info)).
  replace (hl + 8 + ss + 16 + 4) with (hl + 8 + ss + 20) by lia.
  set (vhs := little_endian
                (slice (hl + 8 + ss + 16) (hl + 8 + ss + 20)
                   encryption_info)).
  assert (Rhl : 0 <= hl < 2 ^ 32)
    by apply (field_range 0 4 encryption_info ltac:(lia)).
  assert (Rss : 0 <= ss < 2 ^ 32).
  { pose proof (field_range (hl + 4) 4 encryption_info ltac:(lia)) as R.
    replace (hl + 4 + 4) with (hl + 8) in R by lia. exact R. }
  assert (Rvhs : 0 <= vhs < 2 ^ 32).
  { pose proof (field_range (hl + 8 + ss + 16) 4 encryption_info ltac:(lia))
      as R.
    replace (hl + 8 + ss + 16 + 4) with (hl + 8 + ss + 20) in R by lia.
    exact R. }
  unfold read_standard_header.
  do 4 fixed_read. passed_guard.
  fixed_read. passed_guard.
  do 2 fixed_read. passed_guard.
  do 2 fixed_read. passed_guard.
  change (little_endian (slice 0 4 encryption_info)) with hl.
  destruct (provider_name_end hl Rhl) as [Es Ep]. rewrite Es, Ep.
  change (ptrdiff_t 36) with 36.
  bounded_range.
  destruct (uint16s (slice 36 (hl + 4) encryption_info)) as [|z zs] eqn:Ew;
    [rewrite bind_out_of_bounds; intros E; discriminate E|].
  rewrite bind_ret. cbv beta iota.
  assert (Hname : 34 <= hl).
  { apply uint16s_cons in Ew. rewrite slice_length in Ew by lia. lia. }
  passed_guard.
  fixed_read. replace (hl + 4 + 4) with (hl + 8) by lia. fold ss.
  rewrite (size_t_small (hl + 8 + ss)) by lia.
  rewrite (size_t_small (hl + 8 + ss + 16)) by lia.
  rewrite (ptrdiff_t_small (hl + 8)), (ptrdiff_t_small (hl + 8 + ss)),
    (ptrdiff_t_small (hl + 8 + ss + 16)) by lia.
  do 2 bounded_range.
  fixed_read.
  replace (hl + 8 + ss + 16 + 4) with (hl + 8 + ss + 20) by lia. fold vhs.
  rewrite (ptrdiff_t_small (hl + 8 + ss + 20)),
    (ptrdiff_t_small (hl + 8 + ss + 20 + vhs)) by lia.
  bounded_range.
  intros [= _ <-].
  split.
  { unfold standard_header_fits. cbv zeta. fold hl. fold ss. fold vhs. lia. }
  repeat split; reflexivity.
Qed.

(** X2. A standard header that the decoder accepts has passed every test of
    the code: the cipher id is 0, [0x660E], [0x660F] or [0x6610]; the hash
    id is not 0; the provider type is 0 or [0x18]; the second reserved word
    is 0; and the low bytes of the UTF-16 code units of the provider name,
    its last code unit left out, spell one of the two provider names. The
    decoded record then has the cipher AES, the hash SHA-1, the spin count
    50000 and the key size of the header, in bits and in whole bytes. *)
Theorem accepted_standard_header (encryption_info : bytes) (t : trace)
    (info : standard_encryption_info) :
  read_standard_header encryption_info = (t, Ok info) ->
  let field := fun i => little_endian (slice i (i + 4) encryption_info) in
  let provider :=
    map byte_of_Z
      (removelast (uint16s (slice 36 (field 0 + 4) encryption_info))) in
  In (field 12) [0; 0x660E; 0x660F; 0x6610]
  /\ field 16 <> 0
  /\ In (field 24) [0; 0x18]
  /\ field 32 = 0
  /\ (provider = list_byte_of_string csp_prototype
      \/ provider = list_byte_of_string csp_enhanced)
  /\ std_cipher info = cipher_aes
  /\ std_hash info = hash_sha1
  /\ std_spin_count info = 50000
  /\ std_key_bits info = field 20
  /\ std_key_bytes info = field 20 / 8.
Proof.
  intros H.
  destruct (read_standard_header_decoded _ _ _ H)
    as (_ & Hc & Hh & Hp & Hr & Hn & ->).
  cbv zeta. cbn [std_cipher std_hash std_spin_count std_key_bits std_key_bytes].
  repeat split.
  - rewrite !orb_true_iff, !Z.eqb_eq in Hc. cbn [In].
    intuition (auto using eq_sym).
  - intros E. rewrite E in Hh. discriminate Hh.
  - apply andb_false_iff in Hp. rewrite !negb_false_iff, !Z.eqb_eq in Hp.
    cbn [In]. intuition (auto using eq_sym).
  - apply negb_false_iff, Z.eqb_eq in Hr. exact Hr.
  - apply andb_false_iff in Hn. rewrite !negb_false_iff, !bytes_eqb_eq in Hn.
    exact Hn.
Qed.

Lemma accepted_standard_header_witness :
  In (little_endian (slice 12 (12 + 4) sample_standard_header))
    [0; 0x660E; 0x660F; 0x6610]
  /\ little_endian (slice 16 (16 + 4) sample_standard_header) <> 0
  /\ In (little_endian (slice 24 (24 + 4) sample_standard_header)) [0; 0x18]
  /\ little_endian (slice 32 (32 + 4) sample_standard_header) = 0
  /\ (map byte_of_Z
        (removelast
           (uint16s
              (slice 36
                 (little_endian (slice 0 (0 + 4) sample_standard_header) + 4)
                 sample_standard_header))) =
      list_byte_of_string csp_prototype
      \/ map byte_of_Z
           (removelast
              (uint16s
                 (slice 36
                    (little_endian (slice 0 (0 + 4) sample_standard_header) + 4)
                    sample_standard_header))) =
         list_byte_of_string csp_enhanced)
  /\ std_cipher sample_standard_info = cipher_aes
  /\ std_hash sample_standard_info = hash_sha1
  /\ std_spin_count sample_standard_info = 50000
  /\ std_key_bits sample_standard_info =
     little_endian (slice 20 (20 + 4) sample_standard_header)
  /\ std_key_bytes sample_standard_info =
     little_endian (slice 20 (20 + 4) sample_standard_header) / 8.
Proof.
  apply (accepted_standard_header sample_standard_header []
           sample_standard_info).
  vm_compute. reflexivity.
Defined.

(** X3. A standard header is accepted only if what its fields announce
    lies within the buffer ([standard_header_fits]), and the decoded record
    then holds the bytes at the offsets the fields give: with [h] the
    header length and [s] the salt size read at [h + 4], the salt is at
    [h + 8], the 16-byte verifier follows it, and the verifier hash, of the
    size read after the verifier, follows that size. *)
Theorem accepted_header_layout (encryption_info : bytes) (t : trace)
    (info : standard_encryption_info) :
  read_standard_header encryption_info = (t, Ok info) ->
  let field := fun i => little_endian (slice i (i + 4) encryption_info) in
  let h := field 0 in
  let s := field (h + 4) in
  let v := field (h + 8 + s + 16) in
  standard_header_fits encryption_info
  /\ std_salt info = slice (h + 8) (h + 8 + s) encryption_info
  /\ std_verifier_hash_input info =
     slice (h + 8 + s) (h + 8 + s + 16) encryption_info
  /\ std_verifier_hash_value info =
     slice (h + 8 + s + 20) (h + 8 + s + 20 + v) encryption_info
  /\ size (std_salt info) = s
  /\ size (std_verifier_hash_input info) = 16
  /\ size (std_verifier_hash_value info) = v.
Proof.
  intros H.
  destruct (read_standard_header_decoded _ _ _ H)
    as (Hfits & _ & _ & _ & _ & _ & ->).
  cbv zeta.
  cbn [std_salt std_verifier_hash_input std_verifier_hash_value].
  split; [exact Hfits|]. do 3 (split; [reflexivity|]).
  unfold standard_header_fits in Hfits. cbv zeta in Hfits.
  change (0 + 4) with 4.
  set (h := little_endian (slice 0 4 encryption_info)) in *.
  replace (h + 4 + 4) with (h + 8) by lia.
  set (s := little_endian (slice (h + 4) (h + 8) encryption_info)) in *.
  replace (h + 8 + s + 16 + 4) with (h + 8 + s + 20) by lia.
  set (v := little_endian
              (slice (h + 8 + s + 16) (h + 8 + s + 20) encryption_info)) in *.
  assert (Rs : 0 <= s).
  { pose proof (field_range (h + 4) 4 encryption_info ltac:(lia)) as R.
    replace (h + 4 + 4) with (h + 8) in R by lia. apply R. }
  assert (Rv : 0 <= v).
  { pose proof (field_range (h + 8 + s + 16) 4 encryption_info ltac:(lia))
      as R.
    replace (h + 8 + s + 16 + 4) with (h + 8 + s + 20) in R by lia. apply R. }
  unfold size at 1 2 3. rewrite !slice_length by lia. lia.
Qed.

Lemma accepted_header_layout_witness :
  standard_header_fits sample_standard_header
  /\ std_salt sample_standard_info =
     slice (little_endian (slice 0 (0 + 4) sample_standard_header) + 8)
       (little_endian (slice 0 (0 + 4) sample_standard_header) + 8
        + little_endian
            (slice (little_endian (slice 0 (0 + 4) sample_standard_header) + 4)
               (little_endian (slice 0 (0 + 4) sample_standard_header) + 4 + 4)
               sample_standard_header))
       sample_standard_header.
Proof.
  pose proof (accepted_header_layout sample_standard_header []
                sample_standard_info) as H.
  cbv zeta in H. split; apply H; vm_compute; reflexivity.
Defined.

(** ** The exceptions of the standard decoder *)

Lemma standard_exception_message (what : string) :
  In what standard_header_messages ->
  standard_exception (xlnt_exception what).
Proof. intros H. exists what. split; [reflexivity | exact H]. Qed.

Lemma read_standard_header_throws (encryption_info : bytes) :
  throws_only standard_exception (read_standard_header encryption_info).
Proof.
  unfold read_standard_header.
  repeat first
    [ throws_step
    | match goal with
      | |- throws_only _ (match ?l with [] => _ | _ :: _ => _ end) =>
          destruct l
      | |- standard_exception _ =>
          apply standard_exception_message; cbn [In standard_header_messages];
          auto 10
      end ].
Qed.

(** X4. Every [xlnt::exception] that the standard decoder throws is one
    of the five errors of its header reader ("invalid cipher algorithm",
    "invalid hash algorithm", "invalid provider type", "invalid header",
    "invalid cryptographic provider"), thrown by that reader before any
    call to AES. The password is not verified: once the header is accepted
    the decoder throws no [xlnt::exception], and "bad password" is never
    thrown. (An exception of the standard library, such as a failed
    allocation, is not an [xlnt::exception].) *)
Theorem standard_decoder_exceptions (P : Primitives) (fuel : nat)
    (encryption_info : bytes) (password : list Z) (encrypted_package : bytes)
    (what : string) :
  outcome_of (decrypt_xlsx_standard fuel encryption_info password
                encrypted_package) = Throw (xlnt_exception what) ->
  In what standard_header_messages
  /\ read_standard_header encryption_info =
     ([], Throw (xlnt_exception what))
  /\ decrypt_xlsx_standard fuel encryption_info password encrypted_package =
     ([], Throw (xlnt_exception what))
  /\ what <> "bad password"%string.
Proof.
  intros He.
  destruct (read_standard_header_outcomes encryption_info) as (r & Hr & _).
  destruct r as [info | e' | | ].
  - destruct (no_throw_standard P fuel encryption_info info password
                encrypted_package Hr _ He).
  - assert (Hd : decrypt_xlsx_standard fuel encryption_info password
                   encrypted_package = ([], Throw e'))
      by (unfold decrypt_xlsx_standard; rewrite Hr; reflexivity).
    rewrite Hd in He. injection He as ->.
    assert (Hs : standard_exception (xlnt_exception what)).
    { apply (read_standard_header_throws encryption_info). rewrite Hr.
      reflexivity. }
    destruct Hs as (what' & [= <-] & Hin).
    repeat split; try assumption.
    intros ->. cbn [In standard_header_messages] in Hin.
    repeat (destruct Hin as [Hin | Hin]; [discriminate Hin|]). exact Hin.
  - unfold decrypt_xlsx_standard in He. rewrite Hr in He. discriminate He.
  - unfold decrypt_xlsx_standard in He. rewrite Hr in He. discriminate He.
Qed.

Lemma standard_decoder_exceptions_witness :
  In "invalid hash algorithm"%string standard_header_messages
  /\ read_standard_header sample_header_hash_zero =
     ([], Throw (xlnt_exception "invalid hash algorithm"))
  /\ @decrypt_xlsx_standard sample_primitives 0 sample_header_hash_zero []
       one_block_package =
     ([], Throw (xlnt_exception "invalid hash algorithm"))
  /\ "invalid hash algorithm"%string <> "bad password"%string.
Proof.
  apply (standard_decoder_exceptions sample_primitives 0
           sample_header_hash_zero [] one_block_package).
  vm_compute. reflexivity.
Defined.

(** ** The size of the key of the standard scheme *)

Section StandardKeySize.

Context {P : Primitives}.

Lemma standard_key_oversized (fuel : nat) (info : standard_encryption_info)
    (password : list Z) :
  std_spin_count info = 50000 ->
  (Z.to_nat 50000 <= fuel)%nat ->
  2 * Z.of_nat (digest_length (std_hash info)) < std_key_bytes info < 2 ^ 63 ->
  standard_key fuel info password = out_of_bounds.
Proof.
  intros Hspin Hfuel Hkey. unfold standard_key.
  rewrite generate_h_n_chain, bind_ret by (rewrite Hspin; lia).
  pose proof (digest_length_bound (std_hash info)) as Hd.
  rewrite xor_fill_padded, bind_ret by (rewrite hash_length; lia).
  rewrite xor_fill_padded, bind_ret by (rewrite hash_length; lia).
  unfold range. rewrite ptrdiff_t_small by lia.
  unfold size. rewrite length_app, !hash_length.
  destruct (Z.leb_spec (std_key_bytes info)
              (Z.of_nat (digest_length (std_hash info)
                         + digest_length (std_hash info)))); [lia|].
  rewrite andb_false_r. reflexivity.
Qed.

End StandardKeySize.

(** X5. The key of the standard scheme is the first [KeySize / 8] bytes of
    the 40 bytes [X1 ++ X2], taken without a test of the size: for an
    accepted header whose key size is at most 327 bits the derived key has
    exactly [KeySize / 8] bytes, and for a key size of 328 bits or more the
    decoder reads beyond the 40 bytes, before any call to AES. *)
Theorem standard_key_size (P : Primitives) (fuel : nat)
    (encryption_info : bytes) (info : standard_encryption_info)
    (password : list Z) (encrypted_package : bytes) :
  read_standard_header encryption_info = ([], Ok info) ->
  (Z.to_nat 50000 <= fuel)%nat ->
  (std_key_bits info <= 327 ->
   exists key,
     standard_key fuel info password = ret key
     /\ size key = std_key_bits info / 8)
  /\ (328 <= std_key_bits info ->
      decrypt_xlsx_standard fuel encryption_info password encrypted_package =
      ([], OutOfBounds)).
Proof.
  intros Hh Hfuel.
  destruct (read_standard_header_constants _ _ _ Hh) as (Hs & Hhash & Hk).
  destruct (read_standard_header_decoded _ _ _ Hh)
    as (_ & _ & _ & _ & _ & _ & Hinfo).
  assert (Hbytes : std_key_bytes info = std_key_bits info / 8)
    by (rewrite Hinfo; reflexivity).
  split.
  - intros Hbits.
    assert (Hle : std_key_bytes info <= 40).
    { rewrite Hbytes.
      assert (std_key_bits info / 8 < 41)
        by (apply Z.div_lt_upper_bound; lia).
      lia. }
    exists (standard_derived_key info password). split.
    + apply standard_key_closed; rewrite ?Hs, ?Hhash; simpl; lia.
    + unfold standard_derived_key, size.
      rewrite length_firstn, length_app, !hash_length, Hhash, <- Hbytes.
      simpl. lia.
  - intros Hbits.
    assert (Hgt : 40 < std_key_bytes info).
    { rewrite Hbytes.
      assert (41 <= std_key_bits info / 8)
        by (apply Z.div_le_lower_bound; lia).
      lia. }
    unfold decrypt_xlsx_standard. rewrite Hh, bind_nil_ok.
    rewrite standard_key_oversized; [reflexivity | exact Hs | exact Hfuel |].
    rewrite Hhash. simpl. lia.
Qed.

Lemma standard_key_size_witness :
  @decrypt_xlsx_standard sample_primitives (Z.to_nat 50000) sample_header_512
    [] one_block_package = ([], OutOfBounds).
Proof.
  apply (proj2 (standard_key_size sample_primitives (Z.to_nat 50000)
                  sample_header_512 sample_info_512 [] one_block_package
                  ltac:(vm_compute; reflexivity) (Nat.le_refl _))).
  apply Z.leb_le. vm_compute. reflexivity.
Defined.

(** ** A package without its length prefix *)

(** X6. Neither decoder tests that the package holds its 8-byte length
    prefix. For a package stream of fewer than 8 bytes (an absent stream, which
    [file] turns into the empty vector, included) the prefix is read outside
    the vector: by the standard decoder once the header is accepted and the
    key derived, by the agile decoder once the password has been verified
    and the package key decrypted. No AES call is made on the package. *)
Theorem short_package_out_of_bounds (P : Primitives)
    (encrypted_package : bytes) :
  size encrypted_package < 8 ->
  (forall key : bytes,
     standard_package key encrypted_package = ([], OutOfBounds))
  /\
  (forall (result : agile_encryption_info) (key : bytes),
     agile_package result key encrypted_package = ([], OutOfBounds))
  /\
  (forall (fuel : nat) (encryption_info : bytes)
      (info : standard_encryption_info) (password : list Z),
     read_standard_header encryption_info = ([], Ok info) ->
     std_key_bytes info <= 40 ->
     (Z.to_nat 50000 <= fuel)%nat ->
     decrypt_xlsx_standard fuel encryption_info password encrypted_package =
     ([], OutOfBounds))
  /\
  (forall (fuel : nat) (result : agile_encryption_info) (password : list Z)
      (h_n : bytes),
     generate_h_n fuel (ke_hash (key_encryptor result))
       (ke_spin_count (key_encryptor result))
       (ke_salt_value (key_encryptor result)) password = ([], Ok h_n) ->
     calculated_verifier result h_n = expected_verifier result h_n ->
     agile_decrypt fuel result password encrypted_package =
     (verifier_calls result h_n ++ [package_key_call result h_n],
      OutOfBounds)).
Proof.
  intros Hs.
  assert (Hread : read_int 8 0 encrypted_package = out_of_bounds).
  { destruct (read_int_cases 8 0 encrypted_package) as [[_ E] | (_ & B & _)];
      [exact E | lia]. }
  assert (Hstd : forall key,
            standard_package key encrypted_package = ([], OutOfBounds))
    by (intros key; unfold standard_package; rewrite Hread; reflexivity).
  assert (Hagile : forall result key,
            agile_package result key encrypted_package = ([], OutOfBounds))
    by (intros result key; unfold agile_package; cbv zeta; rewrite Hread;
        reflexivity).
  split; [exact Hstd|]. split; [exact Hagile|]. split.
  - intros fuel encryption_info info password Hh Hkey Hfuel.
    destruct (read_standard_header_constants _ _ _ Hh) as (Hspin & Hhash & Hk).
    unfold decrypt_xlsx_standard. rewrite Hh, bind_nil_ok.
    rewrite standard_key_closed, bind_ret;
      [apply Hstd | rewrite Hspin; lia | rewrite Hspin; exact Hfuel |].
    rewrite Hhash. simpl. lia.
  - intros fuel result password h_n Hg Hv.
    rewrite (agile_decrypt_agree fuel result password encrypted_package h_n
               Hg Hv).
    rewrite Hagile. reflexivity.
Qed.

Lemma short_package_out_of_bounds_witness :
  @decrypt_xlsx_standard sample_primitives (Z.to_nat 50000)
    sample_standard_header [] [] = ([], OutOfBounds).
Proof.
  refine (proj1 (proj2 (proj2
            (short_package_out_of_bounds sample_primitives [] _)))
            (Z.to_nat 50000) sample_standard_header sample_standard_info []
            _ _ _).
  - apply Z.ltb_lt. vm_compute. reflexivity.
  - vm_compute. reflexivity.
  - apply Z.leb_le. vm_compute. reflexivity.
  - apply Nat.le_refl.
Defined.

(** ** The segments of the agile package *)

Section AgilePackage.

Context {P : Primitives}.

Lemma resize_digest_16 (algorithm : hash_algorithm) (input : bytes) :
  resize 16 (hash algorithm input) = firstn 16 (hash algorithm input).
Proof.
  apply resize_firstn. rewrite hash_length.
  pose proof (digest_length_bound algorithm). lia.
Qed.

Lemma agile_package_closed (result : agile_encryption_info)
    (key encrypted_package : bytes) :
  8 <= size encrypted_package ->
  kd_salt_size (key_data result) = size (kd_salt_value (key_data result)) ->
  size (kd_salt_value (key_data result)) + 4 < 2 ^ 64 ->
  (forall input k iv,
     (length input <= length (aes_cbc_decrypt input k iv))%nat) ->
  length_prefix encrypted_package <= size (payload encrypted_package) ->
  agile_package result key encrypted_package =
  (map (segment_call result key encrypted_package)
     (seq 0 (segment_count (length (payload encrypted_package)))),
   Ok (agile_plaintext result key encrypted_package)).
Proof.
  intros Hp Hsize H64 Haes Hprefix.
  rewrite (agile_package_from result key encrypted_package
             (kd_salt_value (key_data result)) 0);
    try (unfold size in *; lia).
  - f_equal.
    + apply map_ext. intros i.
      unfold loop_call, segment_call, loop_iv, segment_iv.
      f_equal. apply resize_digest_16.
    + f_equal. unfold agile_plaintext.
      assert (Hmap :
        map (loop_segment (ke_hash (key_encryptor result)) key
               encrypted_package (kd_salt_value (key_data result)) 0)
          (seq 0 (segment_count (length (payload encrypted_package)))) =
        map (segment_plaintext result key encrypted_package)
          (seq 0 (segment_count (length (payload encrypted_package))))).
      { apply map_ext. intros i.
        unfold loop_segment, segment_plaintext, loop_iv, segment_iv.
        cbv zeta. rewrite resize_digest_16. apply resize_firstn, Haes. }
      rewrite <- Hmap. apply resize_firstn.
      rewrite loop_segments_length. unfold size in Hprefix. lia.
  - rewrite Hsize. unfold size.
    replace (Z.to_nat (Z.of_nat (length (kd_salt_value (key_data result))) + 4))
      with (length (kd_salt_value (key_data result)) + 4)%nat by lia.
    apply initial_buffer_exact.
Qed.

End AgilePackage.

(** C6, amended. On the agile path, for a spin count from 1 to 2^32 - 1,
    a password whose two verifiers agree, a package that holds its 8-byte
    prefix, a prefix that does not exceed the length of the ciphertext, a
    [keyData] whose [saltSize] is the length of its salt (of fewer than
    2^64 - 4 bytes) and an AES-CBC that returns at least as many bytes as
    it is given: after the two AES-CBC calls of the verification the
    decoder decrypts the package key (the [encryptedKeyValue] of the key
    encryptor, under the third block key), and the ciphertext after the
    prefix is processed in consecutive 4096-byte segments that cover it
    (the last one may be shorter); segment [i] is AES-CBC-decrypted with
    the package key and the IV [Hash(key-data salt ++
    little_endian_u32(i))] cut to 16 bytes, each decrypted segment is cut
    to the length of its ciphertext and appended in order, and the
    concatenation is cut to the length prefix; a ciphertext of [n] bytes
    yields exactly [segment_count n] segments, the least number of 4096-byte
    segments that hold [n] bytes. *)
Theorem agile_segments (P : Primitives) (fuel : nat)
    (result : agile_encryption_info) (password : list Z)
    (encrypted_package : bytes) :
  let ke := key_encryptor result in
  let h_n := H_n (ke_hash ke) (H_0 (ke_hash ke) (ke_salt_value ke) password)
               (Z.to_nat (ke_spin_count ke)) in
  let key := package_key result h_n in
  let n := length (payload encrypted_package) in
  1 <= ke_spin_count ke < 2 ^ 32 ->
  (Z.to_nat (ke_spin_count ke) <= fuel)%nat ->
  calculated_verifier result h_n = expected_verifier result h_n ->
  8 <= size encrypted_package ->
  length_prefix encrypted_package <= size (payload encrypted_package) ->
  kd_salt_size (key_data result) = size (kd_salt_value (key_data result)) ->
  size (kd_salt_value (key_data result)) + 4 < 2 ^ 64 ->
  (forall input k iv,
     (length input <= length (aes_cbc_decrypt input k iv))%nat) ->
  agile_decrypt fuel result password encrypted_package =
    (verifier_calls result h_n
       ++ package_key_call result h_n
       :: map (segment_call result key encrypted_package)
            (seq 0 (segment_count n)),
     Ok (agile_plaintext result key encrypted_package))
  /\ concat (map (segment_ciphertext encrypted_package)
               (seq 0 (segment_count n))) = payload encrypted_package
  /\ (n <= 4096 * segment_count n < n + 4096)%nat.
Proof.
  intros ke h_n key n Hspin Hfuel Hv Hp Hprefix Hsize H64 Haes.
  split; [|split].
  - rewrite (agile_decrypt_agree fuel result password encrypted_package h_n);
      [| apply generate_h_n_chain; assumption | exact Hv].
    rewrite agile_package_closed by assumption. reflexivity.
  - apply segments_cover.
  - pose proof (segment_count_lt n (segment_count n)) as H1.
    destruct (segment_count n) as [|c] eqn:Ec.
    + pose proof (segment_count_lt n 0) as H0. rewrite Ec in H0. lia.
    + pose proof (segment_count_lt n c) as H2. rewrite Ec in H2. lia.
Qed.

(** The sample header, with a package of two segments. *)
Lemma agile_segments_witness :
  outcome_of
    (@agile_decrypt sample_primitives 3 (sample_agile_info "in") [112; 119]
       two_segment_package) =
  Ok (@agile_plaintext sample_primitives (sample_agile_info "in")
        (@package_key sample_primitives (sample_agile_info "in")
           (@H_n sample_primitives hash_sha512
              (@H_0 sample_primitives hash_sha512 (list_byte_of_string "cd")
                 [112; 119]) 3))
        two_segment_package).
Proof.
  rewrite (proj1 (agile_segments sample_primitives 3 (sample_agile_info "in")
                    [112; 119] two_segment_package
                    ltac:(vm_compute; split; [discriminate | reflexivity])
                    ltac:(vm_compute; apply le_n)
                    ltac:(vm_compute; reflexivity)
                    ltac:(apply Z.leb_le; vm_compute; reflexivity)
                    ltac:(apply Z.leb_le; vm_compute; reflexivity)
                    ltac:(vm_compute; reflexivity)
                    ltac:(apply Z.ltb_lt; vm_compute; reflexivity)
                    ltac:(intros input k iv; simpl; lia))).
  reflexivity.
Defined.

(** C6, as stated, fails at the header [sample_long_salt_info], whose
    [keyData] announces a salt of 2 bytes and holds "abcdefgh", with the
    package [exact_block_package] of one segment: the verifiers agree and
    the segment is decrypted with the package key, but its IV is the hash
    of "ab" followed by the counter that the bytes "cdef" spell, not the
    hash of the salt followed by 0. (With the sample hash, which keeps its
    input, the one is "abcdef" and the other "abcdefgh", zero-padded.) *)
Lemma agile_segments_counterexample :
  trace_of
    (@agile_decrypt sample_primitives 3 sample_long_salt_info [112; 119]
       exact_block_package) =
  @verifier_calls sample_primitives sample_long_salt_info
    (@H_n sample_primitives hash_sha512
       (@H_0 sample_primitives hash_sha512 (list_byte_of_string "cd")
          [112; 119]) 3)
  ++ [aes_cbc (list_byte_of_string "key")
        (@block_key_for sample_primitives sample_long_salt_info
           (@H_n sample_primitives hash_sha512
              (@H_0 sample_primitives hash_sha512 (list_byte_of_string "cd")
                 [112; 119]) 3)
           key_value_block_key)
        (list_byte_of_string "cd");
      aes_cbc (repeat x41 16) (list_byte_of_string "key")
        (list_byte_of_string "abcdef" ++ repeat x00 10)]
  /\ @segment_iv sample_primitives sample_long_salt_info 0 =
     list_byte_of_string "abcdefgh" ++ repeat x00 8
  /\ @agile_decrypt sample_primitives 3 sample_long_salt_info [112; 119]
       exact_block_package <>
     (@verifier_calls sample_primitives sample_long_salt_info
        (@H_n sample_primitives hash_sha512
           (@H_0 sample_primitives hash_sha512 (list_byte_of_string "cd")
              [112; 119]) 3)
      ++ @package_key_call sample_primitives sample_long_salt_info
           (@H_n sample_primitives hash_sha512
              (@H_0 sample_primitives hash_sha512 (list_byte_of_string "cd")
                 [112; 119]) 3)
      :: map (@segment_call sample_primitives sample_long_salt_info
                (@package_key sample_primitives sample_long_salt_info
                   (@H_n sample_primitives hash_sha512
                      (@H_0 sample_primitives hash_sha512
                         (list_byte_of_string "cd") [112; 119]) 3))
                exact_block_package)
           (seq 0 (segment_count (length (payload exact_block_package)))),
      Ok (@agile_plaintext sample_primitives sample_long_salt_info
            (@package_key sample_primitives sample_long_salt_info
               (@H_n sample_primitives hash_sha512
                  (@H_0 sample_primitives hash_sha512
                     (list_byte_of_string "cd") [112; 119]) 3))
            exact_block_package)).
Proof.
  split; [vm_compute; reflexivity|]. split; [vm_compute; reflexivity|].
  intros H. vm_compute in H. discriminate H.
Qed.

(** ** The salt size of [keyData] *)

Lemma firstn_add {A} (a b : nat) (l : list A) :
  firstn (a + b) l = firstn a l ++ firstn b (skipn a l).
Proof.
  revert l. induction a as [|a IH]; intros l; [reflexivity|].
  destruct l as [|x l]; cbn [Nat.add firstn skipn app].
  - now rewrite firstn_nil.
  - now rewrite IH.
Qed.

(** X8. The bytes hashed for the IV of a segment are decided by the
    [saltSize] attribute of [keyData], not by the length of its decoded
    salt: the salt is resized to [saltSize + 4] bytes and the segment
    counter is the 32-bit integer at [saltSize]. When the salt has at most
    [saltSize] bytes, the IV of segment [i] is the hash of the salt,
    zero-padded to [saltSize] bytes, followed by [i]; when the salt has at
    least [saltSize + 4] bytes, it is the hash of the first [saltSize] bytes
    of the salt followed by a counter that starts at the value of the next
    four bytes of the salt, not at 0. *)
Theorem salt_size_decides_iv (P : Primitives)
    (result : agile_encryption_info) (key encrypted_package : bytes) :
  let salt := kd_salt_value (key_data result) in
  let n := kd_salt_size (key_data result) in
  let segments := seq 0 (segment_count (length (payload encrypted_package))) in
  let decrypted salt' c0 :=
    (map (fun i =>
            aes_cbc (segment_ciphertext encrypted_package i) key
              (resize 16
                 (hash (ke_hash (key_encryptor result))
                    (salt' ++ little_endian_u32 (c0 + Z.of_nat i)))))
       segments,
     Ok (resize (Z.to_nat (length_prefix encrypted_package))
           (concat
              (map (loop_segment (ke_hash (key_encryptor result)) key
                      encrypted_package salt' c0) segments)))) in
  8 <= size encrypted_package ->
  0 <= n ->
  n + 4 < 2 ^ 64 ->
  (size salt <= n ->
   agile_package result key encrypted_package =
   decrypted (salt ++ repeat x00 (Z.to_nat n - length salt)) 0)
  /\
  (n + 4 <= size salt ->
   agile_package result key encrypted_package =
   decrypted (firstn (Z.to_nat n) salt)
     (little_endian (slice n (n + 4) salt))).
Proof.
  intros salt n segments decrypted Hp Hn H64. subst decrypted segments.
  cbv beta. split; intros Hs.
  - apply (agile_package_from result key encrypted_package
             (salt ++ repeat x00 (Z.to_nat n - length salt)) 0 Hp Hn H64).
    + unfold size in *. rewrite length_app, repeat_length. fold n. lia.
    + fold n salt. rewrite resize_pad by (unfold size in Hs; lia).
      rewrite <- app_assoc. f_equal.
      replace (Z.to_nat (n + 4) - length salt)%nat
        with ((Z.to_nat n - length salt) + 4)%nat
        by (unfold size in Hs; lia).
      rewrite repeat_app. reflexivity.
  - assert (Hlen : length (slice n (n + 4) salt) = 4%nat)
      by (rewrite slice_length; lia).
    apply (agile_package_from result key encrypted_package
             (firstn (Z.to_nat n) salt)
             (little_endian (slice n (n + 4) salt)) Hp Hn H64).
    + unfold size in *. rewrite length_firstn. fold n. lia.
    + fold n salt. rewrite resize_firstn by (unfold size in Hs; lia).
      replace (Z.to_nat (n + 4)) with (Z.to_nat n + 4)%nat by lia.
      rewrite firstn_add. f_equal.
      pose proof (to_of_little_endian (slice n (n + 4) salt)) as R.
      rewrite Hlen in R. unfold little_endian_u32. rewrite R. unfold slice.
      replace (Z.to_nat (n + 4 - n)) with 4%nat by lia. reflexivity.
Qed.

Lemma salt_size_decides_iv_witness :
  trace_of (@agile_package sample_primitives sample_long_salt_info [x6b]
              one_block_package) =
  [aes_cbc (repeat x41 16) [x6b]
     (resize 16
        (@hash sample_primitives hash_sha512
           (list_byte_of_string "ab"
              ++ little_endian_u32
                   (little_endian (list_byte_of_string "cdef")))))].
Proof.
  rewrite (proj2 (salt_size_decides_iv sample_primitives
                    sample_long_salt_info [x6b] one_block_package
                    ltac:(apply Z.leb_le; vm_compute; reflexivity)
                    ltac:(apply Z.leb_le; vm_compute; reflexivity)
                    ltac:(apply Z.ltb_lt; vm_compute; reflexivity))
                 ltac:(apply Z.leb_le; vm_compute; reflexivity)).
  vm_compute. reflexivity.
Defined.

(** ** Several password key encryptors *)

Section LastKeyEncryptor.

Context {P : Primitives}.

Lemma key_encryptor_loop_stores
    (children : list (list (string * string) * (string * string))) :
  forall (turns : nat) (p : parser) (stored : option key_encryptor_info)
         (ns n : string) (rest : list xml_event),
    pending p = child_events children ++ end_element ns n :: rest ->
    Forall readable_child children ->
    (length (pending p) <= turns)%nat ->
    exists p' : parser,
      outcome_of (key_encryptor_loop turns p stored) =
        Ok (p', stored_after children stored)
      /\ pending p' = end_element ns n :: rest.
Proof.
  induction children as [|[a [ens en]] children IH];
    intros turns [pend cur] stored ns n rest Hp Hgood Hturns;
    cbn [pending] in Hp, Hturns; subst pend;
    rewrite key_encryptor_loop_eq; unfold peek; cbn [pending child_events
      flat_map app type_of_event event_type_eqb negb fst snd].
  - eexists. split; reflexivity.
  - destruct turns as [|turns];
      [cbn [length app child_events flat_map] in Hturns; lia|].
    unfold next_expect, next.
    cbn [pending type_of_event event_type_eqb]. rewrite bind_ret.
    cbn [namespace_ name current].
    rewrite !String.eqb_refl. cbn [andb].
    inversion Hgood as [|? ? [ke Hke] Hgood']; subst.
    cbn [fst] in Hke.
    assert (Hafter : stored_after ((a, (ens, en)) :: children) stored =
                     stored_after children (Some ke))
      by (unfold stored_after; cbn [fold_left fst]; rewrite Hke; reflexivity).
    rewrite Hafter. unfold encrypted_key_of in Hke.
    rewrite (outcome_bind_ok _ _ (Some ke)).
    2: { rewrite (outcome_bind_ok _ _ ke); [reflexivity | exact Hke]. }
    cbn [pending type_of_event event_type_eqb]. rewrite bind_ret.
    apply (IH turns _ (Some ke) ns n rest); auto.
    cbn [pending length app child_events flat_map] in *. lia.
Qed.

Lemma stored_after_last
    (children : list (list (string * string) * (string * string)))
    (last : list (string * string) * (string * string))
    (stored : option key_encryptor_info) (ke : key_encryptor_info) :
  outcome_of (encrypted_key_of (fst last)) = Ok ke ->
  stored_after (children ++ [last]) stored = Some ke.
Proof.
  intros H. unfold stored_after. rewrite fold_left_app. cbn [fold_left].
  rewrite H. reflexivity.
Qed.

End LastKeyEncryptor.

(** X9. When [keyEncryptor] has several password children, the loop over
    them overwrites the stored key encryptor on every turn: the header is
    accepted and the key encryptor used for the decryption is the one of
    the last child, whatever the earlier ones hold. *)
Theorem last_password_key_wins (P : Primitives) (p : parser)
    (children : list (list (string * string) * (string * string)))
    (last : list (string * string) * (string * string))
    (ns n : string) (rest : list xml_event) (ke : key_encryptor_info) :
  pending p = child_events (children ++ [last]) ++ end_element ns n :: rest ->
  Forall readable_child children ->
  outcome_of (encrypted_key_of (fst last)) = Ok ke ->
  exists p' : parser,
    outcome_of (key_encryptor_children p) = Ok (p', ke)
    /\ pending p' = end_element ns n :: rest.
Proof.
  intros Hp Hgood Hlast.
  assert (Hall : Forall readable_child (children ++ [last])).
  { apply Forall_app. split; [exact Hgood|].
    constructor; [exists ke; exact Hlast | constructor]. }
  destruct (key_encryptor_loop_stores (children ++ [last])
              (S (length (pending p))) p None ns n rest Hp Hall
              (Nat.le_succ_diag_r _))
    as (p' & Hloop & Hp').
  exists p'. split; [|exact Hp'].
  unfold key_encryptor_children.
  rewrite (outcome_bind_ok _ _ _ Hloop).
  rewrite (stored_after_last children last None ke Hlast). reflexivity.
Qed.

(** Two password children: the key encryptor is the second one. *)
Lemma last_password_key_wins_witness :
  exists p' : parser,
    outcome_of
      (@key_encryptor_children sample_primitives
         (parser_of
            (sample_password_child "no" ++ sample_password_child "in"
             ++ [end_element (@xmlns sample_primitives) "keyEncryptor"]))) =
    Ok (p', key_encryptor (sample_agile_info "in"))
    /\ pending p' = [end_element (@xmlns sample_primitives) "keyEncryptor"].
Proof.
  apply (last_password_key_wins sample_primitives _
           [(sample_encrypted_key_attributes "no",
             (@xmlns_p sample_primitives, "encryptedKey"%string))]
           (sample_encrypted_key_attributes "in",
            (@xmlns_p sample_primitives, "encryptedKey"%string))).
  - reflexivity.
  - constructor; [|constructor]. eexists. vm_compute. reflexivity.
  - vm_compute. reflexivity.
Defined.

(** ** The attributes of a password key encryptor *)

Section Attributes.

Context {P : Primitives}.

Lemma attribute_cases (key : string) (p : parser) :
  (lookup key (attributes_of p) = None
   /\ attribute key p = throw (xml_parsing "attribute expected"))
  \/ (exists v, lookup key (attributes_of p) = Some v
                /\ attribute key p = ret v).
Proof.
  unfold attribute. destruct (lookup key (attributes_of p)) as [v|].
  - right. exists v. split; reflexivity.
  - left. split; reflexivity.
Qed.

Lemma attribute_size_t_cases (key : string) (p : parser) :
  (exists what, attribute_size_t key p = throw (xml_parsing what))
  \/ (exists v z, lookup key (attributes_of p) = Some v
                  /\ size_t_of_string v = Some z
                  /\ attribute_size_t key p = ret z).
Proof.
  unfold attribute_size_t, attribute.
  destruct (lookup key (attributes_of p)) as [v|].
  - rewrite bind_ret. destruct (size_t_of_string v) as [z|] eqn:E.
    + right. exists v, z. repeat split. exact E.
    + left. eexists. reflexivity.
  - left. eexists. reflexivity.
Qed.

Lemma attribute_present (key v : string) (p : parser) :
  lookup key (attributes_of p) = Some v -> attribute key p = ret v.
Proof. intros H. unfold attribute. now rewrite H. Qed.

Lemma attribute_size_t_present (key v : string) (z : Z) (p : parser) :
  lookup key (attributes_of p) = Some v -> size_t_of_string v = Some z ->
  attribute_size_t key p = ret z.
Proof.
  intros H Hz. unfold attribute_size_t.
  rewrite (attribute_present key v p H), bind_ret, Hz. reflexivity.
Qed.

End Attributes.

(** One step through the reads of the attributes of an element. *)
Ltac attribute_step :=
  lazymatch goal with
  | |- context [bind ?m _] =>
      lazymatch m with
      | attribute_size_t ?k ?p =>
          let E := fresh "E" in
          destruct (attribute_size_t_cases k p)
            as [[? E] | (? & ? & ? & ? & E)];
          rewrite E; [rewrite bind_throw | rewrite bind_ret; cbv beta]
      | attribute ?k ?p =>
          let E := fresh "E" in
          destruct (attribute_cases k p) as [[? E] | (? & ? & E)];
          rewrite E; [rewrite bind_throw | rewrite bind_ret; cbv beta]
      end
  end.

(** X10. The hash of a password key encryptor is chosen by comparing its
    [hashAlgorithm] attribute with the two names "SHA512" and "SHA1",
    letter for letter: an [encryptedKey] element is read only if the
    attribute is one of them, and the stored hash kind is then the one
    named; [xlnt::unsupported("hash")] is thrown only for an attribute that
    is present and is neither name, and is thrown for every such name once
    the seven attributes read before it are present and well-formed. *)
Theorem encrypted_key_hash_names (P : Primitives) (p : parser) :
  (forall ke : key_encryptor_info,
     outcome_of (read_encrypted_key p) = Ok ke ->
     (lookup "hashAlgorithm" (attributes_of p) = Some "SHA512"%string
      /\ ke_hash ke = hash_sha512)
     \/ (lookup "hashAlgorithm" (attributes_of p) = Some "SHA1"%string
         /\ ke_hash ke = hash_sha1))
  /\
  (outcome_of (read_encrypted_key p) = Throw (xlnt_unsupported "hash") ->
   exists h : string,
     lookup "hashAlgorithm" (attributes_of p) = Some h
     /\ h <> "SHA1"%string /\ h <> "SHA512"%string)
  /\
  (forall h : string,
     Forall (fun key =>
               exists v z, lookup key (attributes_of p) = Some v
                           /\ size_t_of_string v = Some z)
       ["spinCount"; "saltSize"; "blockSize"; "keyBits"; "hashSize"]%string ->
     Forall (fun key => exists v, lookup key (attributes_of p) = Some v)
       ["cipherAlgorithm"; "cipherChaining"]%string ->
     lookup "hashAlgorithm" (attributes_of p) = Some h ->
     h <> "SHA1"%string -> h <> "SHA512"%string ->
     read_encrypted_key p = ([], Throw (xlnt_unsupported "hash"))).
Proof.
  split; [|split].
  - intros ke. unfold read_encrypted_key.
    do 8 (attribute_step; [discriminate|]).
    match goal with
    | |- context [String.eqb ?h "SHA512"] =>
        destruct (String.eqb_spec h "SHA512") as [-> | N512];
        [| destruct (String.eqb_spec h "SHA1") as [-> | N1];
           [| rewrite bind_throw; discriminate]]
    end; rewrite bind_ret;
      do 4 (attribute_step; [discriminate|]);
      intros [= <-]; cbn [ke_hash]; auto.
  - unfold read_encrypted_key.
    do 8 (attribute_step; [discriminate|]).
    match goal with
    | |- context [String.eqb ?h "SHA512"] =>
        destruct (String.eqb_spec h "SHA512") as [-> | N512];
        [| destruct (String.eqb_spec h "SHA1") as [-> | N1]]
    end.
    + rewrite bind_ret. do 4 (attribute_step; [discriminate|]). discriminate.
    + rewrite bind_ret. do 4 (attribute_step; [discriminate|]). discriminate.
    + intros _. eexists. repeat split; eassumption.
  - intros h Hsizes Hnames Hh N1 N512.
    repeat match goal with
           | H : Forall _ (_ :: _) |- _ =>
               let Hx := fresh "Hx" in
               apply Forall_cons_iff in H; destruct H as [Hx H]
           end.
    repeat match goal with
           | H : exists _, _ |- _ => destruct H
           | H : _ /\ _ |- _ => destruct H
           end.
    unfold read_encrypted_key.
    repeat (erewrite attribute_size_t_present by eassumption;
            rewrite bind_ret).
    repeat (erewrite attribute_present by eassumption; rewrite bind_ret).
    destruct (String.eqb_spec h "SHA512"); [contradiction|].
    destruct (String.eqb_spec h "SHA1"); [contradiction|].
    reflexivity.
Qed.

(** ** What the agile decryption reads of its header *)

Section AgileReads.

Context {P : Primitives}.

(** The segment loop reads its [result] argument through the hash kind of
    the key encryptor only. *)
Lemma segment_loop_hash (r1 r2 : agile_encryption_info)
    (key encrypted_package : bytes) (salt_size : Z) (turns : nat) :
  ke_hash (key_encryptor r1) = ke_hash (key_encryptor r2) ->
  forall (i : Z) (buffer decrypted_package : bytes),
    segment_loop turns r1 key encrypted_package salt_size i buffer
      decrypted_package =
    segment_loop turns r2 key encrypted_package salt_size i buffer
      decrypted_package.
Proof.
  intros He. induction turns as [|turns IH]; intros i buffer acc;
    rewrite !segment_loop_eq; [reflexivity|]. rewrite He.
  destruct (i <? size encrypted_package); [|reflexivity].
  cbv zeta. apply bind_ext. intros segment.
  apply bind_ext. intros decrypted. apply bind_ext. intros buffer'.
  apply IH.
Qed.

End AgileReads.

(** X11. The agile decryption reads nine fields of the decoded header: the
    hash kind, spin count, salt, key size, encrypted verifier input,
    encrypted verifier hash and encrypted key of the key encryptor, and the
    salt size and salt of [keyData]. Two headers that agree on these
    decrypt alike, with the same AES calls, whatever the others hold: the
    HMAC key and value of [dataIntegrity] are never checked, and AES-CBC is
    used whatever the cipher and chaining names, block sizes and hash sizes
    say. *)
Theorem agile_decrypt_reads (P : Primitives) (fuel : nat)
    (r1 r2 : agile_encryption_info) (password : list Z)
    (encrypted_package : bytes) :
  ke_hash (key_encryptor r1) = ke_hash (key_encryptor r2) ->
  ke_spin_count (key_encryptor r1) = ke_spin_count (key_encryptor r2) ->
  ke_salt_value (key_encryptor r1) = ke_salt_value (key_encryptor r2) ->
  ke_key_bits (key_encryptor r1) = ke_key_bits (key_encryptor r2) ->
  ke_verifier_hash_input (key_encryptor r1) =
    ke_verifier_hash_input (key_encryptor r2) ->
  ke_verifier_hash_value (key_encryptor r1) =
    ke_verifier_hash_value (key_encryptor r2) ->
  ke_encrypted_key_value (key_encryptor r1) =
    ke_encrypted_key_value (key_encryptor r2) ->
  kd_salt_size (key_data r1) = kd_salt_size (key_data r2) ->
  kd_salt_value (key_data r1) = kd_salt_value (key_data r2) ->
  agile_decrypt fuel r1 password encrypted_package =
  agile_decrypt fuel r2 password encrypted_package.
Proof.
  intros Hh Hspin Hsalt Hbits Hin Hval Hkey Hsize Hkd.
  unfold agile_decrypt, agile_verifiers, calculate_block, agile_package.
  cbv zeta. rewrite Hh, Hspin, Hsalt, Hbits, Hin, Hval, Hkey, Hsize, Hkd.
  apply bind_ext. intros h_n.
  apply bind_ext. intros [calculated expected].
  apply bind_ext. intros _. apply bind_ext. intros key.
  apply bind_ext. intros [total_size index].
  f_equal. apply segment_loop_hash. exact Hh.
Qed.

Lemma agile_decrypt_reads_witness :
  @agile_decrypt sample_primitives 3 (sample_agile_info "in") [112; 119]
    two_segment_package =
  @agile_decrypt sample_primitives 3 sample_unread_info [112; 119]
    two_segment_package.
Proof.
  apply (agile_decrypt_reads sample_primitives 3 (sample_agile_info "in")
           sample_unread_info [112; 119] two_segment_package);
    reflexivity.
Defined.

(** ** The comparison of the verifiers *)

(** X12. The comparison of the two verifiers (a test of the sizes followed
    by [std::mismatch] against the pair of end positions) accepts exactly
    equal byte sequences: it returns when the calculated and the expected
    verifier are the same sequence and throws "bad password" in every other
    case, a difference of length or of a single byte included. *)
Theorem check_verifiers_compares (calculated expected : bytes) :
  (check_verifiers calculated expected = ret tt <-> calculated = expected)
  /\ (check_verifiers calculated expected =
        throw (xlnt_exception "bad password") <-> calculated <> expected).
Proof.
  destruct (list_eq_dec Byte.byte_eq_dec calculated expected) as [-> | Hne].
  - rewrite check_verifiers_equal. split; split; try reflexivity.
    + discriminate.
    + intros H. now destruct H.
  - rewrite (check_verifiers_differ _ _ Hne). split; split; try reflexivity.
    + discriminate.
    + intros H. contradiction.
    + intros _. exact Hne.
Qed.

(** ** The outcomes of the XML header reader *)

Lemma header_outcome_bind {A B} (m : M A) (f : A -> M B) :
  header_outcome m -> (forall a, header_outcome (f a)) ->
  header_outcome (bind m f).
Proof.
  intros (Ht & Hb & Hm) Hf. destruct m as [t [a | e | | ]];
    cbn [trace_of outcome_of fst snd] in Ht, Hb; subst t.
  - rewrite bind_nil_ok. apply Hf.
  - repeat split; try discriminate. intros e' [= <-]. apply (Hm e).
    reflexivity.
  - contradiction.
  - repeat split; discriminate.
Qed.

Lemma header_outcome_ret {A} (a : A) : header_outcome (ret a).
Proof. repeat split; discriminate. Qed.

Lemma header_outcome_out_of_fuel {A} : header_outcome (@out_of_fuel A).
Proof. repeat split; discriminate. Qed.

Lemma header_outcome_throw {A} (e : exn) :
  agile_header_exception e -> header_outcome (@throw A e).
Proof.
  intros H. repeat split; try discriminate. intros e' [= <-]. exact H.
Qed.

Lemma header_outcome_parsing {A} (what : string) :
  header_outcome (@throw A (xml_parsing what)).
Proof. apply header_outcome_throw. left. exists what. reflexivity. Qed.

Section HeaderOutcomes.

Context {P : Primitives}.

Lemma header_outcome_next_expect (ty : event_type) (p : parser) :
  header_outcome (next_expect ty p).
Proof.
  unfold next_expect. destruct (next p) as [got p'].
  destruct (event_type_eqb got ty);
    [apply header_outcome_ret | apply header_outcome_parsing].
Qed.

Lemma header_outcome_next_expect_named (ty : event_type) (ns n : string)
    (p : parser) :
  header_outcome (next_expect_named ty ns n p).
Proof.
  unfold next_expect_named. destruct (next p) as [got p'].
  destruct (event_type_eqb got ty && String.eqb (namespace_ p') ns
            && String.eqb (name p') n);
    [apply header_outcome_ret | apply header_outcome_parsing].
Qed.

Lemma header_outcome_attribute (key : string) (p : parser) :
  header_outcome (attribute key p).
Proof.
  unfold attribute. destruct (lookup key (attributes_of p));
    [apply header_outcome_ret | apply header_outcome_parsing].
Qed.

Lemma header_outcome_attribute_size_t (key : string) (p : parser) :
  header_outcome (attribute_size_t key p).
Proof.
  unfold attribute_size_t. apply header_outcome_bind;
    [apply header_outcome_attribute|].
  intros v. destruct (size_t_of_string v);
    [apply header_outcome_ret | apply header_outcome_parsing].
Qed.

End HeaderOutcomes.

(** One step of a proof that a part of the header reader is a
    [header_outcome]. *)
Ltac header_step :=
  lazymatch goal with
  | |- header_outcome (bind _ _) => apply header_outcome_bind; [|intros ?]
  | |- header_outcome (match ?x with (_, _) => _ end) => destruct x
  | |- header_outcome (if ?c then _ else _) => destruct c
  | |- header_outcome (ret _) => apply header_outcome_ret
  | |- header_outcome (next_expect _ _) => apply header_outcome_next_expect
  | |- header_outcome (next_expect_named _ _ _ _) =>
      apply header_outcome_next_expect_named
  | |- header_outcome (attribute _ _) => apply header_outcome_attribute
  | |- header_outcome (attribute_size_t _ _) =>
      apply header_outcome_attribute_size_t
  | |- header_outcome (throw _) =>
      apply header_outcome_throw; unfold agile_header_exception; auto
  end.

Section HeaderReader.

Context {P : Primitives}.

Lemma header_outcome_read_encrypted_key (p : parser) :
  header_outcome (read_encrypted_key p).
Proof. unfold read_encrypted_key. repeat header_step. Qed.

Lemma header_outcome_key_encryptor_loop (turns : nat) :
  forall (p : parser) (stored : option key_encryptor_info),
    header_outcome (key_encryptor_loop turns p stored).
Proof.
  induction turns as [|turns IH]; intros p stored;
    rewrite key_encryptor_loop_eq;
    destruct (negb (event_type_eqb (peek p) ev_end_element));
    try apply header_outcome_ret; [apply header_outcome_out_of_fuel|].
  apply header_outcome_bind; [apply header_outcome_next_expect|].
  intros p1. apply header_outcome_bind.
  - destruct (String.eqb (namespace_ p1) xmlns_p
              && String.eqb (name p1) "encryptedKey").
    + apply header_outcome_bind; [apply header_outcome_read_encrypted_key|].
      intros ke. apply header_outcome_ret.
    + header_step.
  - intros stored'. apply header_outcome_bind;
      [apply header_outcome_next_expect|].
    intros p2. apply IH.
Qed.

Lemma header_outcome_read_agile_header (p : parser) :
  header_outcome (read_agile_header p).
Proof.
  unfold read_agile_header, read_key_data, read_data_integrity,
    read_key_encryptor, key_encryptor_children.
  repeat first
    [ header_step
    | apply header_outcome_key_encryptor_loop
    | match goal with
      | |- header_outcome (match ?x with Some _ => _ | None => _ end) =>
          destruct x
      end ].
Qed.

End HeaderReader.

(** X13. The reader of the XML header of the agile scheme calls no
    collaborator that the trace records and reads nothing out of bounds,
    and the exceptions it throws are those of the pull parser,
    [xlnt::unsupported("hash")], [xlnt::unsupported("other encryption key
    types not supported")] and the C string "no password key in
    keyEncryptors". The header is read to its end before any key is
    derived: when it is rejected, the decoder throws the same exception
    and has made no AES call. *)
Theorem agile_header_outcomes (P : Primitives) (p : parser) :
  trace_of (read_agile_header p) = []
  /\ outcome_of (read_agile_header p) <> OutOfBounds
  /\ (forall e : exn,
        outcome_of (read_agile_header p) = Throw e ->
        agile_header_exception e)
  /\ (forall (fuel : nat) (password : list Z) (encrypted_package : bytes)
        (e : exn),
        outcome_of (read_agile_header p) = Throw e ->
        decrypt_xlsx_agile_events fuel p password encrypted_package =
        ([], Throw e)).
Proof.
  destruct (header_outcome_read_agile_header p) as (Ht & Hb & He).
  split; [exact Ht|]. split; [exact Hb|]. split; [exact He|].
  intros fuel password encrypted_package e H.
  unfold decrypt_xlsx_agile_events.
  destruct (read_agile_header p) as [t r].
  cbn [trace_of outcome_of fst snd] in Ht, H. subst t r. reflexivity.
Qed.

(** ** The spin count of the agile scheme *)

(** X14. With a spin count of 0 the loop of the key generation is not
    entered and [h_n] stays the empty vector: the block keys are then the
    hashes of the block-key constants alone, and the password plays no part
    in the decryption: every two passwords give the same result and the
    same AES calls. *)
Theorem zero_spin_count_ignores_password (P : Primitives) (fuel : nat)
    (result : agile_encryption_info) (password password' : list Z)
    (encrypted_package : bytes) :
  ke_spin_count (key_encryptor result) = 0 ->
  agile_decrypt fuel result password encrypted_package =
  agile_decrypt fuel result password' encrypted_package.
Proof.
  intros H. unfold agile_decrypt. rewrite H, !generate_h_n_zero.
  reflexivity.
Qed.

Lemma zero_spin_count_ignores_password_witness :
  @agile_decrypt sample_primitives 0 (sample_spin_info 0) [112; 119]
    two_segment_package =
  @agile_decrypt sample_primitives 0 (sample_spin_info 0) [] two_segment_package.
Proof.
  apply (zero_spin_count_ignores_password sample_primitives 0
           (sample_spin_info 0) [112; 119] [] two_segment_package).
  reflexivity.
Defined.

(** X15. The iterator of the key generation is a 32-bit integer compared
    with the [std::size_t] spin count of the header: for a spin count of
    2^32 or more the comparison never fails and the loop does not end. On
    such a header the agile decoder does not return, whatever the fuel it is
    given, and has made no AES call. *)
Theorem huge_spin_count_never_returns (P : Primitives) (fuel : nat)
    (result : agile_encryption_info) (password : list Z)
    (encrypted_package : bytes) :
  2 ^ 32 <= ke_spin_count (key_encryptor result) ->
  agile_decrypt fuel result password encrypted_package = ([], OutOfFuel).
Proof.
  intros H. unfold agile_decrypt.
  rewrite generate_h_n_no_exit by exact H. reflexivity.
Qed.

Lemma huge_spin_count_never_returns_witness :
  @agile_decrypt sample_primitives 1000 (sample_spin_info (2 ^ 32))
    [112; 119] two_segment_package = ([], OutOfFuel).
Proof.
  apply (huge_spin_count_never_returns sample_primitives 1000
           (sample_spin_info (2 ^ 32)) [112; 119] two_segment_package).
  apply Z.leb_le. vm_compute. reflexivity.
Defined.

(** ** The exceptions of [decrypt_xlsx] *)

Lemma throws_only_emit (allowed : exn -> Prop) (c : call) :
  throws_only allowed (emit c).
Proof. intros e H. discriminate H. Qed.

Section DecoderExceptions.

Context {P : Primitives}.

Lemma throws_only_generate_h_n (allowed : exn -> Prop) (fuel : nat)
    (algorithm : hash_algorithm) (spin_count : Z) (salt : bytes)
    (password : list Z) :
  throws_only allowed (generate_h_n fuel algorithm spin_count salt password).
Proof. apply throws_only_no_throw. apply no_throw_spin_loop. Qed.

Lemma throws_only_aes_cbc (allowed : exn -> Prop) (input key iv : bytes) :
  throws_only allowed (call_aes_cbc_decrypt input key iv).
Proof. intros e H. discriminate H. Qed.

Lemma throws_only_aes_ecb (allowed : exn -> Prop) (input key : bytes) :
  throws_only allowed (call_aes_ecb_decrypt input key).
Proof. intros e H. discriminate H. Qed.

Lemma throws_only_segment_loop (allowed : exn -> Prop) (turns : nat)
    (result : agile_encryption_info) (key encrypted_package : bytes)
    (salt_size : Z) :
  forall (i : Z) (buffer decrypted_package : bytes),
    throws_only allowed
      (segment_loop turns result key encrypted_package salt_size i buffer
         decrypted_package).
Proof.
  induction turns as [|turns IH]; intros i buffer acc;
    rewrite segment_loop_eq;
    destruct (i <? size encrypted_package); repeat throws_step.
  cbv zeta. apply throws_only_bind; [apply throws_only_range|].
  intros segment. apply throws_only_bind; [apply throws_only_aes_cbc|].
  intros decrypted. apply throws_only_bind.
  - unfold increment_segment. repeat throws_step.
  - intros buffer'. apply IH.
Qed.

Lemma throws_only_agile_decrypt (fuel : nat) (result : agile_encryption_info)
    (password : list Z) (encrypted_package : bytes) :
  throws_only (fun e => e = xlnt_exception "bad password")
    (agile_decrypt fuel result password encrypted_package).
Proof.
  unfold agile_decrypt, agile_verifiers, calculate_block, check_verifiers,
    agile_package.
  repeat first
    [ apply throws_only_generate_h_n
    | apply throws_only_aes_cbc
    | apply throws_only_segment_loop
    | throws_step ].
  reflexivity.
Qed.

Lemma throws_only_decrypt_xlsx_agile (fuel : nat) (encryption_info : bytes)
    (password : list Z) (encrypted_package : bytes) :
  throws_only agile_exception
    (decrypt_xlsx_agile fuel encryption_info password encrypted_package).
Proof.
  unfold decrypt_xlsx_agile, decrypt_xlsx_agile_events.
  apply throws_only_bind.
  - intros e He. left.
    apply (header_outcome_read_agile_header (make_parser encryption_info)).
    exact He.
  - intros result e He. right.
    apply (throws_only_agile_decrypt fuel result password encrypted_package).
    exact He.
Qed.

Lemma throws_only_decrypt_xlsx_standard (fuel : nat) (encryption_info : bytes)
    (password : list Z) (encrypted_package : bytes) :
  throws_only standard_exception
    (decrypt_xlsx_standard fuel encryption_info password encrypted_package).
Proof.
  unfold decrypt_xlsx_standard, standard_key, standard_package, xor_fill.
  repeat first
    [ apply read_standard_header_throws
    | apply throws_only_generate_h_n
    | apply throws_only_aes_ecb
    | throws_step ].
Qed.

Lemma throws_only_file (allowed : exn -> Prop) (st : storage) (name : string) :
  throws_only allowed (file st name).
Proof. rewrite file_closed. intros e H. discriminate H. Qed.

Lemma dispatcher_exception (what : string) :
  In what dispatcher_messages -> decrypt_exception (xlnt_exception what).
Proof. intros H. left. exists what. split; [reflexivity | exact H]. Qed.

Lemma throws_only_decrypt_xlsx (fuel : nat) (data : bytes)
    (password : list Z) :
  throws_only decrypt_exception (decrypt_xlsx fuel data password).
Proof.
  unfold decrypt_xlsx. destruct data as [|b data].
  - apply throws_only_throw, dispatcher_exception. simpl. auto.
  - apply throws_only_bind; [apply throws_only_emit|]. intros _.
    destruct (pole_open (b :: data)) as [st|].
    + repeat first
        [ apply throws_only_file
        | apply (throws_only_weaken agile_exception);
          [ intros e He; right; right; exact He
          | apply throws_only_decrypt_xlsx_agile ]
        | apply (throws_only_weaken standard_exception);
          [ intros e He; right; left; exact He
          | apply throws_only_decrypt_xlsx_standard ]
        | throws_step
        | apply dispatcher_exception; cbn [In dispatcher_messages]; auto 10 ].
    + apply throws_only_throw, dispatcher_exception. simpl. auto.
Qed.

End DecoderExceptions.

(** X16. The exceptions of xlnt that [decrypt_xlsx] throws. An
    [xlnt::exception] it throws carries one of twelve messages: the six of
    the dispatcher ("empty file", "not an ole compound file", "bad header",
    "unsupported encryption version", "extensible encryption is not
    supported", "not an OOXML document"), the five of the standard header,
    or "bad password"; the message "unsupported hash algorithm" of [hash]
    is never thrown. An [xlnt::unsupported] it throws is one of the two of
    the agile header, and a C string it throws is "no password key in
    keyEncryptors". The same holds of the entry point with a UTF-8
    password, which throws [std::range_error] before anything else when the
    password cannot be converted. A container that is not empty and that
    the compound-document reader cannot open is rejected with "not an ole
    compound file" before any stream is read. *)
Theorem decrypt_xlsx_exceptions (P : Primitives) (fuel : nat) (data : bytes) :
  (forall (password : list Z) (what : string),
     outcome_of (decrypt_xlsx fuel data password) =
       Throw (xlnt_exception what) ->
     In what (dispatcher_messages ++ standard_header_messages
              ++ ["bad password"%string])
     /\ what <> "unsupported hash algorithm"%string)
  /\
  (forall (password : list Z) (what : string),
     outcome_of (decrypt_xlsx fuel data password) =
       Throw (xlnt_unsupported what) ->
     In what ["hash"; "other encryption key types not supported"]%string)
  /\
  (forall (password : list Z) (what : string),
     outcome_of (decrypt_xlsx fuel data password) = Throw (c_string what) ->
     what = "no password key in keyEncryptors"%string)
  /\
  (forall (password : string) (what : string),
     outcome_of (detail_decrypt_xlsx fuel data password) =
       Throw (xlnt_exception what) ->
     In what (dispatcher_messages ++ standard_header_messages
              ++ ["bad password"%string]))
  /\
  (forall password : string,
     utf8_to_utf16 password = None ->
     detail_decrypt_xlsx fuel data password =
     ([], Throw (std_exception "std::range_error")))
  /\
  (forall password : list Z,
     data <> [] -> pole_open data = None ->
     decrypt_xlsx fuel data password =
     ([storage_open data],
      Throw (xlnt_exception "not an ole compound file"))).
Proof.
  assert (Hx : forall (password : list Z) (what : string),
            outcome_of (decrypt_xlsx fuel data password) =
              Throw (xlnt_exception what) ->
            In what (dispatcher_messages ++ standard_header_messages
                     ++ ["bad password"%string])).
  { intros password what He.
    destruct (throws_only_decrypt_xlsx fuel data password _ He)
      as [(w & [= <-] & Hin) | [(w & [= <-] & Hin) | Ha]].
    - apply in_or_app. left. exact Hin.
    - apply in_or_app. right. apply in_or_app. left. exact Hin.
    - destruct Ha as [[(w & Hw) | [Hw | [Hw | Hw]]] | Hw];
        try discriminate Hw.
      injection Hw as ->. apply in_or_app. right. apply in_or_app. right.
      left. reflexivity. }
  split; [|split; [|split; [|split; [|split]]]].
  - intros password what He. split; [exact (Hx password what He)|].
    intros ->. specialize (Hx password _ He).
    cbn [In app dispatcher_messages standard_header_messages] in Hx.
    repeat (destruct Hx as [Hx | Hx]; [discriminate Hx|]). exact Hx.
  - intros password what He.
    destruct (throws_only_decrypt_xlsx fuel data password _ He)
      as [(w & Hw & _) | [(w & Hw & _) | Ha]]; try discriminate Hw.
    destruct Ha as [[(w & Hw) | [Hw | [Hw | Hw]]] | Hw];
      try discriminate Hw; injection Hw as ->; cbn [In]; auto.
  - intros password what He.
    destruct (throws_only_decrypt_xlsx fuel data password _ He)
      as [(w & Hw & _) | [(w & Hw & _) | Ha]]; try discriminate Hw.
    destruct Ha as [[(w & Hw) | [Hw | [Hw | Hw]]] | Hw];
      try discriminate Hw. injection Hw as ->. reflexivity.
  - intros password what He.
    unfold detail_decrypt_xlsx, call_utf8_to_utf16 in He.
    destruct (utf8_to_utf16 password) as [converted|].
    + rewrite bind_ret in He. exact (Hx converted what He).
    + discriminate He.
  - intros password H.
    unfold detail_decrypt_xlsx, call_utf8_to_utf16. rewrite H. reflexivity.
  - intros password Hdata Hopen. destruct data as [|b data];
      [contradiction|].
    unfold decrypt_xlsx. rewrite Hopen. reflexivity.
Qed.

(** ** The length of the result *)

Section ResultLength.

Context {P : Primitives}.

Lemma standard_package_length (key encrypted_package decrypted : bytes) :
  outcome_of (standard_package key encrypted_package) = Ok decrypted ->
  8 <= size encrypted_package
  /\ size decrypted = length_prefix encrypted_package.
Proof.
  unfold standard_package. cbv zeta.
  destruct (read_int_cases 8 0 encrypted_package)
    as [[_ E] | (_ & B & E)]; rewrite E;
    [rewrite bind_out_of_bounds; discriminate|].
  rewrite bind_ret. cbv beta iota.
  destruct (range_cases 8 (size encrypted_package) encrypted_package)
    as [E' | E']; rewrite E';
    [rewrite bind_out_of_bounds; discriminate|].
  rewrite bind_ret.
  cbv beta iota delta [call_aes_ecb_decrypt emit ret bind outcome_of snd].
  intros [= <-].
  split; [lia|]. unfold size. rewrite resize_length.
  match goal with
  | |- context [Z.to_nat ?v] =>
      change v with (length_prefix encrypted_package)
  end.
  pose proof (little_endian_range (firstn 8 encrypted_package)) as R.
  unfold length_prefix in *. lia.
Qed.

Lemma agile_package_length (result : agile_encryption_info)
    (key encrypted_package decrypted : bytes) :
  outcome_of (agile_package result key encrypted_package) = Ok decrypted ->
  8 <= size encrypted_package
  /\ size decrypted = length_prefix encrypted_package.
Proof.
  unfold agile_package. cbv zeta.
  destruct (read_int_cases 8 0 encrypted_package)
    as [[_ E] | (_ & B & E)]; rewrite E;
    [rewrite bind_out_of_bounds; discriminate|].
  rewrite bind_ret. cbv beta iota. intros H.
  apply outcome_bind_inv in H. destruct H as (segments & _ & H).
  injection H as <-.
  split; [lia|]. unfold size. rewrite resize_length.
  match goal with
  | |- context [Z.to_nat ?v] =>
      change v with (length_prefix encrypted_package)
  end.
  pose proof (little_endian_range (firstn 8 encrypted_package)) as R.
  unfold length_prefix in *. lia.
Qed.

End ResultLength.

(** X17. Whenever a decoder returns, the result has exactly as many bytes
    as the 8-byte prefix of the package announces, and the package holds
    that prefix: the decrypted bytes are resized to the prefix without
    condition, whatever the length of the ciphertext. *)
Theorem result_length_is_prefix (P : Primitives) (fuel : nat)
    (password : list Z) (encrypted_package decrypted : bytes) :
  (forall encryption_info : bytes,
     outcome_of (decrypt_xlsx_standard fuel encryption_info password
                   encrypted_package) = Ok decrypted ->
     8 <= size encrypted_package
     /\ size decrypted = length_prefix encrypted_package)
  /\
  (forall result : agile_encryption_info,
     outcome_of (agile_decrypt fuel result password encrypted_package) =
       Ok decrypted ->
     8 <= size encrypted_package
     /\ size decrypted = length_prefix encrypted_package)
  /\
  (forall encryption_info : bytes,
     outcome_of (decrypt_xlsx_agile fuel encryption_info password
                   encrypted_package) = Ok decrypted ->
     8 <= size encrypted_package
     /\ size decrypted = length_prefix encrypted_package).
Proof.
  assert (Hagile : forall result : agile_encryption_info,
            outcome_of (agile_decrypt fuel result password encrypted_package) =
              Ok decrypted ->
            8 <= size encrypted_package
            /\ size decrypted = length_prefix encrypted_package).
  { intros result H. unfold agile_decrypt in H.
    apply outcome_bind_inv in H. destruct H as (h_n & _ & H).
    apply outcome_bind_inv in H. destruct H as ([c e] & _ & H).
    apply outcome_bind_inv in H. destruct H as (u & _ & H).
    apply outcome_bind_inv in H. destruct H as (key & _ & H).
    apply (agile_package_length result key). exact H. }
  split; [|split; [exact Hagile|]].
  - intros encryption_info H. unfold decrypt_xlsx_standard in H.
    apply outcome_bind_inv in H. destruct H as (info & _ & H).
    apply outcome_bind_inv in H. destruct H as (key & _ & H).
    apply (standard_package_length key). exact H.
  - intros encryption_info H.
    unfold decrypt_xlsx_agile, decrypt_xlsx_agile_events in H.
    apply outcome_bind_inv in H. destruct H as (result & _ & H).
    apply (Hagile result). exact H.
Qed.

Lemma result_length_is_prefix_witness :
  8 <= size one_block_package
  /\ size (repeat x41 16 ++ [x00]) = length_prefix one_block_package.
Proof.
  apply (proj1 (result_length_is_prefix sample_primitives (Z.to_nat 50000) []
                  one_block_package (repeat x41 16 ++ [x00]))
           sample_standard_header).
  vm_compute. reflexivity.
Defined.

(** ** What a decoder returns *)


Section ReturnedBytes.

Context {P : Primitives}.







End ReturnedBytes.



(** ** Header buffers *)

Lemma finite_bind {A B} (m : M A) (f : A -> M B) :
  outcome_of m <> OutOfFuel -> (forall a, outcome_of (f a) <> OutOfFuel) ->
  outcome_of (bind m f) <> OutOfFuel.
Proof.
  intros Hm Hf. destruct m as [t [a | e | | ]]; cbn [bind outcome_of snd].
  - specialize (Hf a). destruct (f a). exact Hf.
  - discriminate.
  - discriminate.
  - contradiction.
Qed.

Section HeaderFinite.

Context {P : Primitives}.

Lemma finite_next_expect (ty : event_type) (p : parser) :
  outcome_of (next_expect ty p) <> OutOfFuel.
Proof.
  unfold next_expect. destruct (next p) as [got p'].
  destruct (event_type_eqb got ty); discriminate.
Qed.

Lemma finite_next_expect_named (ty : event_type) (ns n : string) (p : parser) :
  outcome_of (next_expect_named ty ns n p) <> OutOfFuel.
Proof.
  unfold next_expect_named. destruct (next p) as [got p'].
  destruct (event_type_eqb got ty && String.eqb (namespace_ p') ns
            && String.eqb (name p') n); discriminate.
Qed.

Lemma finite_attribute (key : string) (p : parser) :
  outcome_of (attribute key p) <> OutOfFuel.
Proof.
  destruct (attribute_cases key p) as [[_ ->] | (v & _ & ->)]; discriminate.
Qed.

Lemma finite_attribute_size_t (key : string) (p : parser) :
  outcome_of (attribute_size_t key p) <> OutOfFuel.
Proof.
  destruct (attribute_size_t_cases key p) as [[w ->] | (v & z & _ & _ & ->)];
    discriminate.
Qed.

End HeaderFinite.

(** One step of a proof that a part of the header reader does not run out
    of turns. *)
Ltac finite_step :=
  lazymatch goal with
  | |- outcome_of (bind _ _) <> OutOfFuel => apply finite_bind; [|intros ?]
  | |- outcome_of (match ?x with (_, _) => _ end) <> OutOfFuel => destruct x
  | |- outcome_of (if ?c then _ else _) <> OutOfFuel => destruct c
  | |- outcome_of (ret _) <> OutOfFuel => discriminate
  | |- outcome_of (throw _) <> OutOfFuel => discriminate
  | |- outcome_of (next_expect _ _) <> OutOfFuel => apply finite_next_expect
  | |- outcome_of (next_expect_named _ _ _ _) <> OutOfFuel =>
      apply finite_next_expect_named
  | |- outcome_of (attribute _ _) <> OutOfFuel => apply finite_attribute
  | |- outcome_of (attribute_size_t _ _) <> OutOfFuel =>
      apply finite_attribute_size_t
  end.

Section HeaderReaderFinite.

Context {P : Primitives}.

Lemma finite_read_encrypted_key (p : parser) :
  outcome_of (read_encrypted_key p) <> OutOfFuel.
Proof. unfold read_encrypted_key. repeat finite_step. Qed.

(** One turn more than the events still pending is enough for the loop
    over the children of [keyEncryptor]. *)
Lemma finite_key_encryptor_loop (turns : nat) :
  forall (p : parser) (stored : option key_encryptor_info),
    (length (pending p) < turns)%nat ->
    outcome_of (key_encryptor_loop turns p stored) <> OutOfFuel.
Proof.
  induction turns as [|turns IH]; intros [pend cur] stored Hlen;
    [cbn [pending] in Hlen; lia|].
  rewrite key_encryptor_loop_eq.
  destruct (negb (event_type_eqb (peek {| pending := pend; current := cur |})
                    ev_end_element)); [|discriminate].
  unfold next_expect at 1, next. cbn [pending] in Hlen |- *.
  destruct pend as [|e rest]; [discriminate|].
  destruct (event_type_eqb (type_of_event e) ev_start_element);
    [|discriminate].
  rewrite bind_ret. apply finite_bind.
  - destruct (_ && _); [|discriminate].
    apply finite_bind; [apply finite_read_encrypted_key|]. discriminate.
  - intros stored'. unfold next_expect, next. cbn [pending].
    destruct rest as [|e' rest']; [discriminate|].
    destruct (event_type_eqb (type_of_event e') ev_end_element);
      [|discriminate].
    rewrite bind_ret. apply IH. cbn [pending length] in Hlen |- *. lia.
Qed.

Lemma finite_read_agile_header (p : parser) :
  outcome_of (read_agile_header p) <> OutOfFuel.
Proof.
  unfold read_agile_header, read_key_data, read_data_integrity,
    read_key_encryptor, key_encryptor_children.
  repeat first
    [ finite_step
    | apply finite_key_encryptor_loop; apply Nat.lt_succ_diag_r
    | match goal with
      | |- outcome_of (match ?x with Some _ => _ | None => _ end)
           <> OutOfFuel => destruct x
      end ].
Qed.

(** A header buffer in which the tokenizer finds no event, as in the empty
    buffer, is rejected by the first [next_expect]. *)
Lemma no_event_rejected (fuel : nat) (encryption_info : bytes)
    (password : list Z) (encrypted_package : bytes) :
  xml_events encryption_info = [] ->
  decrypt_xlsx_agile fuel encryption_info password encrypted_package =
  ([], Throw (xml_parsing "unexpected event")).
Proof.
  intros H. unfold decrypt_xlsx_agile, decrypt_xlsx_agile_events,
    make_parser. rewrite H. reflexivity.
Qed.

Lemma well_formed_in_bounds (encryption_info : bytes) :
  standard_header_well_formed encryption_info ->
  outcome_of (read_standard_header encryption_info) <> OutOfBounds.
Proof. intros [H _]. now apply standard_header_in_bounds. Qed.

End HeaderReaderFinite.

(** C1, amended. For every standard header buffer that holds what its
    fields announce (the nine fixed fields; a provider name of a whole
    number of UTF-16 code units, one at least, that ends where the header
    length says; the salt size and the salt; the 16-byte verifier; the
    verifier hash size and the verifier hash: [standard_header_well_formed])
    the header reader takes every fixed-width field and every slice within
    the buffer, and so does the standard decoder as a whole when the key
    size is at most 320 bits and the package holds its 8-byte prefix. For
    every [EncryptionInfo] stream of at least 8 bytes the dispatcher takes
    the version and flag words, and strips them, within the buffer. On the
    agile scheme the decoder takes no byte of the header buffer itself: the
    buffer goes to the XML parser with its size, and every header is either
    decoded or rejected with an exception (of the parser, one of the two
    [xlnt::unsupported], or the C string) before any key is derived; a
    buffer in which the parser finds no event, as in the empty buffer, is
    rejected with an exception of the parser. A standard header of fewer
    than 16 bytes is not rejected: the reader takes one of its first four
    words past the end of the buffer and throws nothing. *)
Theorem header_reads_in_bounds (P : Primitives) :
  (forall encryption_info : bytes,
     standard_header_well_formed encryption_info ->
     outcome_of (read_standard_header encryption_info) <> OutOfBounds)
  /\
  (forall (fuel : nat) (encryption_info : bytes) (password : list Z)
      (encrypted_package : bytes),
     standard_header_well_formed encryption_info ->
     little_endian (slice 20 24 encryption_info) <= 320 ->
     (Z.to_nat 50000 <= fuel)%nat ->
     8 <= size encrypted_package ->
     outcome_of (decrypt_xlsx_standard fuel encryption_info password
                   encrypted_package) <> OutOfBounds)
  /\
  (forall encryption_info : bytes,
     8 <= size encryption_info ->
     read_int 2 0 encryption_info = ret (version_major encryption_info, 2)
     /\ read_int 2 2 encryption_info = ret (version_minor encryption_info, 4)
     /\ read_int 4 4 encryption_info =
        ret (encryption_flags encryption_info, 8)
     /\ range 8 (size encryption_info) encryption_info =
        ret (skipn 8 encryption_info))
  /\
  (forall encryption_info : bytes,
     let header := read_agile_header (make_parser encryption_info) in
     trace_of header = []
     /\ ((exists result, outcome_of header = Ok result)
         \/ (exists e, outcome_of header = Throw e
                       /\ agile_header_exception e)))
  /\
  (forall (fuel : nat) (encryption_info : bytes) (password : list Z)
      (encrypted_package : bytes) (e : exn),
     outcome_of (read_agile_header (make_parser encryption_info)) = Throw e ->
     decrypt_xlsx_agile fuel encryption_info password encrypted_package =
     ([], Throw e))
  /\
  (forall (fuel : nat) (encryption_info : bytes) (password : list Z)
      (encrypted_package : bytes),
     xml_events encryption_info = [] ->
     decrypt_xlsx_agile fuel encryption_info password encrypted_package =
     ([], Throw (xml_parsing "unexpected event")))
  /\
  (forall encryption_info : bytes,
     size encryption_info < 16 ->
     read_standard_header encryption_info = ([], OutOfBounds)).
Proof.
  split; [exact well_formed_in_bounds|].
  split; [|split; [|split; [|split; [|split]]]];
    [| | | | | exact short_header_out_of_bounds].
  - intros fuel encryption_info password encrypted_package [Hfits _].
    now apply decrypt_xlsx_standard_in_bounds.
  - intros encryption_info Hs.
    destruct (read_version encryption_info Hs) as (H1 & H2 & H3).
    repeat split; try assumption.
    apply (range_payload encryption_info Hs).
  - intros encryption_info header. subst header.
    destruct (header_outcome_read_agile_header (make_parser encryption_info))
      as (Ht & Hb & He).
    pose proof (finite_read_agile_header (make_parser encryption_info)) as Hf.
    split; [exact Ht|].
    destruct (outcome_of (read_agile_header (make_parser encryption_info)))
      as [result | e | | ] eqn:E.
    + left. exists result. reflexivity.
    + right. exists e. split; [reflexivity | apply He; exact E].
    + contradiction.
    + contradiction.
  - intros fuel encryption_info password encrypted_package e H.
    destruct (header_outcome_read_agile_header (make_parser encryption_info))
      as (Ht & _ & _).
    unfold decrypt_xlsx_agile, decrypt_xlsx_agile_events.
    destruct (read_agile_header (make_parser encryption_info)) as [t r].
    cbn [trace_of outcome_of fst snd] in Ht, H. subst t r. reflexivity.
  - intros fuel encryption_info password encrypted_package.
    apply no_event_rejected.
Qed.

(** The sample header and package of the standard scheme. *)
Lemma header_reads_in_bounds_witness :
  outcome_of (read_standard_header sample_standard_header) <> OutOfBounds
  /\ outcome_of (@decrypt_xlsx_standard sample_primitives (Z.to_nat 50000)
                   sample_standard_header [] one_block_package)
     <> OutOfBounds.
Proof.
  split.
  - apply (proj1 (header_reads_in_bounds sample_primitives)
             sample_standard_header).
    unfold standard_header_well_formed, standard_header_fits. cbv zeta.
    repeat split; try (apply Z.leb_le); vm_compute; reflexivity.
  - apply (proj1 (proj2 (header_reads_in_bounds sample_primitives))
             (Z.to_nat 50000) sample_standard_header [] one_block_package).
    + unfold standard_header_well_formed, standard_header_fits. cbv zeta.
      repeat split; try (apply Z.leb_le); vm_compute; reflexivity.
    + apply Z.leb_le. vm_compute. reflexivity.
    + apply Nat.le_refl.
    + apply Z.leb_le. vm_compute. reflexivity.
Defined.

(** C1, as stated, fails at the empty header buffer of the standard
    scheme: the decoder takes the header length outside the buffer and
    throws nothing; and so does the dispatcher on a container whose
    [EncryptionInfo] stream is empty, for the version word. *)
Lemma truncated_header_counterexample :
  read_standard_header [] = ([], OutOfBounds)
  /\ @decrypt_xlsx_standard sample_primitives 0 [] [] [] = ([], OutOfBounds)
  /\ @decrypt_xlsx sample_primitives 0 [x00] [] =
     (container_calls [x00], OutOfBounds).
Proof.
  split; [reflexivity|]. split; [reflexivity|].
  apply (short_info_stream_out_of_bounds (P := sample_primitives)
           0%nat [x00] [] [x00]).
  - discriminate.
  - reflexivity.
  - apply Z.ltb_lt. vm_compute. reflexivity.
Qed.
